(** * scrub_data: the PII scrubbing engine of process_chatlog_py38.py

    A shallow embedding of [scrub_pii] and of the pieces of Python it
    runs on: [re.sub] with the [re.IGNORECASE] flag over the ten
    patterns of the module, [str.replace(old, new, 1)], the [in] test on
    strings, slicing, [list.sort(reverse=True, key=...)], and the
    [try ... except Exception] around the spaCy call.

    Beside [scrub_pii] the development covers the copy of it in
    test_scrubbing.py, the column [apply] of [process_excel_file],
    [generate_session_colors] with the fill of the SessionId column,
    and the column widths.

    Text is a list of characters.  A character is a code point below
    256, so the model covers the Latin-1 part of Python's [str]; the
    classes [\d], [\s], [\w] below are CPython's Unicode tables cut to
    that range. *)

From Stdlib Require Import List Ascii String Arith Lia Bool NArith ZArith.
From Stdlib Require Import Numbers.DecimalString Permutation Sorted.
Import ListNotations.

Set Implicit Arguments.

Open Scope string_scope.
Open Scope list_scope.

(** ** Text *)

Definition str := list ascii.

Definition lit (s : string) : str := list_ascii_of_string s.

Definition code (c : ascii) : N := N_of_ascii c.

Definition between (lo hi : N) (c : ascii) : bool :=
  (lo <=? code c)%N && (code c <=? hi)%N.

(** [\d]: the decimal digits. *)
Definition is_digit (c : ascii) : bool := between 48 57 c.

(** [\s]: the characters [str.isspace] accepts. *)
Definition is_space (c : ascii) : bool :=
  between 9 13 c || between 28 32 c || (code c =? 133)%N || (code c =? 160)%N.

Definition is_upper_ascii (c : ascii) : bool := between 65 90 c.
Definition is_lower_ascii (c : ascii) : bool := between 97 122 c.

(** [\w]: alphanumeric per [str.isalnum], or the underscore. *)
Definition is_word (c : ascii) : bool :=
  is_digit c || is_upper_ascii c || is_lower_ascii c || (code c =? 95)%N
  || (code c =? 170)%N || (code c =? 178)%N || (code c =? 179)%N
  || (code c =? 181)%N || (code c =? 185)%N || (code c =? 186)%N
  || between 188 190 c || between 192 214 c || between 216 246 c
  || between 248 255 c.

(** The other case of an ASCII letter; any other character is its own. *)
Definition swapcase (c : ascii) : ascii :=
  if is_upper_ascii c then ascii_of_N (code c + 32)
  else if is_lower_ascii c then ascii_of_N (code c - 32)
  else c.

(** [str.upper] on the characters the entity filter compares with. *)
Definition upper_char (c : ascii) : ascii :=
  if is_lower_ascii c then ascii_of_N (code c - 32) else c.

Definition upper (s : str) : str := map upper_char s.

Definition ascii_eqb (a b : ascii) : bool := (code a =? code b)%N.

Fixpoint str_eqb (a b : str) : bool :=
  match a, b with
  | [], [] => true
  | x :: a', y :: b' => ascii_eqb x y && str_eqb a' b'
  | _, _ => false
  end.

(** [needle] starts [text]. *)
Fixpoint starts_with (needle text : str) : bool :=
  match needle, text with
  | [], _ => true
  | x :: n', y :: t' => ascii_eqb x y && starts_with n' t'
  | _ :: _, [] => false
  end.

(** [needle in text]. *)
Fixpoint contains (needle text : str) : bool :=
  starts_with needle text ||
  match text with
  | [] => false
  | _ :: t' => contains needle t'
  end.

(** [text.replace(old, new, 1)]: the leftmost occurrence only. *)
Fixpoint replace_one (old new text : str) : str :=
  if starts_with old text then new ++ skipn (List.length old) text
  else match text with
       | [] => []
       | c :: t' => c :: replace_one old new t'
       end.

(** ** Regular expressions

    The fragment of [re] syntax the module's patterns use.  Groups
    capture nothing the code reads (only [match.group(0)]), so a group
    is its body. *)

Inductive item : Type :=
| IChar (c : ascii)
| IRange (lo hi : ascii)
| ISpace.

Inductive atom : Type :=
| Lit (c : ascii)
| Cls (items : list item)
| Digit
| NonDigit
| Whitespace.

Inductive re : Type :=
| Eps
| Atom (a : atom)
| Bound
| Cat (r1 r2 : re)
| Or (r1 r2 : re)
| Opt (r : re)
| Rep (a : atom) (lo : nat) (hi : option nat).

Definition item_has (i : item) (c : ascii) : bool :=
  match i with
  | IChar x => ascii_eqb x c
  | IRange lo hi => between (code lo) (code hi) c
  | ISpace => is_space c
  end.

Definition atom_has (a : atom) (c : ascii) : bool :=
  match a with
  | Lit x => ascii_eqb x c
  | Cls items => existsb (fun i => item_has i c) items
  | Digit => is_digit c
  | NonDigit => negb (is_digit c)
  | Whitespace => is_space c
  end.

(** One character against an atom; under IGNORECASE either case of the
    character may be the one the atom names. *)
Definition atom_match (ignorecase : bool) (a : atom) (c : ascii) : bool :=
  atom_has a c || (ignorecase && atom_has a (swapcase c)).

Definition word_before (prev : option ascii) : bool :=
  match prev with Some c => is_word c | None => false end.

Definition word_after (rest : str) : bool :=
  match rest with c :: _ => is_word c | [] => false end.

(** The continuation receives the character before the cursor, the text
    from the cursor on, and the number of characters consumed so far. *)
Definition kont := option ascii -> str -> nat -> option nat.

(** Greedy repetition of one atom: as many as allowed first, then one
    fewer at a time while the rest of the pattern fails. *)
Fixpoint rep_atom (ic : bool) (a : atom) (lo : nat) (hi : option nat)
    (prev : option ascii) (rest : str) (n : nat) (k : kont) {struct rest}
    : option nat :=
  let stop := match lo with 0 => k prev rest n | S _ => None end in
  match hi with
  | Some 0 => stop
  | _ =>
    match rest with
    | c :: rest' =>
      if atom_match ic a c then
        match rep_atom ic a (pred lo) (option_map pred hi) (Some c) rest' (S n) k with
        | Some r => Some r
        | None => stop
        end
      else stop
    | [] => stop
    end
  end.

(** The backtracking matcher: the first way to match, alternatives tried
    left to right, quantifiers greedy. *)
Fixpoint re_match (ic : bool) (r : re) (prev : option ascii) (rest : str)
    (n : nat) (k : kont) {struct r} : option nat :=
  match r with
  | Eps => k prev rest n
  | Atom a =>
    match rest with
    | c :: rest' => if atom_match ic a c then k (Some c) rest' (S n) else None
    | [] => None
    end
  | Bound =>
    if xorb (word_before prev) (word_after rest) then k prev rest n else None
  | Cat r1 r2 =>
    re_match ic r1 prev rest n (fun p s m => re_match ic r2 p s m k)
  | Or r1 r2 =>
    match re_match ic r1 prev rest n k with
    | Some x => Some x
    | None => re_match ic r2 prev rest n k
    end
  | Opt r1 =>
    match re_match ic r1 prev rest n k with
    | Some x => Some x
    | None => k prev rest n
    end
  | Rep a lo hi => rep_atom ic a lo hi prev rest n k
  end.

(** A match attempt at the cursor; the answer is the length of the
    match.  [must_advance] refuses the empty match, as the scanner does
    right after an empty match at the same place. *)
Definition match_here (ic : bool) (r : re) (prev : option ascii) (rest : str)
    (must_advance : bool) : option nat :=
  re_match ic r prev rest 0
    (fun _ _ m => if must_advance && (m =? 0)%nat then None else Some m).

(** ** [re.sub] *)

Section Sub.

Variable St : Type.

(** The matcher, abstracted: previous character, text from the cursor,
    must-advance flag; the length of the match found at the cursor. *)
Variable find : option ascii -> str -> bool -> option nat.

(** The replacement callable, with the state it closes over. *)
Variable repl : St -> str -> str * St.

(** [skip] counts the characters of the current match still to be
    passed over. *)
Fixpoint sub_loop (st : St) (prev : option ascii) (rest : str) (skip : nat)
    {struct rest} : str * St :=
  match skip, rest with
  | S k, c :: rest' => sub_loop st (Some c) rest' k
  | S _, [] => ([], st)
  | 0, _ =>
    match find prev rest false with
    | Some (S k) =>
      let (new, st1) := repl st (firstn (S k) rest) in
      match rest with
      | c :: rest' =>
        let (out, st2) := sub_loop st1 (Some c) rest' k in (new ++ out, st2)
      | [] => (new, st1)
      end
    | Some 0 =>
      let (new, st1) := repl st [] in
      match find prev rest true with
      | Some (S k) =>
        let (new2, st2) := repl st1 (firstn (S k) rest) in
        match rest with
        | c :: rest' =>
          let (out, st3) := sub_loop st2 (Some c) rest' k in
          (new ++ new2 ++ out, st3)
        | [] => (new ++ new2, st2)
        end
      | _ =>
        match rest with
        | c :: rest' =>
          let (out, st2) := sub_loop st1 (Some c) rest' 0 in
          (new ++ c :: out, st2)
        | [] => (new, st1)
        end
      end
    | None =>
      match rest with
      | c :: rest' =>
        let (out, st1) := sub_loop st (Some c) rest' 0 in (c :: out, st1)
      | [] => ([], st)
      end
    end
  end.

End Sub.

(** [re.sub(pattern, fn, text, flags=re.IGNORECASE)] with a callable. *)
Definition re_sub_fn (St : Type) (pattern : re) (fn : St -> str -> str * St)
    (st : St) (text : str) : str * St :=
  sub_loop (match_here true pattern) fn st None text 0.

(** A replacement that is a fixed string: every match gets it. *)
Definition constant (new : str) : unit -> str -> str * unit :=
  fun u _ => (new, u).

(** [re.sub(pattern, new, text, flags=re.IGNORECASE)] with a fixed string. *)
Definition re_sub (pattern : re) (new : str) (text : str) : str :=
  fst (re_sub_fn pattern (constant new) tt text).

(** ** [re.compile]

    A parser for the pattern syntax the module uses: literals, the
    escapes [\b \d \D \s] and escaped punctuation, bracketed classes
    with ranges, groups (capturing or not), alternation, and the greedy
    quantifiers.  A quantifier other than [?] on a group, a lazy or
    possessive quantifier, and a negated class are not in the fragment;
    the parser answers [None] on them. *)

Module Parser.

Local Open Scope char_scope.

Definition at_ (c x : ascii) : bool := ascii_eqb c x.

Definition one_of (c : ascii) (xs : string) : bool :=
  existsb (at_ c) (lit xs).

Definition cat (r1 r2 : re) : re :=
  match r2 with Eps => r1 | _ => Cat r1 r2 end.

Definition digit_value (c : ascii) : option nat :=
  if is_digit c then Some (N.to_nat (code c - 48)) else None.

(** A decimal number at the head of the text, after [acc]. *)
Fixpoint number (acc : nat) (s : str) : nat * str :=
  match s with
  | c :: s' =>
    match digit_value c with
    | Some d => number (10 * acc + d) s'
    | None => (acc, s)
    end
  | [] => (acc, s)
  end.

Definition add (i : item) (more : option (list item * str))
    : option (list item * str) :=
  match more with
  | Some (items, s) => Some (i :: items, s)
  | None => None
  end.

(** An escape inside a class: [\s], or an escaped punctuation mark. *)
Definition escape_item (e : ascii) : option item :=
  if at_ e "s" then Some ISpace
  else if is_word e then None
  else Some (IChar e).

(** The inside of a bracketed class, up to and including the bracket
    that closes it. *)
Fixpoint class_items (s : str) : option (list item * str) :=
  match s with
  | [] => None
  | c :: s1 =>
    if at_ c "]" then Some ([], s1)
    else if at_ c "^" || at_ c "[" then None
    else if at_ c "\" then
      match s1 with
      | e :: s2 =>
        match escape_item e with
        | Some i => add i (class_items s2)
        | None => None
        end
      | [] => None
      end
    else
      match s1 with
      | h :: d :: s3 =>
        if at_ h "-" then
          if at_ d "]" then Some ([IChar c; IChar "-"], s3)
          else if at_ d "\" then None
          else add (IRange c d) (class_items s3)
        else add (IChar c) (class_items s1)
      | _ => add (IChar c) (class_items s1)
      end
  end.

(** No second quantifier may follow a quantifier. *)
Definition plain (r : re) (s : str) : option (re * str) :=
  match s with
  | c :: _ => if one_of c "?+*{" then None else Some (r, s)
  | [] => Some (r, s)
  end.

(** [{m}] or [{m,n}], the opening brace already read. *)
Definition braces (a : atom) (s : str) : option (re * str) :=
  match s with
  | c :: _ =>
    if is_digit c then
      match number 0 s with
      | (lo, x :: s1) =>
        if at_ x "}" then plain (Rep a lo (Some lo)) s1
        else if at_ x "," then
          match s1 with
          | y :: _ =>
            if is_digit y then
              match number 0 s1 with
              | (hi, z :: s2) =>
                if at_ z "}" then plain (Rep a lo (Some hi)) s2 else None
              | _ => None
              end
            else None
          | [] => None
          end
        else None
      | _ => None
      end
    else None
  | [] => None
  end.

Definition quantify_atom (a : atom) (s : str) : option (re * str) :=
  match s with
  | q :: s' =>
    if at_ q "*" then plain (Rep a 0 None) s'
    else if at_ q "+" then plain (Rep a 1 None) s'
    else if at_ q "?" then plain (Rep a 0 (Some 1)) s'
    else if at_ q "{" then braces a s'
    else Some (Atom a, s)
  | [] => Some (Atom a, s)
  end.

Definition quantify_group (body : re) (s : str) : option (re * str) :=
  match s with
  | q :: s' =>
    if at_ q "?" then plain (Opt body) s'
    else if one_of q "*+{" then None
    else Some (body, s)
  | [] => Some (body, s)
  end.

(** The text after the opening parenthesis of a group: [?:] dropped,
    any other [(?...)] form refused. *)
Definition group_body (s : str) : option str :=
  match s with
  | q :: s1 =>
    if at_ q "?" then
      match s1 with
      | x :: s2 => if at_ x ":" then Some s2 else None
      | [] => None
      end
    else Some s
  | [] => Some s
  end.

Fixpoint alternation (fuel : nat) (s : str) {struct fuel} : option (re * str) :=
  match fuel with
  | 0 => None
  | S f =>
    match sequence f s with
    | Some (r1, c :: s') =>
      if at_ c "|" then
        match alternation f s' with
        | Some (r2, s'') => Some (Or r1 r2, s'')
        | None => None
        end
      else Some (r1, c :: s')
    | other => other
    end
  end
with sequence (fuel : nat) (s : str) {struct fuel} : option (re * str) :=
  match fuel with
  | 0 => None
  | S f =>
    match s with
    | [] => Some (Eps, s)
    | c :: _ =>
      if one_of c "|)" then Some (Eps, s)
      else
        match piece f s with
        | Some (r1, s') =>
          match sequence f s' with
          | Some (r2, s'') => Some (cat r1 r2, s'')
          | None => None
          end
        | None => None
        end
    end
  end
with piece (fuel : nat) (s : str) {struct fuel} : option (re * str) :=
  match fuel with
  | 0 => None
  | S f =>
    match s with
    | [] => None
    | c :: s' =>
      if at_ c "(" then
        match group_body s' with
        | Some inner =>
          match alternation f inner with
          | Some (body, x :: s'') =>
            if at_ x ")" then quantify_group body s'' else None
          | _ => None
          end
        | None => None
        end
      else if at_ c "[" then
        match class_items s' with
        | Some (items, s'') => quantify_atom (Cls items) s''
        | None => None
        end
      else if at_ c "\" then
        match s' with
        | e :: s'' =>
          if at_ e "b" then Some (Bound, s'')
          else if at_ e "d" then quantify_atom Digit s''
          else if at_ e "D" then quantify_atom NonDigit s''
          else if at_ e "s" then quantify_atom Whitespace s''
          else if is_word e then None
          else quantify_atom (Lit e) s''
        | [] => None
        end
      else if one_of c "*+?{.^$" then None
      else quantify_atom (Lit c) s'
    end
  end.

Definition parse (pattern : string) : option re :=
  match alternation (2 * String.length pattern + 2) (lit pattern) with
  | Some (r, []) => Some r
  | _ => None
  end.

End Parser.

Definition re_compile (pattern : string) : re :=
  match Parser.parse pattern with Some r => r | None => Eps end.

(** ** The patterns of the module *)

Definition POSTAL_CODE_PATTERN : re := Eval vm_compute in re_compile
  "[A-Za-z]\s*\d\s*[A-Za-z]\s*[ -]?\s*\d\s*[A-Za-z]\s*\d".
Definition PASSPORT_PATTERN : re := Eval vm_compute in re_compile
  "\b([A-Za-z]{2}\s*\d{6})\b".
Definition SIN_PATTERN : re := Eval vm_compute in re_compile
  "(\d{3}\s*\d{3}\s*\d{3}|\d{3}\D*\d{3}\D*\d{3})".
Definition PHONE_PATTERN_1 : re := Eval vm_compute in re_compile
  "(\+\d{1,2}\s?)?1?\-?\.\s?\(?\d{3}\)?[\s.-]?\d{3}[\s.-]?\d{4}".
Definition PHONE_PATTERN_2 : re := Eval vm_compute in re_compile
  "(?:(?:\+?1\s*(?:[.-]\s*)?)?(?:\(\s*([2-9]1[02-9]|[2-9][02-8]1|[2-9][02-8][02-9])\s*\)|([2-9]1[02-9]|[2-9][02-8]1|[2-9][02-8][02-9]))\s*(?:[.-]\s*)?)?([2-9]1[02-9]|[2-9][02-9]1|[2-9][02-9]{2})\s*(?:[.-]\s*)?([0-9]{4})(?:\s*(?:#|x\.?|ext\.?|extension)\s*(\d+))?".
Definition EMAIL_PATTERN : re := Eval vm_compute in re_compile
  "([a-zA-Z0-9_\-\.]+)\s*@([\sa-zA-Z0-9_\-\.]+)[\.\,]([a-zA-Z]{1,5})".
Definition DOB_PATTERN : re := Eval vm_compute in re_compile
  "\b(\d{1,2}[-/.]\d{1,2}[-/.]\d{2,4}|\d{4}[-/.]\d{1,2}[-/.]\d{1,2})\b".
Definition PO_BOX_PATTERN : re := Eval vm_compute in re_compile
  "\b(?:P(?:ost(?:al)?)?\.?\s*O(?:ffice)?\.?\s*Box|General Delivery)\s+\d+\b".
Definition ADDRESS_PATTERN : re := Eval vm_compute in re_compile
  "\b[A-Za-z0-9]+\s+[A-Za-z0-9\s.-]+\s+(?:Street|St|Avenue|Ave|Road|Rd|Lane|Ln|Drive|Dr|Boulevard|Blvd|Crescent|Cres|Court|Ct)\b".
Definition TEMP_CREDIT_CARD_IGNORE_PATTERN : re := Eval vm_compute in re_compile
  "\b(?:\d{4}[ -]?\d{4}[ -]?\d{4}[ -]?\d{1,4}|\d{13,16})\b".

(** ** The patterns, written out

    Shorthands to write a pattern as a term; the lemmas of section
    "The patterns as parsed" check each parsed pattern against the term
    written by hand. *)

Fixpoint seq (rs : list re) : re :=
  match rs with
  | [] => Eps
  | [r] => r
  | r :: rs' => Cat r (seq rs')
  end.

Fixpoint alt (rs : list re) : re :=
  match rs with
  | [] => Eps
  | [r] => r
  | r :: rs' => Or r (alt rs')
  end.

Definition chr (s : string) : atom :=
  match s with
  | String c _ => Lit c
  | EmptyString => Cls []
  end.

(** A run of literal characters. *)
Definition word (s : string) : re := seq (map (fun c => Atom (Lit c)) (lit s)).

(** A run of literal characters, then [r]. *)
Definition word_then (s : string) (r : re) : re :=
  fold_right (fun c acc => Cat (Atom (Lit c)) acc) r (lit s).

Definition star (a : atom) : re := Rep a 0 None.
Definition plus (a : atom) : re := Rep a 1 None.
Definition maybe (a : atom) : re := Rep a 0 (Some 1).
Definition times (n : nat) (a : atom) : re := Rep a n (Some n).
Definition upto (lo hi : nat) (a : atom) : re := Rep a lo (Some hi).

Definition range (lo hi : string) : item :=
  match lo, hi with
  | String a _, String b _ => IRange a b
  | _, _ => ISpace
  end.

Definition one (s : string) : item :=
  match s with
  | String c _ => IChar c
  | EmptyString => ISpace
  end.

Definition letter : atom := Cls [range "A" "Z"; range "a" "z"].
Definition space_or_hyphen : atom := Cls [one " "; one "-"].
Definition dot_or_hyphen : atom := Cls [one "."; one "-"].
Definition space_dot_hyphen : atom := Cls [ISpace; one "."; one "-"].
Definition date_sep : atom := Cls [one "-"; one "/"; one "."].
Definition d29 : atom := Cls [range "2" "9"].
Definition d0_29 : atom := Cls [one "0"; range "2" "9"].
Definition d0_28 : atom := Cls [one "0"; range "2" "8"].
Definition d09 : atom := Cls [range "0" "9"].

Definition area_code : re :=
  alt [seq [Atom d29; Atom (chr "1"); Atom d0_29];
       seq [Atom d29; Atom d0_28; Atom (chr "1")];
       seq [Atom d29; Atom d0_28; Atom d0_29]].

Definition exchange : re :=
  alt [seq [Atom d29; Atom (chr "1"); Atom d0_29];
       seq [Atom d29; Atom d0_29; Atom (chr "1")];
       seq [Atom d29; times 2 d0_29]].

Definition sep : re := Opt (seq [Atom dot_or_hyphen; star Whitespace]).

(** ** Values, outcomes, the recognizer *)

(** What a cell of the table may hold.  The four missing markers are
    the scalars [pd.isna] answers [True] on. *)
Inductive value : Type :=
| VNone
| VNaN
| VNaT
| VNA
| VInt (z : Z)
| VStr (s : str).

Definition isna (v : value) : bool :=
  match v with
  | VNone | VNaN | VNaT | VNA => true
  | VInt _ | VStr _ => false
  end.

(** [str(n)] for a natural number, as [format] prints an index. *)
Definition str_of_nat (n : nat) : str :=
  lit (NilEmpty.string_of_uint (Nat.to_uint n)).

(** [str(text)] on a value that is not missing. *)
Definition str_of_value (v : value) : str :=
  match v with
  | VStr s => s
  | VInt z => lit (NilEmpty.string_of_int (Z.to_int z))
  | VNone => lit "None"
  | VNaN => lit "nan"
  | VNaT => lit "NaT"
  | VNA => lit "<NA>"
  end.

(** An instance of [Exception], by the name of its class. *)
Definition exn := string.

(** How a call ends: it returns, it raises, or the step budget of the
    model ran out before it did either. *)
Inductive outcome (A : Type) : Type :=
| Ret (a : A)
| Raise (e : exn)
| OutOfFuel.

Arguments Ret {A} a.
Arguments Raise {A} e.
Arguments OutOfFuel {A}.

Definition bind (A B : Type) (m : outcome A) (f : A -> outcome B) : outcome B :=
  match m with
  | Ret a => f a
  | Raise e => Raise e
  | OutOfFuel => OutOfFuel
  end.

Notation "x <- m ;; f" := (bind m (fun x => f))
  (at level 61, m at next level, right associativity).

(** [try: body / except Exception as e: handler e] *)
Definition try_except (A : Type) (body : outcome A) (handler : exn -> outcome A)
    : outcome A :=
  match body with
  | Raise e => handler e
  | other => other
  end.

(** An entity of [doc.ents]: character offsets into the text given to
    the recognizer, and the label. *)
Record ent : Type := mk_ent {
  start_char : nat;
  end_char : nat;
  label_ : string
}.

(** [ent.text]: the characters the entity covers. *)
Definition ent_text (doc_text : str) (e : ent) : str :=
  skipn (start_char e) (firstn (end_char e) doc_text).

(** What a call of the loaded pipeline comes to: the entities of the
    document, or an exception. *)
Inductive reply : Type :=
| Doc (ents : list ent)
| Fails (e : exn).

(** The loaded pipeline, [nlp].  The call is taken to come back. *)
Definition recognizer := str -> reply.

(** [nlp(text)], then [doc.ents]. *)
Definition call (nlp : recognizer) (text : str) : outcome (list ent) :=
  match nlp text with
  | Doc ents => Ret ents
  | Fails e => Raise e
  end.

Definition MARKER : str := lit "***".

Definition str_in (s : str) (l : list string) : bool :=
  existsb (fun x => str_eqb s (lit x)) l.

Definition label_in (s : string) (l : list string) : bool :=
  existsb (String.eqb s) l.

(** The body of the [for ent in doc.ents] loop: the tuples to scrub. *)
Fixpoint collect_entities (doc_text : str) (ents : list ent)
    : list (nat * nat * string) :=
  match ents with
  | [] => []
  | e :: ents' =>
    if str_in (upper (ent_text doc_text e)) ["PII"; "DOB"]
       && label_in (label_ e) ["ORG"; "PERSON"; "PRODUCT"; "WORK_OF_ART"; "LAW"; "EVENT"]
    then collect_entities doc_text ents'
    else if label_in (label_ e) ["PERSON"; "ORG"; "GPE"; "LOC"]
    then (start_char e, end_char e, label_ e) :: collect_entities doc_text ents'
    else collect_entities doc_text ents'
  end.

Definition start_of (t : nat * nat * string) : nat := fst (fst t).
Definition end_of (t : nat * nat * string) : nat := snd (fst t).

(** [list.sort(reverse=True, key=lambda x: x[0])]: descending by start,
    stable (equal keys keep their order). *)
Fixpoint insert_desc (x : nat * nat * string) (l : list (nat * nat * string))
    : list (nat * nat * string) :=
  match l with
  | [] => [x]
  | y :: l' =>
    if (start_of y <=? start_of x)%nat then x :: y :: l' else y :: insert_desc x l'
  end.

Definition sort_desc (l : list (nat * nat * string)) : list (nat * nat * string) :=
  fold_right insert_desc [] l.

(** [text = text[:start] + "***" + text[end:]] *)
Definition scrub_span (text : str) (t : nat * nat * string) : str :=
  firstn (start_of t) text ++ MARKER ++ skipn (end_of t) text.

(** [for start, end, label in entities_to_scrub_tuples: ...] *)
Definition scrub_spans (text : str) (spans : list (nat * nat * string)) : str :=
  fold_left scrub_span spans text.

(** The body of the [try]. *)
Definition entity_stage (nlp : recognizer) (text : str) : outcome str :=
  ents <- call nlp text ;;
  Ret (scrub_spans text (sort_desc (collect_entities text ents))).

(** ** The shield and the restore loop *)

(** ["@@TEMP_CC_PLACEHOLDER_{}@@".format(idx)] *)
Definition placeholder (idx : nat) : str :=
  lit "@@TEMP_CC_PLACEHOLDER_" ++ str_of_nat idx ++ lit "@@".

Definition UNEXPECTED : str := lit "[UNEXPECTED_CC_PLACEHOLDER]".

(** The closure [cc_match_replacer]; its state is the list
    [cc_matches] it appends to. *)
Definition cc_match_replacer (cc_matches : list str) (group0 : str)
    : str * list str :=
  let cc_matches := cc_matches ++ [group0] in
  (placeholder (List.length cc_matches - 1), cc_matches).

Definition shield (text : str) : str * list str :=
  re_sub_fn TEMP_CREDIT_CARD_IGNORE_PATTERN cc_match_replacer [] text.

(** The [while True] loop; every iteration costs one unit of fuel. *)
Fixpoint restore_loop (fuel : nat) (cc_matches : list str) (text : str)
    (idx : nat) {struct fuel} : outcome str :=
  match fuel with
  | 0 => OutOfFuel
  | S fuel' =>
    let placeholder_to_find := placeholder idx in
    if contains placeholder_to_find text then
      let text :=
        if (idx <? List.length cc_matches)%nat
        then replace_one placeholder_to_find (nth idx cc_matches []) text
        else replace_one placeholder_to_find UNEXPECTED text in
      restore_loop fuel' cc_matches text (idx + 1)
    else Ret text
  end.

(** The nine substitutions, in the order of the source. *)
Definition apply_rules (text : str) : str :=
  let text := re_sub POSTAL_CODE_PATTERN MARKER text in
  let text := re_sub PASSPORT_PATTERN MARKER text in
  let text := re_sub SIN_PATTERN MARKER text in
  let text := re_sub PHONE_PATTERN_1 MARKER text in
  let text := re_sub PHONE_PATTERN_2 MARKER text in
  let text := re_sub EMAIL_PATTERN MARKER text in
  let text := re_sub DOB_PATTERN MARKER text in
  let text := re_sub PO_BOX_PATTERN MARKER text in
  let text := re_sub ADDRESS_PATTERN MARKER text in
  text.

(** ** [scrub_pii]

    [nlp] is the module's global: [None] when the model failed to
    load. *)
Definition scrub_pii (fuel : nat) (nlp : option recognizer) (text : value)
    : outcome value :=
  if isna text then Ret text
  else
    let text := str_of_value text in
    let (text, cc_matches) := shield text in
    let text := apply_rules text in
    text <- match nlp with
            | Some nlp => try_except (entity_stage nlp text) (fun _ => Ret text)
            | None => Ret text
            end ;;
    text <- restore_loop fuel cc_matches text 0 ;;
    Ret (VStr text).

(** ** Notions the statements below are written with *)

(** [text.find(needle)]: where the leftmost occurrence starts. *)
Fixpoint index_of (needle text : str) : option nat :=
  if starts_with needle text then Some 0
  else match text with
       | [] => None
       | _ :: t' => option_map S (index_of needle t')
       end.

(** [text.count(c)] for one character. *)
Definition count_char (c : ascii) (text : str) : nat :=
  List.length (filter (ascii_eqb c) text).

(** A text cut into gaps and matches: [(gap, match)] pairs from left to
    right, then the gap that is left. *)
Definition pieces := list (str * str).

Fixpoint pieces_text (segs : pieces) (tail : str) : str :=
  match segs with
  | [] => tail
  | (gap, m) :: segs' => gap ++ m ++ pieces_text segs' tail
  end.

(** The same text with every match replaced by what the callable
    answers, the callable's state threaded from left to right. *)
Fixpoint pieces_sub (St : Type) (repl : St -> str -> str * St) (st : St)
    (segs : pieces) (tail : str) : str * St :=
  match segs with
  | [] => (tail, st)
  | (gap, m) :: segs' =>
    let (new, st1) := repl st m in
    let (out, st2) := pieces_sub repl st1 segs' tail in
    (gap ++ new ++ out, st2)
  end.

(** The character before the cursor once [passed] has been read. *)
Definition prev_after (prev : option ascii) (passed : str) : option ascii :=
  match rev passed with
  | c :: _ => Some c
  | [] => prev
  end.

(** The cut is the scanner's: every match starts at the first place,
    from the end of the match before it, where the matcher finds one;
    no gap holds a place where it does. *)
Inductive leftmost (find : option ascii -> str -> bool -> option nat)
    : option ascii -> str -> pieces -> str -> Prop :=
| leftmost_done prev rest :
    (forall a b, rest = a ++ b -> find (prev_after prev a) b false = None) ->
    leftmost find prev rest [] rest
| leftmost_match prev rest gap m rest' segs tail :
    rest = gap ++ m ++ rest' ->
    (forall a b, gap = a ++ b -> b <> [] ->
       find (prev_after prev a) (b ++ m ++ rest') false = None) ->
    find (prev_after prev gap) (m ++ rest') false = Some (List.length m) ->
    m <> [] ->
    leftmost find (prev_after prev (gap ++ m)) rest' segs tail ->
    leftmost find prev rest ((gap, m) :: segs) tail.

(** The rule catalog, in the order [scrub_pii] runs it. *)
Definition rule_catalog : list re :=
  [POSTAL_CODE_PATTERN; PASSPORT_PATTERN; SIN_PATTERN; PHONE_PATTERN_1;
   PHONE_PATTERN_2; EMAIL_PATTERN; DOB_PATTERN; PO_BOX_PATTERN; ADDRESS_PATTERN].

(** The marker every placeholder token starts with. *)
Definition PLACEHOLDER_HEAD : str := lit "@@TEMP_CC_PLACEHOLDER_".

(** Ascending by start. *)
Fixpoint insert_asc (x : nat * nat * string) (l : list (nat * nat * string))
    : list (nat * nat * string) :=
  match l with
  | [] => [x]
  | y :: l' =>
    if (start_of x <=? start_of y)%nat then x :: y :: l' else y :: insert_asc x l'
  end.

Definition sort_asc (l : list (nat * nat * string)) : list (nat * nat * string) :=
  fold_right insert_asc [] l.

(** The reference construction of the specification: copy the untouched
    segments between the sorted cut points, a marker at every cut. *)
Fixpoint splice_from (text : str) (pos : nat) (cuts : list (nat * nat * string))
    : str :=
  match cuts with
  | [] => skipn pos text
  | t :: cuts' =>
    skipn pos (firstn (start_of t) text) ++ MARKER
      ++ splice_from text (end_of t) cuts'
  end.

Definition splice (text : str) (spans : list (nat * nat * string)) : str :=
  splice_from text 0 (sort_asc spans).

(** A span of the buffer: not empty, inside the text. *)
Definition span_in (text : str) (t : nat * nat * string) : bool :=
  (start_of t <? end_of t)%nat && (end_of t <=? List.length text)%nat.

Definition disjoint (a b : nat * nat * string) : bool :=
  (end_of a <=? start_of b)%nat || (end_of b <=? start_of a)%nat.

Fixpoint pairwise_disjoint (l : list (nat * nat * string)) : bool :=
  match l with
  | [] => true
  | a :: l' => forallb (disjoint a) l' && pairwise_disjoint l'
  end.

(** Spans as a recognizer computes them against one buffer. *)
Definition spans_ok (text : str) (l : list (nat * nat * string)) : bool :=
  forallb (span_in text) l && pairwise_disjoint l.

(** No span touches the range [lo, hi). *)
Definition spans_avoid (lo hi : nat) (l : list (nat * nat * string)) : bool :=
  forallb (fun t => (end_of t <=? lo)%nat || (hi <=? start_of t)%nat) l.

(** Cut points in order: each span starts at or after [pos], is not
    empty, ends inside the text, and the next one starts at or after
    its end. *)
Fixpoint chain (text : str) (pos : nat) (l : list (nat * nat * string)) : Prop :=
  match l with
  | [] => pos <= List.length text
  | t :: l' =>
    pos <= start_of t /\ start_of t < end_of t /\ end_of t <= List.length text
    /\ chain text (end_of t) l'
  end.

(** The recognizer, if there is one, returns well-formed spans that
    leave the range [lo, hi) of the text alone, or raises. *)
Definition recognizer_spares (nlp : option recognizer) (text : str)
    (lo hi : nat) : Prop :=
  match nlp with
  | None => True
  | Some f =>
    match f text with
    | Doc ents =>
      spans_ok text (collect_entities text ents) = true /\
      spans_avoid lo hi (collect_entities text ents) = true
    | Fails _ => True
    end
  end.

Definition no_at (c : ascii) : Prop := c <> "@"%char.

(** The text the restore loop of [scrub_pii] starts from. *)
Definition before_restore (nlp : option recognizer) (text : str) : str :=
  let rules := apply_rules (fst (shield text)) in
  match nlp with
  | Some f =>
    match f rules with
    | Doc ents => scrub_spans rules (sort_desc (collect_entities rules ents))
    | Fails _ => rules
    end
  | None => rules
  end.

(** The least number of characters a pattern reads. *)
Fixpoint min_len (r : re) : nat :=
  match r with
  | Eps | Bound => 0
  | Atom _ => 1
  | Cat r1 r2 => min_len r1 + min_len r2
  | Or r1 r2 => Nat.min (min_len r1) (min_len r2)
  | Opt _ => 0
  | Rep _ lo _ => lo
  end.

(** The characters a pattern can read. *)
Fixpoint may_read (ic : bool) (r : re) (c : ascii) : bool :=
  match r with
  | Eps | Bound => false
  | Atom a => atom_match ic a c
  | Cat r1 r2 | Or r1 r2 => may_read ic r1 c || may_read ic r2 c
  | Opt r1 => may_read ic r1 c
  | Rep a _ _ => atom_match ic a c
  end.

(** Two continuations that agree up to the case of what they are
    given. *)
Definition same_upto_case (k k' : kont) : Prop :=
  forall p s m, k' (option_map upper_char p) (upper s) m = k p s m.

Definition card_char (c : ascii) : bool :=
  is_digit c || ascii_eqb c " "%char || ascii_eqb c "-"%char.

(** What a successful attempt comes from: the continuation, called
    after [j] characters the pattern can read. *)
Definition reads (ic : bool) (r : re) (prev : option ascii) (rest : str) (n : nat)
    (k : kont) (res : nat) : Prop :=
  exists j,
    min_len r <= j /\ j <= List.length rest /\
    forallb (may_read ic r) (firstn j rest) = true /\
    k (prev_after prev (firstn j rest)) (skipn j rest) (n + j) = Some res.

(** ** Inputs the examples run on *)

Definition marker_text : str := lit "@@TEMP_CC_PLACEHOLDER_0@@".

Definition two_cards : str := lit "pay 1234-5678-9012-3456 or 9876543210987654 now".

Definition two_card_text : str := lit "A 1111222233334444 B 5555666677778888".

(** A recognizer that labels the stretch holding the first token. *)
Definition eats_first_token : recognizer :=
  fun _ => Doc [mk_ent 2 27 "PERSON"].

Definition one_piece : pieces := [(lit "a ", lit "1111222233334444")].
Definition later_token : str := lit " b *** c @@TEMP_CC_PLACEHOLDER_2@@".

Definition stray_token : str := lit "x @@TEMP_CC_PLACEHOLDER_1@@ y @@TEMP_CC_PLACEHOLDER_1@@".

Definition greeting : str := lit "Dear John Doe, welcome to Berlin, bye.".

Definition card_text : str := lit "My Card is 1234-5678-9012-3456, thanks.".
Definition card : str := lit "1234-5678-9012-3456".
Definition card_shielded : str := lit "My Card is @@TEMP_CC_PLACEHOLDER_0@@, thanks.".

(** A recognizer that labels the token itself. *)
Definition labels_token : recognizer :=
  fun _ => Doc [mk_ent 11 36 "ORG"].

(** A recognizer that labels "Card" and "thanks". *)
Definition labels_words : recognizer :=
  fun _ => Doc [mk_ent 38 44 "PERSON"; mk_ent 3 7 "ORG"].

Definition always_fails : recognizer := fun _ => Fails "ValueError".

Definition help_text : str := lit "Contact support@example.com about card 4444333322221111.".

(** A hundred and one card numbers, then two groups of three digits. *)
Definition many_cards : str :=
  List.concat (repeat (lit "4444333322221111 ") 101) ++ lit "123 456".

(** [scrub_pii] on a string, no recognizer loaded. *)
Definition scrub_text (s : string) : outcome value :=
  scrub_pii 8 None (VStr (lit s)).

Definition gives (s : string) : outcome value := Ret (VStr (lit s)).

(** ** Tactics *)

Ltac both_runs IH k :=
  let E1 := fresh "E" in
  let E2 := fresh "E" in
  specialize (IH k);
  match type of IH with
  | fst ?X = map upper_char (fst ?Y) =>
    destruct X as [? ?] eqn:E1; destruct Y as [? ?] eqn:E2;
    cbn [fst] in IH |- *; subst
  end.

(** * The copy of [scrub_pii] in test_scrubbing.py

    The test file does not import the module: it holds its own copy of
    the patterns and of [scrub_pii].  The copy keeps the entities
    themselves, and rewrites them in the reverse of the order the
    recognizer gave them, without sorting; its handler prints the
    exception, which changes nothing of what is returned. *)

Module TestScrubbing.

Definition POSTAL_CODE_PATTERN : re := Eval vm_compute in re_compile
  "[A-Za-z]\s*\d\s*[A-Za-z]\s*[ -]?\s*\d\s*[A-Za-z]\s*\d".
Definition PASSPORT_PATTERN : re := Eval vm_compute in re_compile
  "\b([A-Za-z]{2}\s*\d{6})\b".
Definition SIN_PATTERN : re := Eval vm_compute in re_compile
  "(\d{3}\s*\d{3}\s*\d{3}|\d{3}\D*\d{3}\D*\d{3})".
Definition PHONE_PATTERN_1 : re := Eval vm_compute in re_compile
  "(\+\d{1,2}\s?)?1?\-?\.\s?\(?\d{3}\)?[\s.-]?\d{3}[\s.-]?\d{4}".
Definition PHONE_PATTERN_2 : re := Eval vm_compute in re_compile
  "(?:(?:\+?1\s*(?:[.-]\s*)?)?(?:\(\s*([2-9]1[02-9]|[2-9][02-8]1|[2-9][02-8][02-9])\s*\)|([2-9]1[02-9]|[2-9][02-8]1|[2-9][02-8][02-9]))\s*(?:[.-]\s*)?)?([2-9]1[02-9]|[2-9][02-9]1|[2-9][02-9]{2})\s*(?:[.-]\s*)?([0-9]{4})(?:\s*(?:#|x\.?|ext\.?|extension)\s*(\d+))?".
Definition EMAIL_PATTERN : re := Eval vm_compute in re_compile
  "([a-zA-Z0-9_\-\.]+)\s*@([\sa-zA-Z0-9_\-\.]+)[\.\,]([a-zA-Z]{1,5})".
Definition DOB_PATTERN : re := Eval vm_compute in re_compile
  "\b(\d{1,2}[-/.]\d{1,2}[-/.]\d{2,4}|\d{4}[-/.]\d{1,2}[-/.]\d{1,2})\b".
Definition PO_BOX_PATTERN : re := Eval vm_compute in re_compile
  "\b(?:P(?:ost(?:al)?)?\.?\s*O(?:ffice)?\.?\s*Box|General Delivery)\s+\d+\b".
Definition ADDRESS_PATTERN : re := Eval vm_compute in re_compile
  "\b[A-Za-z0-9]+\s+[A-Za-z0-9\s.-]+\s+(?:Street|St|Avenue|Ave|Road|Rd|Lane|Ln|Drive|Dr|Boulevard|Blvd|Crescent|Cres|Court|Ct)\b".
Definition TEMP_CREDIT_CARD_IGNORE_PATTERN : re := Eval vm_compute in re_compile
  "\b(?:\d{4}[ -]?\d{4}[ -]?\d{4}[ -]?\d{1,4}|\d{13,16})\b".

(** [f"@@TEMP_CC_PLACEHOLDER_{len(cc_matches)-1}@@"] *)
Definition cc_match_replacer (cc_matches : list str) (group0 : str)
    : str * list str :=
  let cc_matches := cc_matches ++ [group0] in
  (lit "@@TEMP_CC_PLACEHOLDER_" ++ str_of_nat (List.length cc_matches - 1)
     ++ lit "@@", cc_matches).

(** The [for ent in doc.ents] loop: the entities to scrub. *)
Fixpoint ents_to_scrub (doc_text : str) (ents : list ent) : list ent :=
  match ents with
  | [] => []
  | e :: ents' =>
    if str_in (upper (ent_text doc_text e)) ["PII"; "DOB"]
       && label_in (label_ e) ["ORG"; "PERSON"; "PRODUCT"; "WORK_OF_ART"; "LAW"; "EVENT"]
    then ents_to_scrub doc_text ents'
    else if label_in (label_ e) ["PERSON"; "ORG"; "GPE"; "LOC"]
    then e :: ents_to_scrub doc_text ents'
    else ents_to_scrub doc_text ents'
  end.

(** [text = text[:ent.start_char] + "***" + text[ent.end_char:]] *)
Definition scrub_ent (text : str) (e : ent) : str :=
  firstn (start_char e) text ++ lit "***" ++ skipn (end_char e) text.

(** The body of the [try]: [for ent in reversed(ents_to_scrub)]. *)
Definition entity_stage (nlp : recognizer) (text : str) : outcome str :=
  ents <- call nlp text ;;
  Ret (fold_left scrub_ent (rev (ents_to_scrub text ents)) text).

Fixpoint restore_loop (fuel : nat) (cc_matches : list str) (text : str)
    (idx : nat) {struct fuel} : outcome str :=
  match fuel with
  | 0 => OutOfFuel
  | S fuel' =>
    let placeholder_to_find :=
      lit "@@TEMP_CC_PLACEHOLDER_" ++ str_of_nat idx ++ lit "@@" in
    if contains placeholder_to_find text then
      let text :=
        if (idx <? List.length cc_matches)%nat
        then replace_one placeholder_to_find (nth idx cc_matches []) text
        else replace_one placeholder_to_find (lit "[UNEXPECTED_CC_PLACEHOLDER]") text in
      restore_loop fuel' cc_matches text (idx + 1)
    else Ret text
  end.

Definition scrub_pii (fuel : nat) (nlp : option recognizer) (text : value)
    : outcome value :=
  if isna text then Ret text
  else
    let text := str_of_value text in
    let (text, cc_matches) :=
      re_sub_fn TEMP_CREDIT_CARD_IGNORE_PATTERN cc_match_replacer [] text in
    let text := re_sub POSTAL_CODE_PATTERN (lit "***") text in
    let text := re_sub PASSPORT_PATTERN (lit "***") text in
    let text := re_sub SIN_PATTERN (lit "***") text in
    let text := re_sub PHONE_PATTERN_1 (lit "***") text in
    let text := re_sub PHONE_PATTERN_2 (lit "***") text in
    let text := re_sub EMAIL_PATTERN (lit "***") text in
    let text := re_sub DOB_PATTERN (lit "***") text in
    let text := re_sub PO_BOX_PATTERN (lit "***") text in
    let text := re_sub ADDRESS_PATTERN (lit "***") text in
    text <- match nlp with
            | Some nlp => try_except (entity_stage nlp text) (fun _ => Ret text)
            | None => Ret text
            end ;;
    text <- restore_loop fuel cc_matches text 0 ;;
    Ret (VStr text).

End TestScrubbing.

(** The entities the recognizer reports on the text [scrub_pii] gives
    it, those the filter keeps, start strictly before one another, in
    the order reported. *)
Fixpoint ascending_starts (l : list (nat * nat * string)) : bool :=
  match l with
  | [] => true
  | a :: l' => forallb (fun b => (start_of a <? start_of b)%nat) l' && ascending_starts l'
  end.

Definition in_document_order (nlp : option recognizer) (v : value) : bool :=
  match nlp with
  | None => true
  | Some f =>
    let text := apply_rules (fst (shield (str_of_value v))) in
    match f text with
    | Doc ents => ascending_starts (collect_entities text ents)
    | Fails _ => true
    end
  end.

(** A recognizer that reports the later entity first. *)
Definition later_first : recognizer :=
  fun _ => Doc [mk_ent 9 15 "GPE"; mk_ent 0 4 "PERSON"].

Definition visit_text : str := lit "Anna met Berlin.".

(** A recognizer that labels "Card" and then "thanks". *)
Definition words_in_order : recognizer :=
  fun _ => Doc [mk_ent 3 7 "ORG"; mk_ent 38 44 "PERSON"].

(** ** Notions for the further properties *)

(** A function on texts that leaves its text as it is, or writes the
    marker and gives a text shorter by two characters at least. *)
Definition marks (f : str -> str) : Prop :=
  forall x,
    f x = x \/
    (contains MARKER (f x) = true /\ List.length (f x) + 2 <= List.length x).

(** The text the shield writes for a cut: the gaps as they are, the
    token of index [k] for the first match, [k + 1] for the next. *)
Fixpoint numbered (k : nat) (segs : pieces) (tail : str) : str :=
  match segs with
  | [] => tail
  | (gap, m) :: segs' => gap ++ placeholder k ++ numbered (S k) segs' tail
  end.

(** [sum(1 for c in text if q(c))] *)
Definition count_of (q : ascii -> bool) (text : str) : nat :=
  List.length (filter q text).

(** The 256 characters. *)
Definition all_ascii : list ascii := map ascii_of_nat (List.seq 0 256).

(** Every character the atom accepts is a [q]. *)
Definition atom_within (ic : bool) (q : ascii -> bool) (a : atom) : bool :=
  forallb (fun c => implb (atom_match ic a c) (q c)) all_ascii.

(** The least number of [q] characters in what a pattern reads. *)
Fixpoint min_count (ic : bool) (q : ascii -> bool) (r : re) : nat :=
  match r with
  | Eps | Bound => 0
  | Atom a => if atom_within ic q a then 1 else 0
  | Cat r1 r2 => min_count ic q r1 + min_count ic q r2
  | Or r1 r2 => Nat.min (min_count ic q r1) (min_count ic q r2)
  | Opt _ => 0
  | Rep a lo _ => if atom_within ic q a then lo else 0
  end.

(** What a successful attempt comes from, counting the [q] characters:
    the continuation, called after [j] characters that hold as many
    [q] as the pattern asks. *)
Definition counted (ic : bool) (q : ascii -> bool) (r : re) (prev : option ascii)
    (rest : str) (n : nat) (k : kont) (res : nat) : Prop :=
  exists j,
    j <= List.length rest /\
    min_count ic q r <= count_of q (firstn j rest) /\
    k (prev_after prev (firstn j rest)) (skipn j rest) (n + j) = Some res.

(** The recognizer, if there is one, raises on the text or reports no
    entity the filter keeps. *)
Definition no_entities (nlp : option recognizer) (text : str) : bool :=
  match nlp with
  | None => true
  | Some f =>
    match f text with
    | Doc ents =>
      match collect_entities text ents with [] => true | _ :: _ => false end
    | Fails _ => true
    end
  end.

(** [df['UserQuestion'].apply(scrub_pii)]: the function on every cell,
    from the first row down; an exception at a cell ends the call. *)
Fixpoint apply_cells (f : value -> outcome value) (col : list value)
    : outcome (list value) :=
  match col with
  | [] => Ret []
  | v :: col' =>
    x <- f v ;;
    xs <- apply_cells f col' ;;
    Ret (x :: xs)
  end.

Definition scrub_column (fuel : nat) (nlp : option recognizer) (col : list value)
    : outcome (list value) :=
  apply_cells (scrub_pii fuel nlp) col.

(** A cell of the scrubbed column against the cell it comes from. *)
Definition scrubbed_cell (v out : value) : Prop :=
  if isna v then out = v else exists s, out = VStr s.

Definition mixed_column : list value :=
  [VStr card_text; VNaN; VInt 42; VStr (lit "mail bob@example.com"); VNone].

(** ** [generate_session_colors] and the fill of the SessionId column

    The column [df['SessionId']] is the list of its cells, from the
    first data row down. *)

Definition colors : list str :=
  map lit ["#FFB6C1"; "#98FB98"; "#87CEEB"; "#DDA0DD"; "#F0E68C";
           "#FFA07A"; "#20B2AA"; "#B0C4DE"; "#FAFAD2"; "#D8BFD8"].

(** [colors[i % len(colors)]] *)
Definition color_at (i : nat) : str := nth (i mod List.length colors) colors [].

(** A key of the dict against the value looked up.  A missing value is
    equal to no key. *)
Definition same_key (a b : value) : bool :=
  match a, b with
  | VInt x, VInt y => (x =? y)%Z
  | VStr s, VStr t => str_eqb s t
  | _, _ => false
  end.

(** A dict, in insertion order. *)
Definition dict := list (value * str).

(** [d[k] = c] *)
Fixpoint dict_set (d : dict) (k : value) (c : str) : dict :=
  match d with
  | [] => [(k, c)]
  | (k', c') :: d' =>
    if same_key k' k then (k', c) :: d' else (k', c') :: dict_set d' k c
  end.

(** [d[k]], when [k in d]. *)
Fixpoint dict_get (d : dict) (k : value) : option str :=
  match d with
  | [] => None
  | (k', c') :: d' => if same_key k' k then Some c' else dict_get d' k
  end.

(** How many cells of the column hold the value. *)
Definition occurrences (v : value) (col : list value) : nat :=
  List.length (filter (same_key v) col).

(** What is taken of [Series.value_counts()]: one entry for every
    value of the column that is not missing, with the number of cells
    that hold it.  Nothing is taken of the order of the entries. *)
Definition counts_values (value_counts : list value -> list (value * nat))
    : Prop :=
  forall col,
    NoDup (map fst (value_counts col)) /\
    forall v n,
      In (v, n) (value_counts col) <->
      isna v = false /\ 0 < n /\ n = occurrences v col.

(** [session_counts[session_counts > 1].index] *)
Definition duplicate_sessions (session_counts : list (value * nat)) : list value :=
  map fst (filter (fun p => (1 <? snd p)%nat) session_counts).

(** [for i, session in enumerate(duplicate_sessions):
       session_colors[session] = colors[i % len(colors)]] *)
Fixpoint assign_colors (i : nat) (sessions : list value) (session_colors : dict)
    : dict :=
  match sessions with
  | [] => session_colors
  | session :: sessions' =>
    assign_colors (S i) sessions' (dict_set session_colors session (color_at i))
  end.

Section Sessions.

Variable value_counts : list value -> list (value * nat).

Definition generate_session_colors (session_ids : list value) : dict :=
  let session_counts := value_counts session_ids in
  assign_colors 0 (duplicate_sessions session_counts) [].

End Sessions.

(** [PatternFill(start_color=..., end_color=..., fill_type=...)] *)
Record pattern_fill : Type := mk_fill {
  start_color : str;
  end_color : str;
  fill_type : string
}.

(** [s.replace(c, '')] *)
Definition remove_char (c : ascii) (s : str) : str :=
  filter (fun x => negb (ascii_eqb c x)) s.

(** [for idx, col in enumerate(df.columns, idx): if col == 'SessionId': ...] *)
Fixpoint find_session_col (columns : list string) (idx : nat) : option nat :=
  match columns with
  | [] => None
  | col :: columns' =>
    if String.eqb col "SessionId" then Some idx
    else find_session_col columns' (S idx)
  end.

(** [for row_idx, session_id in enumerate(df['SessionId'], row_idx): ...]:
    the cells that get a fill, as (row, column, fill). *)
Fixpoint fill_rows (session_col row_idx : nat) (session_ids : list value)
    (session_colors : dict) : list (nat * nat * pattern_fill) :=
  match session_ids with
  | [] => []
  | session_id :: rest =>
    match dict_get session_colors session_id with
    | Some color =>
      (row_idx, session_col,
       mk_fill (remove_char "#" color) (remove_char "#" color) "solid")
        :: fill_rows session_col (S row_idx) rest session_colors
    | None => fill_rows session_col (S row_idx) rest session_colors
    end
  end.

(** The colour coding of [process_excel_file]: the column is looked
    for from index 1, the rows are counted from 2, after the header. *)
Definition color_sessions (columns : list string) (session_ids : list value)
    (session_colors : dict) : list (nat * nat * pattern_fill) :=
  match find_session_col columns 1 with
  | Some (S c) => fill_rows (S c) 2 session_ids session_colors
  | _ => []
  end.

(** One function that counts values: the values in the order they
    first appear, then sorted by count, the greatest first, equal
    counts left in that order. *)
Fixpoint distinct (col : list value) : list value :=
  match col with
  | [] => []
  | v :: col' => v :: filter (fun x => negb (same_key v x)) (distinct col')
  end.

Fixpoint insert_count (x : value * nat) (l : list (value * nat))
    : list (value * nat) :=
  match l with
  | [] => [x]
  | y :: l' =>
    if (snd y <=? snd x)%nat then x :: y :: l' else y :: insert_count x l'
  end.

Definition value_counts_stable (col : list value) : list (value * nat) :=
  fold_right insert_count []
    (map (fun v => (v, occurrences v col))
       (distinct (filter (fun v => negb (isna v)) col))).

(** Six cells, two sessions that come back. *)
Definition session_column : list value :=
  [VStr (lit "a1"); VStr (lit "b2"); VStr (lit "a1"); VNaN;
   VStr (lit "c3"); VStr (lit "b2")].

Definition sheet_columns : list string :=
  ["Date"; "SessionId"; "UserQuestion"].

(** Eleven sessions, each in two cells. *)
Definition eleven_sessions : list value :=
  map (fun i => VInt (Z.of_nat (i mod 11))) (List.seq 0 22).

(** The spans of one start, in the order the list has them. *)
Definition starting_at (k : nat) (l : list (nat * nat * string))
    : list (nat * nat * string) :=
  filter (fun t => (start_of t =? k)%nat) l.

(** A recognizer that reports three entities out of order, two of
    them from the same offset. *)
Definition out_of_order : recognizer :=
  fun _ => Doc [mk_ent 5 9 "PERSON"; mk_ent 26 32 "GPE"; mk_ent 5 13 "ORG"].

(** ** The width of a column

    [for cell in column: if len(str(cell.value)) > max_length: ...],
    then [min(max_length + 2, 50)].  A column is the list of the
    values of its cells, the header first. *)
Definition longest_cell (column : list value) : nat :=
  fold_left
    (fun max_length cell =>
       if (max_length <? List.length (str_of_value cell))%nat
       then List.length (str_of_value cell)
       else max_length)
    column 0.

Definition adjusted_width (column : list value) : nat :=
  Nat.min (longest_cell column + 2) 50.

(** ** [clean_html], [process_excel_file] and the main block

    A table is the list of its columns, each a name and its cells, in
    the order of [df.columns].  What the libraries do is taken as
    given: reading the workbook, parsing HTML, the satisfaction
    statistics (which print, and build [summary_data]), and the
    writer.  Each either returns or raises.  The names of the
    columns of a table that was read differ from one another
    ([read_excel] renames a header that comes again). *)
Definition frame := list (string * list value).

(** [df[name]], when [name in df.columns]. *)
Fixpoint frame_get (df : frame) (name : string) : option (list value) :=
  match df with
  | [] => None
  | (n, col) :: df' => if String.eqb n name then Some col else frame_get df' name
  end.

(** [df[name] = col]: in place when the column is there, a new last
    column when not. *)
Fixpoint frame_set (df : frame) (name : string) (col : list value) : frame :=
  match df with
  | [] => [(name, col)]
  | (n, c) :: df' =>
    if String.eqb n name then (n, col) :: df' else (n, c) :: frame_set df' name col
  end.

(** A library call: it raises or it returns. *)
Definition library (A : Type) (r : exn + A) : outcome A :=
  match r with
  | inl e => Raise e
  | inr a => Ret a
  end.

Section Process.

(** [BeautifulSoup(s, 'html.parser').get_text()] *)
Variable get_text : str -> exn + str.
(** [pd.read_excel(input_file)] *)
Variable read_excel : exn + frame.
(** The statistics block: [summary_data], if any. *)
Variable satisfaction_summary : frame -> exn + option frame.
(** The [with pd.ExcelWriter(...)] block, given the table, the
    summary and the cells to fill. *)
Variable write_workbook :
  frame -> option frame -> list (nat * nat * pattern_fill) -> exn + unit.
Variable value_counts : list value -> list (value * nat).
Variable nlp : option recognizer.

Definition clean_html (text : value) : outcome value :=
  if isna text then Ret text
  else
    soup <- library (get_text (str_of_value text)) ;;
    Ret (VStr soup).

(** The two columns [process_excel_file] adds. *)
Definition add_columns (fuel : nat) (df : frame) : outcome frame :=
  df <- match frame_get df "RawAnswer.Answer" with
        | Some col =>
          cleaned <- apply_cells clean_html col ;;
          Ret (frame_set df "RawAnswer.Answer_Cleaned" cleaned)
        | None => Ret df
        end ;;
  match frame_get df "UserQuestion" with
  | Some col =>
    scrubbed <- scrub_column fuel nlp col ;;
    Ret (frame_set df "UserQuestion_Scrubbed" scrubbed)
  | None => Ret df
  end.

(** [generate_session_colors(df)]: [df['SessionId']] raises
    [KeyError] when there is no such column. *)
Definition session_colors_of (df : frame) : outcome dict :=
  match frame_get df "SessionId" with
  | Some session_ids => Ret (generate_session_colors value_counts session_ids)
  | None => Raise "KeyError"
  end.

Definition process_excel_file (fuel : nat) : outcome unit :=
  df <- library read_excel ;;
  df <- add_columns fuel df ;;
  summary_data <- library (satisfaction_summary df) ;;
  session_colors <- session_colors_of df ;;
  let fills :=
    match frame_get df "SessionId" with
    | Some session_ids => color_sessions (map fst df) session_ids session_colors
    | None => []
    end in
  library (write_workbook df summary_data fills).

(** The main block: the exit status.  [sys.exit(1)] after any
    exception of [process_excel_file]. *)
Definition main (fuel : nat) : outcome nat :=
  match process_excel_file fuel with
  | Ret _ => Ret 0
  | Raise _ => Ret 1
  | OutOfFuel => OutOfFuel
  end.

End Process.

(** A table with a question column and no session column. *)
Definition questions_only : frame :=
  [("Date", [VStr (lit "2024-01-05"); VStr (lit "2024-01-06")]);
   ("UserQuestion", [VStr (lit "mail bob@example.com"); VNaN])].

(** Stand-ins for the libraries: text is returned as it is, there is
    no summary, the writer returns. *)
Definition plain_get_text : str -> exn + str := fun s => inr s.
Definition no_summary : frame -> exn + option frame := fun _ => inr None.
Definition writer_returns
    : frame -> option frame -> list (nat * nat * pattern_fill) -> exn + unit :=
  fun _ _ _ => inr tt.

(** * Properties *)

(** ** Characters and text *)

Lemma ascii_eqb_eq (a b : ascii) : ascii_eqb a b = true <-> a = b.
Proof.
  unfold ascii_eqb, code. rewrite N.eqb_eq. split.
  - intro H. rewrite <- (ascii_N_embedding a), <- (ascii_N_embedding b).
    now rewrite H.
  - now intros ->.
Qed.

Lemma ascii_eqb_refl (a : ascii) : ascii_eqb a a = true.
Proof. now apply ascii_eqb_eq. Qed.

Lemma ascii_eqb_neq (a b : ascii) : ascii_eqb a b = false <-> a <> b.
Proof.
  rewrite <- ascii_eqb_eq. destruct (ascii_eqb a b); split; congruence.
Qed.

Lemma starts_with_app (needle rest : str) : starts_with needle (needle ++ rest) = true.
Proof.
  induction needle as [|c needle IH]; simpl; [reflexivity|].
  now rewrite ascii_eqb_refl.
Qed.

Lemma starts_with_split (needle text : str) :
  starts_with needle text = true -> text = needle ++ skipn (List.length needle) text.
Proof.
  revert text. induction needle as [|c needle IH]; intros [|d text]; simpl; try easy.
  intro H. apply andb_true_iff in H as [Hc Ht].
  apply ascii_eqb_eq in Hc. subst d. f_equal. now apply IH.
Qed.

Lemma starts_with_iff (needle text : str) :
  starts_with needle text = true <-> exists rest, text = needle ++ rest.
Proof.
  split.
  - intro H. eexists. now apply starts_with_split.
  - intros [rest ->]. apply starts_with_app.
Qed.

Lemma contains_unfold (needle text : str) :
  contains needle text =
  starts_with needle text || match text with [] => false | _ :: t' => contains needle t' end.
Proof. now destruct text. Qed.

Lemma index_of_unfold (needle text : str) :
  index_of needle text =
  if starts_with needle text then Some 0
  else match text with [] => None | _ :: t' => option_map S (index_of needle t') end.
Proof. now destruct text. Qed.

Lemma contains_iff (needle text : str) :
  contains needle text = true <-> exists a b, text = a ++ needle ++ b.
Proof.
  split.
  - induction text as [|c text IH]; simpl; rewrite orb_true_iff.
    + intros [H|H]; [|discriminate].
      apply starts_with_iff in H as [rest ->]. now exists [], rest.
    + intros [H|H].
      * apply starts_with_iff in H as [rest ->]. now exists [], rest.
      * destruct (IH H) as (a & b & ->). now exists (c :: a), b.
  - intros (a & b & ->). induction a as [|c a IH]; simpl.
    + rewrite contains_unfold, starts_with_app. reflexivity.
    + now rewrite IH, orb_true_r.
Qed.

Lemma contains_app_l (needle a b : str) :
  contains needle a = true -> contains needle (a ++ b) = true.
Proof.
  rewrite !contains_iff. intros (x & y & ->). exists x, (y ++ b).
  now rewrite <- !app_assoc.
Qed.

Lemma contains_app_r (needle a b : str) :
  contains needle b = true -> contains needle (a ++ b) = true.
Proof.
  rewrite !contains_iff. intros (x & y & ->). exists (a ++ x), y.
  now rewrite <- !app_assoc.
Qed.

Lemma contains_In (needle text : str) (c : ascii) :
  contains needle text = true -> In c needle -> In c text.
Proof.
  rewrite contains_iff. intros (a & b & ->) H.
  apply in_or_app. right. apply in_or_app. now left.
Qed.

Lemma index_of_contains (needle text : str) :
  contains needle text = match index_of needle text with Some _ => true | None => false end.
Proof.
  induction text as [|c text IH]; simpl.
  - now destruct (starts_with needle []).
  - destruct (starts_with needle (c :: text)); [reflexivity|]. simpl.
    rewrite IH. now destruct (index_of needle text).
Qed.

Lemma replace_one_index (old new text : str) :
  replace_one old new text =
  match index_of old text with
  | Some i => firstn i text ++ new ++ skipn (i + List.length old) text
  | None => text
  end.
Proof.
  induction text as [|c text IH]; simpl.
  - now destruct (starts_with old []).
  - destruct (starts_with old (c :: text)); [reflexivity|].
    rewrite IH. now destruct (index_of old text).
Qed.

Lemma index_of_here (needle rest : str) : index_of needle (needle ++ rest) = Some 0.
Proof. now rewrite index_of_unfold, starts_with_app. Qed.

(** ** The patterns as parsed *)

Lemma POSTAL_CODE_PATTERN_parsed :
  POSTAL_CODE_PATTERN =
  seq [Atom letter; star Whitespace; Atom Digit; star Whitespace; Atom letter;
       star Whitespace; maybe space_or_hyphen; star Whitespace; Atom Digit;
       star Whitespace; Atom letter; star Whitespace; Atom Digit].
Proof. reflexivity. Qed.

Lemma PASSPORT_PATTERN_parsed :
  PASSPORT_PATTERN =
  seq [Bound; seq [times 2 letter; star Whitespace; times 6 Digit]; Bound].
Proof. reflexivity. Qed.

Lemma SIN_PATTERN_parsed :
  SIN_PATTERN =
  alt [seq [times 3 Digit; star Whitespace; times 3 Digit; star Whitespace;
            times 3 Digit];
       seq [times 3 Digit; star NonDigit; times 3 Digit; star NonDigit;
            times 3 Digit]].
Proof. reflexivity. Qed.

Lemma PHONE_PATTERN_1_parsed :
  PHONE_PATTERN_1 =
  seq [Opt (seq [Atom (chr "+"); upto 1 2 Digit; maybe Whitespace]);
       maybe (chr "1"); maybe (chr "-"); Atom (chr "."); maybe Whitespace;
       maybe (chr "("); times 3 Digit; maybe (chr ")"); maybe space_dot_hyphen;
       times 3 Digit; maybe space_dot_hyphen; times 4 Digit].
Proof. reflexivity. Qed.

Lemma PHONE_PATTERN_2_parsed :
  PHONE_PATTERN_2 =
  seq [Opt (seq [Opt (seq [maybe (chr "+"); Atom (chr "1"); star Whitespace; sep]);
                 alt [seq [Atom (chr "("); star Whitespace; area_code;
                           star Whitespace; Atom (chr ")")];
                      area_code];
                 star Whitespace; sep]);
       exchange; star Whitespace; sep; times 4 d09;
       Opt (seq [star Whitespace;
                 alt [Atom (chr "#");
                      seq [Atom (chr "x"); maybe (chr ".")];
                      word_then "ext" (maybe (chr "."));
                      word "extension"];
                 star Whitespace; plus Digit])].
Proof. reflexivity. Qed.

Lemma EMAIL_PATTERN_parsed :
  EMAIL_PATTERN =
  seq [plus (Cls [range "a" "z"; range "A" "Z"; range "0" "9"; one "_";
                  one "-"; one "."]);
       star Whitespace; Atom (chr "@");
       plus (Cls [ISpace; range "a" "z"; range "A" "Z"; range "0" "9";
                  one "_"; one "-"; one "."]);
       Atom (Cls [one "."; one ","]);
       upto 1 5 (Cls [range "a" "z"; range "A" "Z"])].
Proof. reflexivity. Qed.

Lemma DOB_PATTERN_parsed :
  DOB_PATTERN =
  seq [Bound;
       alt [seq [upto 1 2 Digit; Atom date_sep; upto 1 2 Digit; Atom date_sep;
                 upto 2 4 Digit];
            seq [times 4 Digit; Atom date_sep; upto 1 2 Digit; Atom date_sep;
                 upto 1 2 Digit]];
       Bound].
Proof. reflexivity. Qed.

Lemma PO_BOX_PATTERN_parsed :
  PO_BOX_PATTERN =
  seq [Bound;
       alt [seq [Atom (chr "P"); Opt (word_then "ost" (Opt (word "al")));
                 maybe (chr "."); star Whitespace; Atom (chr "O");
                 Opt (word "ffice"); maybe (chr "."); star Whitespace; word "Box"];
            word "General Delivery"];
       plus Whitespace; plus Digit; Bound].
Proof. reflexivity. Qed.

Lemma ADDRESS_PATTERN_parsed :
  ADDRESS_PATTERN =
  seq [Bound;
       plus (Cls [range "A" "Z"; range "a" "z"; range "0" "9"]);
       plus Whitespace;
       plus (Cls [range "A" "Z"; range "a" "z"; range "0" "9"; ISpace;
                  one "."; one "-"]);
       plus Whitespace;
       alt [word "Street"; word "St"; word "Avenue"; word "Ave"; word "Road";
            word "Rd"; word "Lane"; word "Ln"; word "Drive"; word "Dr";
            word "Boulevard"; word "Blvd"; word "Crescent"; word "Cres";
            word "Court"; word "Ct"];
       Bound].
Proof. reflexivity. Qed.

Lemma TEMP_CREDIT_CARD_IGNORE_PATTERN_parsed :
  TEMP_CREDIT_CARD_IGNORE_PATTERN =
  seq [Bound;
       alt [seq [times 4 Digit; maybe space_or_hyphen; times 4 Digit;
                 maybe space_or_hyphen; times 4 Digit; maybe space_or_hyphen;
                 upto 1 4 Digit];
            upto 13 16 Digit];
       Bound].
Proof. reflexivity. Qed.

(** ** [re.sub] cuts the text into gaps and matches *)

Section SubPieces.

Variable St : Type.
Variable find : option ascii -> str -> bool -> option nat.
Variable repl : St -> str -> str * St.

Lemma pieces_sub_cons_gap (c : ascii) (st : St) (segs : pieces) (tail : str) :
  exists segs' tail',
    pieces_text segs' tail' = c :: pieces_text segs tail /\
    pieces_sub repl st segs' tail' =
    (c :: fst (pieces_sub repl st segs tail), snd (pieces_sub repl st segs tail)).
Proof.
  destruct segs as [|[gap m] segs].
  - now exists [], (c :: tail).
  - exists ((c :: gap, m) :: segs), tail. split; [reflexivity|]. simpl.
    destruct (repl st m) as [new st1].
    now destruct (pieces_sub repl st1 segs tail).
Qed.

Lemma sub_loop_pieces (rest : str) :
  forall (skip : nat) (st : St) (prev : option ascii),
  exists segs tail,
    skipn skip rest = pieces_text segs tail /\
    sub_loop find repl st prev rest skip = pieces_sub repl st segs tail.
Proof.
  induction rest as [|c rest IH]; intros skip st prev.
  - destruct skip as [|k]; simpl; [|now exists [], []].
    destruct (find prev [] false) as [[|k]|].
    + destruct (repl st []) as [new st1] eqn:E1.
      destruct (find prev [] true) as [[|k]|].
      * exists [([], [])], []. simpl. rewrite E1. now rewrite app_nil_r.
      * destruct (repl st1 []) as [new2 st2] eqn:E2.
        exists [([], []); ([], [])], []. simpl. rewrite E1, E2.
        now rewrite app_nil_r.
      * exists [([], [])], []. simpl. rewrite E1. now rewrite app_nil_r.
    + destruct (repl st []) as [new st1] eqn:E1.
      exists [([], [])], []. simpl. rewrite E1. now rewrite app_nil_r.
    + now exists [], [].
  - destruct skip as [|k]; [|apply IH]. cbn [sub_loop skipn].
    destruct (find prev (c :: rest) false) as [[|k]|].
    + destruct (repl st []) as [new st1] eqn:E1.
      destruct (find prev (c :: rest) true) as [[|k]|].
      * destruct (IH 0 st1 (Some c)) as (segs & tail & Ht & Hs).
        destruct (pieces_sub_cons_gap c st1 segs tail) as (segs' & tail' & Ht' & Hs').
        exists (([], []) :: segs'), tail'. simpl. rewrite E1, Hs', Hs, Ht'.
        simpl in Ht. rewrite Ht.
        now destruct (pieces_sub repl st1 segs tail).
      * destruct (repl st1 (firstn (S k) (c :: rest))) as [new2 st2] eqn:E2.
        destruct (IH k st2 (Some c)) as (segs & tail & Ht & Hs).
        exists (([], []) :: ([], firstn (S k) (c :: rest)) :: segs), tail.
        cbn [pieces_text pieces_sub app]. rewrite E1, E2, Hs, <- Ht.
        split; [|now destruct (pieces_sub repl st2 segs tail)].
        change (skipn k rest) with (skipn (S k) (c :: rest)).
        now rewrite firstn_skipn.
      * destruct (IH 0 st1 (Some c)) as (segs & tail & Ht & Hs).
        destruct (pieces_sub_cons_gap c st1 segs tail) as (segs' & tail' & Ht' & Hs').
        exists (([], []) :: segs'), tail'. simpl. rewrite E1, Hs', Hs, Ht'.
        simpl in Ht. rewrite Ht.
        now destruct (pieces_sub repl st1 segs tail).
    + destruct (repl st (firstn (S k) (c :: rest))) as [new st1] eqn:E1.
      destruct (IH k st1 (Some c)) as (segs & tail & Ht & Hs).
      exists (([], firstn (S k) (c :: rest)) :: segs), tail.
      cbn [pieces_text pieces_sub app]. rewrite E1, Hs, <- Ht.
      split; [|now destruct (pieces_sub repl st1 segs tail)].
      change (skipn k rest) with (skipn (S k) (c :: rest)).
      now rewrite firstn_skipn.
    + destruct (IH 0 st (Some c)) as (segs & tail & Ht & Hs).
      destruct (pieces_sub_cons_gap c st segs tail) as (segs' & tail' & Ht' & Hs').
      exists segs', tail'. rewrite Hs', Hs, Ht'. simpl in Ht. rewrite Ht.
      now destruct (pieces_sub repl st segs tail).
Qed.

End SubPieces.

Lemma re_sub_fn_pieces (St : Type) (pattern : re) (fn : St -> str -> str * St)
    (st : St) (text : str) :
  exists segs tail,
    text = pieces_text segs tail /\
    re_sub_fn pattern fn st text = pieces_sub fn st segs tail.
Proof. apply (sub_loop_pieces (match_here true pattern) fn text 0 st None). Qed.

(** ** Placeholder tokens in a text *)

Lemma starts_with_stops (c : ascii) (body v z : str) :
  ~ In c body -> starts_with body (v ++ c :: z) = true -> starts_with body v = true.
Proof.
  revert v. induction body as [|b body IH]; intros v Hn H; [reflexivity|].
  destruct v as [|x v]; simpl in *.
  - apply andb_true_iff in H as [Hb _]. apply ascii_eqb_eq in Hb.
    exfalso. apply Hn. now left.
  - apply andb_true_iff in H as [Hb H]. rewrite Hb. simpl.
    apply IH; [|exact H]. intro. apply Hn. now right.
Qed.

Lemma placeholder_shape (k : nat) :
  placeholder k = "@"%char :: "@"%char :: lit "TEMP_CC_PLACEHOLDER_" ++ str_of_nat k ++ lit "@@".
Proof. reflexivity. Qed.

Lemma head_starts_placeholder (k : nat) (w : str) :
  starts_with PLACEHOLDER_HEAD (placeholder k ++ w) = true.
Proof.
  unfold placeholder. rewrite <- app_assoc. apply starts_with_app.
Qed.

Lemma starts_with_trans (a b text : str) :
  starts_with a b = true -> starts_with b text = true -> starts_with a text = true.
Proof.
  rewrite !starts_with_iff. intros [r1 ->] [r2 ->]. exists (r1 ++ r2).
  now rewrite app_assoc.
Qed.

(** A marker that starts before a placeholder token and runs into it
    lies before it altogether. *)
Lemma head_before_placeholder (v w : str) (k : nat) :
  v <> [] ->
  starts_with PLACEHOLDER_HEAD (v ++ placeholder k ++ w) = true ->
  starts_with PLACEHOLDER_HEAD v = true.
Proof.
  intros Hv H. rewrite placeholder_shape in H.
  change PLACEHOLDER_HEAD
    with ("@"%char :: "@"%char :: lit "TEMP_CC_PLACEHOLDER_") in *.
  destruct v as [|c1 [|c2 v]]; [easy| |].
  - simpl in H. rewrite !andb_false_r in H. discriminate.
  - cbn [starts_with app] in *. apply andb_true_iff in H as [H1 H].
    apply andb_true_iff in H as [H2 H]. rewrite H1, H2. simpl.
    apply (starts_with_stops "@"%char) in H; [exact H|].
    vm_compute. intuition discriminate.
Qed.

Lemma contains_head_placeholder (k : nat) (text : str) :
  contains PLACEHOLDER_HEAD text = false -> contains (placeholder k) text = false.
Proof.
  intro H. destruct (contains (placeholder k) text) eqn:E; [|reflexivity].
  apply contains_iff in E as (a & b & ->).
  rewrite <- H. symmetry. apply contains_app_r, contains_app_l.
  unfold placeholder, PLACEHOLDER_HEAD. apply contains_app_l.
  apply contains_iff. exists [], []. now rewrite app_nil_r.
Qed.

(** In a text with no marker of its own before a token, the leftmost
    occurrence of the token is the token. *)
Lemma placeholder_first (u w : str) (k : nat) :
  contains PLACEHOLDER_HEAD u = false ->
  index_of (placeholder k) (u ++ placeholder k ++ w) = Some (List.length u).
Proof.
  induction u as [|c u IH]; intro H.
  - exact (index_of_here (placeholder k) w).
  - rewrite contains_unfold in H. apply orb_false_iff in H as [H1 H2].
    cbn [app]. rewrite index_of_unfold.
    destruct (starts_with (placeholder k) (c :: u ++ placeholder k ++ w)) eqn:E.
    + exfalso.
      assert (starts_with PLACEHOLDER_HEAD ((c :: u) ++ placeholder k ++ w) = true) as E'.
      { eapply starts_with_trans; [|exact E].
        rewrite <- (app_nil_r (placeholder k)). apply head_starts_placeholder. }
      apply head_before_placeholder in E'; [congruence|discriminate].
    + now rewrite IH.
Qed.

Lemma firstn_length_app (u r : str) : firstn (List.length u) (u ++ r) = u.
Proof. induction u; simpl; congruence. Qed.

Lemma skipn_length_app (u r : str) : skipn (List.length u) (u ++ r) = r.
Proof. induction u; simpl; congruence. Qed.

Lemma replace_placeholder (u w new : str) (k : nat) :
  contains PLACEHOLDER_HEAD u = false ->
  replace_one (placeholder k) new (u ++ placeholder k ++ w) = u ++ new ++ w.
Proof.
  intro H. rewrite replace_one_index, placeholder_first by exact H.
  rewrite firstn_length_app, Nat.add_comm, <- skipn_skipn.
  now rewrite !skipn_length_app.
Qed.

(** ** Shielding and restoring *)

Lemma shield_pieces_snd (segs : pieces) (tail : str) (cc0 : list str) :
  snd (pieces_sub cc_match_replacer cc0 segs tail) = cc0 ++ map snd segs.
Proof.
  revert cc0. induction segs as [|[gap m] segs IH]; intro cc0; simpl.
  - now rewrite app_nil_r.
  - specialize (IH (cc0 ++ [m])).
    destruct (pieces_sub cc_match_replacer (cc0 ++ [m]) segs tail); simpl in *.
    now rewrite IH, <- app_assoc.
Qed.

Lemma shield_pieces_fst (gap m : str) (segs : pieces) (tail : str) (cc0 : list str) :
  fst (pieces_sub cc_match_replacer cc0 ((gap, m) :: segs) tail) =
  gap ++ placeholder (List.length cc0)
      ++ fst (pieces_sub cc_match_replacer (cc0 ++ [m]) segs tail).
Proof.
  simpl. destruct (pieces_sub cc_match_replacer (cc0 ++ [m]) segs tail); simpl.
  rewrite length_app. simpl. now rewrite Nat.add_sub.
Qed.

Lemma contains_false_app_l (needle a b : str) :
  contains needle (a ++ b) = false -> contains needle a = false.
Proof.
  intro H. destruct (contains needle a) eqn:E; [|reflexivity].
  now rewrite (contains_app_l _ _ b E) in H.
Qed.

(** Restoring a text whose first tokens are the shield's: they are
    replaced in order, and the loop stops at the first index whose
    token the text does not hold; what follows is left as it is. *)
Lemma restore_prefix (segs : pieces) :
  forall (pre : str) (cc0 cc_rest : list str) (tail : str) (fuel : nat),
  contains PLACEHOLDER_HEAD (pre ++ pieces_text segs []) = false ->
  contains (placeholder (List.length cc0 + List.length segs))
    (pre ++ pieces_text segs tail) = false ->
  List.length segs < fuel ->
  restore_loop fuel (cc0 ++ map snd segs ++ cc_rest)
    (pre ++ fst (pieces_sub cc_match_replacer cc0 segs tail)) (List.length cc0)
  = Ret (pre ++ pieces_text segs tail).
Proof.
  induction segs as [|[gap m] segs IH]; intros pre cc0 cc_rest tail fuel Hx Hk Hf;
    (destruct fuel as [|fuel]; [simpl in Hf; lia|]).
  - simpl in *. rewrite Nat.add_0_r in Hk. now rewrite Hk.
  - rewrite shield_pieces_fst.
    cbn [restore_loop pieces_text map snd app].
    rewrite (app_assoc pre gap).
    assert (contains PLACEHOLDER_HEAD (pre ++ gap) = false) as Hu.
    { apply contains_false_app_l with (b := m ++ pieces_text segs []).
      now rewrite <- app_assoc. }
    assert (contains (placeholder (List.length cc0))
              ((pre ++ gap) ++ placeholder (List.length cc0)
                 ++ fst (pieces_sub cc_match_replacer (cc0 ++ [m]) segs tail)) = true) as ->.
    { apply contains_iff. now eexists _, _. }
    assert ((List.length cc0 <? List.length (cc0 ++ m :: map snd segs ++ cc_rest))%nat = true) as ->.
    { apply Nat.ltb_lt. rewrite length_app. simpl. lia. }
    rewrite replace_placeholder by exact Hu.
    rewrite nth_middle.
    replace (cc0 ++ m :: map snd segs ++ cc_rest)
      with ((cc0 ++ [m]) ++ map snd segs ++ cc_rest)
      by now rewrite <- app_assoc.
    replace (List.length cc0 + 1) with (List.length (cc0 ++ [m]))
      by (rewrite length_app; reflexivity).
    replace ((pre ++ gap) ++ m ++ fst (pieces_sub cc_match_replacer (cc0 ++ [m]) segs tail))
      with ((pre ++ gap ++ m) ++ fst (pieces_sub cc_match_replacer (cc0 ++ [m]) segs tail))
      by now rewrite <- !app_assoc.
    rewrite IH.
    + now rewrite <- !app_assoc.
    + rewrite <- Hx. cbn [pieces_text]. now rewrite <- !app_assoc.
    + rewrite <- Hk. cbn [pieces_text List.length]. rewrite length_app.
      cbn [List.length]. rewrite <- !app_assoc.
      now replace (List.length cc0 + 1 + List.length segs)
        with (List.length cc0 + S (List.length segs)) by lia.
    + simpl in Hf. lia.
Qed.

Lemma pieces_text_tail (segs : pieces) (tail : str) :
  pieces_text segs tail = pieces_text segs [] ++ tail.
Proof.
  induction segs as [|[gap m] segs IH]; simpl; [reflexivity|].
  now rewrite IH, <- !app_assoc.
Qed.

(** Restoring what the shield wrote gives the text back, when the text
    holds no marker of its own. *)
Lemma restore_pieces (segs : pieces) (tail : str) (fuel : nat) :
  contains PLACEHOLDER_HEAD (pieces_text segs tail) = false ->
  List.length segs < fuel ->
  restore_loop fuel (map snd segs)
    (fst (pieces_sub cc_match_replacer [] segs tail)) 0
  = Ret (pieces_text segs tail).
Proof.
  intros Hx Hf.
  pose proof (restore_prefix segs [] [] [] tail (fuel := fuel)) as H.
  cbn [app List.length] in H. rewrite app_nil_r in H. apply H.
  - apply contains_false_app_l with (b := tail). now rewrite <- pieces_text_tail.
  - now apply contains_head_placeholder.
  - exact Hf.
Qed.

(** ** Rewriting entity spans from the right *)

Lemma chain_starts (text : str) (l : list (nat * nat * string)) :
  forall pos, chain text pos l -> Forall (fun t => pos <= start_of t) l.
Proof.
  induction l as [|t l IH]; intros pos H; constructor; simpl in H.
  - tauto.
  - destruct H as (H1 & H2 & _ & H4).
    eapply Forall_impl; [|exact (IH _ H4)]. simpl. intros; lia.
Qed.

Lemma fold_left_rev (A B : Type) (f : A -> B -> A) (l : list B) (a : A) :
  fold_left f (rev l) a = fold_right (fun x acc => f acc x) a l.
Proof.
  induction l as [|x l IH]; simpl; [reflexivity|].
  now rewrite fold_left_app, IH.
Qed.

(** Rewriting the cuts from the last to the first leaves the text
    before the cut in hand as it was. *)
Lemma rewrite_from_right (text : str) (l : list (nat * nat * string)) :
  forall pos, chain text pos l ->
  fold_right (fun t acc => scrub_span acc t) text l
  = firstn pos text ++ splice_from text pos l.
Proof.
  induction l as [|t l IH]; intros pos H; simpl in *.
  - now rewrite firstn_skipn.
  - destruct H as (H1 & H2 & H3 & H4). rewrite (IH _ H4). unfold scrub_span.
    assert (List.length (firstn (end_of t) text) = end_of t) as Hlen
      by (rewrite length_firstn; lia).
    rewrite firstn_app, Hlen, firstn_firstn.
    replace (start_of t - end_of t) with 0 by lia.
    replace (Nat.min (start_of t) (end_of t)) with (start_of t) by lia.
    rewrite skipn_app, Hlen, Nat.sub_diag, (skipn_all2 (firstn (end_of t) text))
      by lia.
    simpl. rewrite app_nil_r, app_assoc. f_equal.
    rewrite <- (firstn_skipn pos (firstn (start_of t) text)) at 1.
    rewrite firstn_firstn. now replace (Nat.min pos (start_of t)) with pos by lia.
Qed.

Lemma disjoint_order (text : str) (x y : nat * nat * string) :
  span_in text x = true -> span_in text y = true -> disjoint x y = true ->
  (end_of x <= start_of y /\ start_of x < start_of y)
  \/ (end_of y <= start_of x /\ start_of y < start_of x).
Proof.
  unfold span_in, disjoint. rewrite !andb_true_iff, orb_true_iff.
  rewrite !Nat.ltb_lt, !Nat.leb_le. lia.
Qed.

Lemma insert_asc_Forall (P : nat * nat * string -> Prop) x l :
  P x -> Forall P l -> Forall P (insert_asc x l).
Proof.
  intros Hx. induction 1 as [|y l Hy Hl IH]; simpl.
  - now constructor.
  - destruct (start_of x <=? start_of y)%nat; repeat constructor; assumption.
Qed.

Lemma sort_asc_Forall (P : nat * nat * string -> Prop) l :
  Forall P l -> Forall P (sort_asc l).
Proof.
  induction 1; simpl; [constructor|]. now apply insert_asc_Forall.
Qed.

Lemma insert_asc_chain (text : str) (x : nat * nat * string) l :
  span_in text x = true ->
  forall pos, pos <= start_of x -> chain text pos l ->
  Forall (fun y => disjoint x y = true) l -> Forall (fun y => span_in text y = true) l ->
  chain text pos (insert_asc x l).
Proof.
  intro Hx. induction l as [|y l IH]; intros pos Hp Hc Hd Hs; simpl.
  - unfold span_in in Hx. apply andb_true_iff in Hx as [H1 H2].
    apply Nat.ltb_lt in H1. apply Nat.leb_le in H2. intuition lia.
  - inversion Hd as [|? ? Hxy Hd']; subst. inversion Hs as [|? ? Hy Hs']; subst.
    simpl in Hc. destruct Hc as (C1 & C2 & C3 & C4).
    pose proof (disjoint_order text x y Hx Hy Hxy) as Ho.
    pose proof Hx as Hx'. unfold span_in in Hx'.
    apply andb_true_iff in Hx' as [X1 X2].
    apply Nat.ltb_lt in X1. apply Nat.leb_le in X2.
    destruct (start_of x <=? start_of y)%nat eqn:E.
    + apply Nat.leb_le in E. simpl. intuition lia.
    + apply Nat.leb_gt in E. simpl. repeat split; try lia.
      apply IH; try assumption. lia.
Qed.

Lemma spans_ok_Forall (text : str) l :
  spans_ok text l = true ->
  Forall (fun y => span_in text y = true) l /\ pairwise_disjoint l = true.
Proof.
  unfold spans_ok. rewrite andb_true_iff, forallb_forall, Forall_forall. tauto.
Qed.

Lemma sort_asc_chain (text : str) l :
  Forall (fun y => span_in text y = true) l -> pairwise_disjoint l = true ->
  chain text 0 (sort_asc l).
Proof.
  induction l as [|x l IH]; intros Hs Hd; simpl; [lia|].
  inversion Hs as [|? ? Hx Hs']; subst.
  simpl in Hd. apply andb_true_iff in Hd as [Hd1 Hd2].
  apply insert_asc_chain; try assumption; try lia.
  - now apply IH.
  - apply sort_asc_Forall. apply Forall_forall.
    now apply forallb_forall.
  - now apply sort_asc_Forall.
Qed.

Lemma insert_desc_last (x y : nat * nat * string) l :
  start_of y < start_of x -> insert_desc x (l ++ [y]) = insert_desc x l ++ [y].
Proof.
  intro H. induction l as [|z l IH]; simpl.
  - assert ((start_of y <=? start_of x)%nat = true) as -> by (apply Nat.leb_le; lia).
    reflexivity.
  - destruct (start_of z <=? start_of x)%nat; [reflexivity|]. now rewrite IH.
Qed.

Lemma insert_desc_end (x : nat * nat * string) l :
  Forall (fun z => start_of x < start_of z) l -> insert_desc x l = l ++ [x].
Proof.
  induction 1 as [|z l Hz Hl IH]; simpl; [reflexivity|].
  assert ((start_of z <=? start_of x)%nat = false) as -> by (apply Nat.leb_gt; lia).
  now rewrite IH.
Qed.

Lemma insert_desc_rev (text : str) (x : nat * nat * string) l :
  span_in text x = true ->
  forall pos, chain text pos l ->
  Forall (fun y => disjoint x y = true) l -> Forall (fun y => span_in text y = true) l ->
  insert_desc x (rev l) = rev (insert_asc x l).
Proof.
  intro Hx. induction l as [|y l IH]; intros pos Hc Hd Hs; [reflexivity|].
  inversion Hd as [|? ? Hxy Hd']; subst. inversion Hs as [|? ? Hy Hs']; subst.
  simpl in Hc. destruct Hc as (C1 & C2 & C3 & C4).
  pose proof (disjoint_order text x y Hx Hy Hxy) as Ho.
  cbn [insert_asc rev]. destruct (start_of x <=? start_of y)%nat eqn:E.
  - apply Nat.leb_le in E. cbn [rev]. apply insert_desc_end.
    apply Forall_app. split.
    + apply Forall_rev. eapply Forall_impl; [|exact (chain_starts _ _ _ C4)].
      simpl. intros; lia.
    + repeat constructor. lia.
  - apply Nat.leb_gt in E. cbn [rev]. rewrite insert_desc_last by lia.
    now rewrite (IH _ C4 Hd' Hs').
Qed.

Lemma sort_desc_rev (text : str) l :
  Forall (fun y => span_in text y = true) l -> pairwise_disjoint l = true ->
  sort_desc l = rev (sort_asc l).
Proof.
  induction l as [|x l IH]; intros Hs Hd; [reflexivity|].
  inversion Hs as [|? ? Hx Hs']; subst.
  simpl in Hd. apply andb_true_iff in Hd as [Hd1 Hd2].
  simpl. rewrite (IH Hs' Hd2).
  apply insert_desc_rev with (text := text) (pos := 0); try assumption.
  - now apply sort_asc_chain.
  - apply sort_asc_Forall, Forall_forall. now apply forallb_forall.
  - now apply sort_asc_Forall.
Qed.

(** The sorted, right-to-left rewrite of well-formed spans is the
    splice. *)
Lemma scrub_spans_splice (text : str) (spans : list (nat * nat * string)) :
  spans_ok text spans = true ->
  scrub_spans text (sort_desc spans) = splice text spans.
Proof.
  intro H. apply spans_ok_Forall in H as [Hs Hd].
  unfold scrub_spans, splice.
  rewrite (sort_desc_rev text Hs Hd), fold_left_rev.
  now rewrite (rewrite_from_right text _ 0 (sort_asc_chain text Hs Hd)).
Qed.

(** ** What a splice keeps *)

Section Keeps.

Variable Q : ascii -> Prop.
Variable text : str.
Hypothesis marker_ok : Forall Q MARKER.

Lemma Forall_firstn (n : nat) (l : str) : Forall Q l -> Forall Q (firstn n l).
Proof.
  intro H. rewrite <- (firstn_skipn n l) in H. now apply Forall_app in H.
Qed.

Lemma Forall_skipn (n : nat) (l : str) : Forall Q l -> Forall Q (skipn n l).
Proof.
  intro H. rewrite <- (firstn_skipn n l) in H. now apply Forall_app in H.
Qed.

Lemma Forall_skipn_le (a b : nat) :
  a <= b -> Forall Q (skipn a text) -> Forall Q (skipn b text).
Proof.
  intros Hab H. replace b with ((b - a) + a) by lia.
  rewrite <- skipn_skipn. now apply Forall_skipn.
Qed.

Lemma Forall_firstn_le (a b : nat) :
  a <= b -> Forall Q (firstn b text) -> Forall Q (firstn a text).
Proof.
  intros Hab H. replace a with (Nat.min a b) by lia.
  rewrite <- firstn_firstn. now apply Forall_firstn.
Qed.

Lemma Forall_segment (a b : nat) :
  Forall Q (skipn a text) -> Forall Q (skipn a (firstn b text)).
Proof.
  intro H. rewrite <- (firstn_skipn b text) in H at 1.
  rewrite skipn_app in H. now apply Forall_app in H.
Qed.

(** Right of [hi], a splice is made of text right of [hi] and markers. *)
Lemma splice_from_right (hi : nat) (l : list (nat * nat * string)) :
  forall pos, hi <= pos -> chain text pos l -> Forall Q (skipn hi text) ->
  Forall Q (splice_from text pos l).
Proof.
  induction l as [|t l IH]; intros pos Hp Hc HQ; cbn [splice_from chain] in *.
  - now apply Forall_skipn_le with (a := hi).
  - destruct Hc as (C1 & C2 & C3 & C4).
    apply Forall_app. split; [|apply Forall_app; split].
    + apply Forall_segment. now apply Forall_skipn_le with (a := hi).
    + exact marker_ok.
    + apply IH; [lia|assumption|assumption].
Qed.

Lemma segment_split (pos lo hi : nat) (s : str) :
  pos <= lo -> lo <= hi -> hi <= List.length s ->
  skipn pos s = skipn pos (firstn lo s) ++ skipn lo (firstn hi s) ++ skipn hi s.
Proof.
  intros H1 H2 H3.
  rewrite <- (firstn_skipn hi s) at 1.
  rewrite <- (firstn_skipn lo (firstn hi s)) at 1.
  rewrite firstn_firstn. replace (Nat.min lo hi) with lo by lia.
  rewrite <- app_assoc, skipn_app.
  rewrite length_firstn. replace (pos - Nat.min lo (List.length s)) with 0 by lia.
  reflexivity.
Qed.

(** A splice whose cuts all avoid the range [lo, hi) holds that range
    of the text, between a left part made of text left of [lo] and
    markers and a right part made of text right of [hi] and markers. *)
Lemma splice_from_avoid (lo hi : nat) (l : list (nat * nat * string)) :
  lo <= hi -> hi <= List.length text ->
  Forall Q (firstn lo text) -> Forall Q (skipn hi text) ->
  forall pos, pos <= lo -> chain text pos l -> spans_avoid lo hi l = true ->
  exists A B,
    splice_from text pos l = A ++ skipn lo (firstn hi text) ++ B
    /\ Forall Q A /\ Forall Q B.
Proof.
  intros Hlh Hhi QL QR.
  induction l as [|t l IH]; intros pos Hp Hc Ha; cbn [splice_from chain spans_avoid forallb] in *.
  - exists (skipn pos (firstn lo text)), (skipn hi text). split; [|split].
    + now apply segment_split.
    + now apply Forall_skipn.
    + exact QR.
  - destruct Hc as (C1 & C2 & C3 & C4).
    apply andb_true_iff in Ha as [Ht Ha]. apply orb_true_iff in Ht as [Ht|Ht].
    + apply Nat.leb_le in Ht.
      destruct (IH (end_of t)) as (A & B & E & QA & QB); try assumption.
      exists (skipn pos (firstn (start_of t) text) ++ MARKER ++ A), B.
      split; [|split; [|exact QB]].
      * rewrite E. now rewrite <- !app_assoc.
      * apply Forall_app. split; [|apply Forall_app; split; assumption].
        apply Forall_skipn. apply Forall_firstn_le with (b := lo); [lia|exact QL].
    + apply Nat.leb_le in Ht.
      exists (skipn pos (firstn lo text)),
             (skipn hi (firstn (start_of t) text) ++ MARKER
                ++ splice_from text (end_of t) l).
      split; [|split].
      * rewrite (segment_split (pos := pos) (lo := lo) (hi := hi) (firstn (start_of t) text))
          by (rewrite ?length_firstn; lia).
        rewrite !firstn_firstn.
        replace (Nat.min lo (start_of t)) with lo by lia.
        replace (Nat.min hi (start_of t)) with hi by lia.
        now rewrite <- !app_assoc.
      * now apply Forall_skipn.
      * apply Forall_app. split; [|apply Forall_app; split].
        -- now apply Forall_segment.
        -- exact marker_ok.
        -- apply splice_from_right with (hi := hi); [lia|assumption|assumption].
Qed.

End Keeps.

(** ** The card of the test string *)

Lemma no_at_contains (needle text : str) :
  In "@"%char needle -> Forall no_at text -> contains needle text = false.
Proof.
  intros Hn Ht. destruct (contains needle text) eqn:E; [|reflexivity].
  pose proof (contains_In _ _ _ E Hn) as Hin.
  rewrite Forall_forall in Ht. now destruct (Ht _ Hin).
Qed.

Lemma at_in_placeholder (k : nat) : In "@"%char (placeholder k).
Proof. rewrite placeholder_shape. now left. Qed.

(** One recorded card, one token, no other [@] in the text: the loop
    puts the card back and stops. *)
Lemma restore_single (A B c : str) (fuel : nat) :
  Forall no_at A -> Forall no_at B -> Forall no_at c -> 2 <= fuel ->
  restore_loop fuel [c] (A ++ placeholder 0 ++ B) 0 = Ret (A ++ c ++ B).
Proof.
  intros QA QB Qc Hf. destruct fuel as [|[|fuel]]; try lia.
  cbn [restore_loop List.length nth].
  assert (contains (placeholder 0) (A ++ placeholder 0 ++ B) = true) as ->
    by (apply contains_iff; now exists A, B).
  change (0 <? 1)%nat with true. cbv iota.
  rewrite replace_placeholder.
  - change (0 + 1) with 1.
    rewrite no_at_contains; [reflexivity|apply at_in_placeholder|].
    repeat (apply Forall_app; split); assumption.
  - apply no_at_contains; [|exact QA]. now left.
Qed.

Lemma card_shield : shield card_text = (card_shielded, [card]).
Proof. vm_compute. reflexivity. Qed.

Lemma card_rules : apply_rules card_shielded = card_shielded.
Proof. vm_compute. reflexivity. Qed.

Lemma Forall_no_at_dec (s : str) :
  forallb (fun c => negb (ascii_eqb c "@"%char)) s = true -> Forall no_at s.
Proof.
  rewrite forallb_forall, Forall_forall. intros H c Hc Heq. subst c.
  specialize (H _ Hc). now rewrite ascii_eqb_refl in H.
Qed.

(** ** The restore loop ends *)

Lemma count_char_app (c : ascii) (a b : str) :
  count_char c (a ++ b) = count_char c a + count_char c b.
Proof. unfold count_char. now rewrite filter_app, length_app. Qed.

Lemma index_of_split (old text : str) :
  forall i, index_of old text = Some i ->
  text = firstn i text ++ old ++ skipn (i + List.length old) text.
Proof.
  induction text as [|c text IH]; intros i; rewrite index_of_unfold.
  - destruct (starts_with old []) eqn:E; [|discriminate].
    intros [= <-]. now apply starts_with_split.
  - destruct (starts_with old (c :: text)) eqn:E.
    + intros [= <-]. now apply starts_with_split.
    + destruct (index_of old text) as [j|]; [|discriminate].
      intros [= <-]. simpl. f_equal. now apply IH.
Qed.

Lemma count_at_uint (d : Decimal.uint) :
  count_char "@"%char (lit (NilEmpty.string_of_uint d)) = 0.
Proof. induction d; simpl; auto. Qed.

Lemma count_at_placeholder (k : nat) : count_char "@"%char (placeholder k) = 4.
Proof.
  unfold placeholder, str_of_nat. rewrite !count_char_app, count_at_uint.
  reflexivity.
Qed.

Lemma skipn_nth (A : Type) (d : A) (l : list A) :
  forall i, i < List.length l -> skipn i l = nth i l d :: skipn (S i) l.
Proof.
  induction l as [|x l IH]; intros [|i] H; simpl in *; try lia; [reflexivity|].
  apply IH. lia.
Qed.

(** Every iteration that finds a token takes four [@] out of what the
    text and the literals not yet used hold together. *)
Lemma restore_loop_ends (fuel : nat) :
  forall (cc_matches : list str) (text : str) (idx : nat),
  count_char "@"%char text
    + count_char "@"%char (List.concat (skipn idx cc_matches)) < 4 * fuel ->
  exists out k,
    restore_loop fuel cc_matches text idx = Ret out /\
    idx <= k /\ contains (placeholder k) out = false.
Proof.
  induction fuel as [|fuel IH]; intros cc text idx H; [lia|].
  cbn [restore_loop].
  destruct (contains (placeholder idx) text) eqn:E.
  - rewrite index_of_contains in E. rewrite !replace_one_index.
    destruct (index_of (placeholder idx) text) as [i|] eqn:Ei; [|discriminate].
    pose proof (index_of_split _ _ Ei) as Ht.
    assert (count_char "@"%char text
            = count_char "@"%char (firstn i text) + 4
              + count_char "@"%char (skipn (i + List.length (placeholder idx)) text)) as Hc.
    { rewrite Ht at 1. rewrite !count_char_app, count_at_placeholder. lia. }
    destruct (idx <? List.length cc)%nat eqn:El.
    + apply Nat.ltb_lt in El.
      rewrite (@skipn_nth str [] cc idx El) in H. cbn [List.concat] in H.
      rewrite count_char_app in H.
      destruct (IH cc (firstn i text ++ nth idx cc []
                      ++ skipn (i + List.length (placeholder idx)) text) (idx + 1))
        as (out & k & Hr & Hk & Hn).
      * rewrite !count_char_app. replace (idx + 1) with (S idx) by lia. lia.
      * exists out, k. repeat split; [exact Hr|lia|exact Hn].
    + apply Nat.ltb_ge in El.
      rewrite (skipn_all2 cc) in H by lia.
      destruct (IH cc (firstn i text ++ UNEXPECTED
                      ++ skipn (i + List.length (placeholder idx)) text) (idx + 1))
        as (out & k & Hr & Hk & Hn).
      * rewrite !count_char_app, (skipn_all2 cc) by lia.
        change (count_char "@"%char UNEXPECTED) with 0. simpl in *. lia.
      * exists out, k. repeat split; [exact Hr|lia|exact Hn].
  - exists text, idx. repeat split; [lia|exact E].
Qed.

Lemma restore_loop_more_fuel (fuel : nat) :
  forall (cc_matches : list str) (text : str) (idx : nat) (out : str) (extra : nat),
  restore_loop fuel cc_matches text idx = Ret out ->
  restore_loop (fuel + extra) cc_matches text idx = Ret out.
Proof.
  induction fuel as [|fuel IH]; intros cc text idx out extra; [discriminate|].
  cbn [restore_loop Nat.add].
  destruct (contains (placeholder idx) text); [apply IH|trivial].
Qed.

Lemma restore_loop_no_raise (fuel : nat) :
  forall (cc_matches : list str) (text : str) (idx : nat) (e : exn),
  restore_loop fuel cc_matches text idx <> Raise e.
Proof.
  induction fuel as [|fuel IH]; intros cc text idx e; [discriminate|].
  cbn [restore_loop].
  destruct (contains (placeholder idx) text); [apply IH|discriminate].
Qed.

Lemma scrub_pii_restore (fuel : nat) (nlp : option recognizer) (v : value) :
  isna v = false ->
  scrub_pii fuel nlp v
  = (text <- restore_loop fuel (snd (shield (str_of_value v)))
               (before_restore nlp (str_of_value v)) 0 ;;
     Ret (VStr text)).
Proof.
  intro Hv. unfold scrub_pii, before_restore. rewrite Hv.
  destruct (shield (str_of_value v)) as [shielded cc]. cbn [fst snd].
  destruct nlp as [f|]; [|reflexivity].
  unfold entity_stage, call. now destruct (f (apply_rules shielded)).
Qed.

(** ** What a match is made of *)

Lemma prev_after_cons (prev : option ascii) (c : ascii) (s : str) :
  prev_after prev (c :: s) = prev_after (Some c) s.
Proof.
  unfold prev_after. simpl. destruct (rev s) as [|x l]; reflexivity.
Qed.

Lemma prev_after_app (prev : option ascii) (a b : str) :
  prev_after prev (a ++ b) = prev_after (prev_after prev a) b.
Proof.
  revert prev. induction a as [|c a IH]; intro prev; [reflexivity|].
  cbn [app]. rewrite !prev_after_cons. apply IH.
Qed.

Lemma firstn_plus (A : Type) (a b : nat) (l : list A) :
  firstn (a + b) l = firstn a l ++ firstn b (skipn a l).
Proof.
  revert l. induction a as [|a IH]; intros [|x l]; simpl;
    try reflexivity; [now rewrite firstn_nil|now rewrite IH].
Qed.

Lemma forallb_weaken (A : Type) (P Q : A -> bool) (l : list A) :
  (forall x, P x = true -> Q x = true) ->
  forallb P l = true -> forallb Q l = true.
Proof.
  intros H. rewrite !forallb_forall. auto.
Qed.

Section Sound.

Variable ic : bool.

Lemma reads_nothing (r : re) prev rest n (k : kont) res :
  min_len r = 0 -> k prev rest n = Some res -> reads ic r prev rest n k res.
Proof.
  intros Hm Hk. exists 0. rewrite Hm, Nat.add_0_r. simpl.
  repeat split; [lia|lia|exact Hk].
Qed.

Lemma rep_atom_sound (a : atom) (rest : str) :
  forall lo hi prev n k res,
  rep_atom ic a lo hi prev rest n k = Some res ->
  reads ic (Rep a lo hi) prev rest n k res.
Proof.
  induction rest as [|c rest IH]; intros lo hi prev n k res H.
  - assert (lo = 0 /\ k prev [] n = Some res) as [-> Hk].
    { simpl in H. destruct hi as [[|h]|], lo; try discriminate; now split. }
    now apply reads_nothing.
  - assert (forall stop, stop = match lo with 0 => k prev (c :: rest) n | S _ => None end ->
              stop = Some res -> reads ic (Rep a lo hi) prev (c :: rest) n k res) as Hstop.
    { intros stop -> Hs. destruct lo; [|discriminate]. now apply reads_nothing. }
    assert (hi = Some 0 \/ hi <> Some 0) as [->|Hhi]
      by (destruct hi as [[|h]|]; [now left|right..]; discriminate).
    { simpl in H. eapply Hstop; [reflexivity|exact H]. }
    assert (rep_atom ic a lo hi prev (c :: rest) n k
            = if atom_match ic a c then
                match rep_atom ic a (pred lo) (option_map pred hi) (Some c) rest (S n) k with
                | Some r => Some r
                | None => match lo with 0 => k prev (c :: rest) n | S _ => None end
                end
              else match lo with 0 => k prev (c :: rest) n | S _ => None end) as E.
    { destruct hi as [[|h]|]; [congruence|reflexivity|reflexivity]. }
    rewrite E in H. clear E.
    destruct (atom_match ic a c) eqn:Ea; [|eapply Hstop; [reflexivity|exact H]].
    destruct (rep_atom ic a (pred lo) (option_map pred hi) (Some c) rest (S n) k)
      as [r|] eqn:Er; [|eapply Hstop; [reflexivity|exact H]].
    injection H as ->.
    destruct (IH _ _ _ _ _ _ Er) as (j & H1 & H2 & H3 & H4).
    exists (S j). cbn [min_len firstn skipn List.length forallb may_read] in *.
    rewrite Ea, prev_after_cons, H3.
    replace (n + S j) with (S n + j) by lia.
    repeat split; [lia|lia|exact H4].
Qed.

Lemma re_match_sound (r : re) :
  forall prev rest n k res,
  re_match ic r prev rest n k = Some res -> reads ic r prev rest n k res.
Proof.
  induction r as [| a | | r1 IH1 r2 IH2 | r1 IH1 r2 IH2 | r1 IH1 | a lo hi];
    intros prev rest n k res H; cbn [re_match] in H.
  - now apply reads_nothing.
  - destruct rest as [|c rest]; [discriminate|].
    destruct (atom_match ic a c) eqn:Ea; [|discriminate].
    exists 1. cbn [min_len firstn skipn List.length forallb may_read].
    rewrite Ea, prev_after_cons, Nat.add_1_r.
    repeat split; [lia|lia|exact H].
  - destruct (xorb _ _); [|discriminate]. now apply reads_nothing.
  - destruct (IH1 _ _ _ _ _ H) as (j1 & A1 & A2 & A3 & A4).
    destruct (IH2 _ _ _ _ _ A4) as (j2 & B1 & B2 & B3 & B4).
    rewrite length_skipn in B2.
    exists (j1 + j2). cbn [min_len may_read].
    rewrite firstn_plus, prev_after_app, forallb_app, Nat.add_assoc.
    rewrite (Nat.add_comm j1 j2), <- skipn_skipn.
    repeat split; [lia|lia| |exact B4].
    apply andb_true_iff. split.
    + eapply forallb_weaken; [|exact A3]. intros x ->. reflexivity.
    + eapply forallb_weaken; [|exact B3]. intros x ->. apply orb_true_r.
  - destruct (re_match ic r1 prev rest n k) as [x|] eqn:E1.
    + injection H as ->.
      destruct (IH1 _ _ _ _ _ E1) as (j & A1 & A2 & A3 & A4).
      exists j. cbn [min_len may_read]. repeat split; [lia|lia| |exact A4].
      eapply forallb_weaken; [|exact A3]. intros y ->. reflexivity.
    + destruct (IH2 _ _ _ _ _ H) as (j & A1 & A2 & A3 & A4).
      exists j. cbn [min_len may_read]. repeat split; [lia|lia| |exact A4].
      eapply forallb_weaken; [|exact A3]. intros y ->. apply orb_true_r.
  - destruct (re_match ic r1 prev rest n k) as [x|] eqn:E1.
    + injection H as ->.
      destruct (IH1 _ _ _ _ _ E1) as (j & A1 & A2 & A3 & A4).
      exists j. cbn [min_len may_read]. repeat split; [lia|lia|exact A3|exact A4].
    + now apply reads_nothing.
  - now apply rep_atom_sound.
Qed.

(** A match is no longer than the text, no shorter than the pattern
    asks, and made of characters the pattern can read. *)
Lemma match_here_sound (r : re) prev rest adv m :
  match_here ic r prev rest adv = Some m ->
  min_len r <= m /\ m <= List.length rest /\
  forallb (may_read ic r) (firstn m rest) = true.
Proof.
  intro H. apply re_match_sound in H as (j & H1 & H2 & H3 & H4).
  cbn beta in H4. destruct (adv && (0 + j =? 0)%nat); [discriminate|].
  injection H4 as <-. now repeat split.
Qed.

End Sound.

(** ** [re.sub] replaces the leftmost matches, all of them *)

Section SubLeftmost.

Variable St : Type.
Variable find : option ascii -> str -> bool -> option nat.
Variable repl : St -> str -> str * St.

(** The matcher never answers the empty match, nor one longer than the
    text. *)
Hypothesis progress :
  forall prev rest adv n, find prev rest adv = Some n ->
  0 < n /\ n <= List.length rest.

Lemma sub_loop_skip (rest : str) :
  forall skip st prev, skip <= List.length rest ->
  sub_loop find repl st prev rest skip
  = sub_loop find repl st (prev_after prev (firstn skip rest)) (skipn skip rest) 0.
Proof.
  induction rest as [|c rest IH]; intros [|k] st prev H; try reflexivity.
  - simpl in H. lia.
  - cbn [sub_loop firstn skipn]. rewrite prev_after_cons. apply IH.
    simpl in H. lia.
Qed.

Lemma leftmost_cons (prev : option ascii) (c : ascii) (rest : str)
    (segs : pieces) (tail : str) :
  find prev (c :: rest) false = None ->
  leftmost find (Some c) rest segs tail ->
  exists segs' tail',
    leftmost find prev (c :: rest) segs' tail' /\
    pieces_text segs' tail' = c :: pieces_text segs tail /\
    forall st, pieces_sub repl st segs' tail' =
      (c :: fst (pieces_sub repl st segs tail), snd (pieces_sub repl st segs tail)).
Proof.
  intros Hn Hl. inversion Hl as [? ? Hd | ? ? gap m rest' segs0 ? Hr Hg Hm Hne Hl']; subst.
  - exists [], (c :: tail). split; [|split; [reflexivity|reflexivity]].
    constructor. intros [|x a] b E.
    + simpl in E. subst b. exact Hn.
    + injection E as <- E. rewrite prev_after_cons. now apply Hd.
  - exists ((c :: gap, m) :: segs0), tail. split; [|split; [reflexivity|]].
    + econstructor; [reflexivity| | |exact Hne|].
      * intros [|x a] b E Hb.
        -- simpl in E. subst b. exact Hn.
        -- injection E as <- E. rewrite prev_after_cons. now apply Hg.
      * rewrite prev_after_cons. exact Hm.
      * cbn [app]. rewrite prev_after_cons. exact Hl'.
    + intro st. simpl. destruct (repl st m) as [new st1].
      now destruct (pieces_sub repl st1 segs0 tail).
Qed.

Lemma sub_loop_leftmost (n : nat) :
  forall rest, List.length rest <= n ->
  forall st prev,
  exists segs tail,
    leftmost find prev rest segs tail /\
    rest = pieces_text segs tail /\
    sub_loop find repl st prev rest 0 = pieces_sub repl st segs tail.
Proof.
  induction n as [|n IH]; intros rest Hlen st prev.
  - destruct rest; [|simpl in Hlen; lia]. cbn [sub_loop].
    destruct (find prev [] false) as [m|] eqn:E.
    + apply progress in E. simpl in E. lia.
    + exists [], []. split; [|now split].
      constructor. intros a b Hab. symmetry in Hab.
      apply app_eq_nil in Hab as [-> ->]. exact E.
  - destruct rest as [|c rest].
    { apply (IH []); simpl; lia. }
    cbn [sub_loop]. destruct (find prev (c :: rest) false) as [[|k]|] eqn:E.
    + apply progress in E. lia.
    + destruct (progress E) as [_ Hk].
      destruct (repl st (firstn (S k) (c :: rest))) as [new st1] eqn:Er.
      simpl in Hk, Hlen.
      rewrite sub_loop_skip by lia.
      destruct (IH (skipn k rest)) with (st := st1)
        (prev := prev_after (Some c) (firstn k rest)) as (segs & tail & Hl & Ht & Hs).
      { rewrite length_skipn. lia. }
      exists (([], firstn (S k) (c :: rest)) :: segs), tail. split; [|split].
      * econstructor.
        -- cbn [app]. change (c :: rest) with ([] ++ c :: rest) at 1.
           now rewrite <- (firstn_skipn (S k) (c :: rest)) at 1.
        -- intros a b Hab Hb. symmetry in Hab.
           apply app_eq_nil in Hab as [_ ->]. contradiction.
        -- change (prev_after prev []) with prev.
           rewrite firstn_skipn, length_firstn. simpl.
           now replace (Nat.min k (List.length rest)) with k by lia.
        -- discriminate.
        -- cbn [app firstn]. rewrite prev_after_cons. exact Hl.
      * cbn [pieces_text app]. rewrite <- Ht.
        change (skipn k rest) with (skipn (S k) (c :: rest)).
        now rewrite firstn_skipn.
      * cbn [pieces_sub app]. rewrite Er, Hs.
        now destruct (pieces_sub repl st1 segs tail).
    + destruct (IH rest) with (st := st) (prev := Some c)
        as (segs & tail & Hl & Ht & Hs).
      { simpl in Hlen. lia. }
      destruct (leftmost_cons E Hl) as (segs' & tail' & Hl' & Ht' & Hs').
      exists segs', tail'. split; [exact Hl'|split].
      * now rewrite Ht', <- Ht.
      * rewrite Hs', Hs. now destruct (pieces_sub repl st segs tail).
Qed.

End SubLeftmost.

Lemma pieces_sub_const (new : str) (segs : pieces) (tail : str) (u : unit) :
  fst (pieces_sub (constant new) u segs tail)
  = pieces_text (map (fun seg => (fst seg, new)) segs) tail.
Proof.
  induction segs as [|[gap m] segs IH]; simpl; [reflexivity|].
  destruct (pieces_sub _ u segs tail) as [out u']. simpl in *. now rewrite IH.
Qed.

(** One rule, when its pattern cannot match the empty text: the text
    is cut at the leftmost matches and every match becomes the
    marker. *)
Lemma re_sub_leftmost (pattern : re) (new text : str) :
  0 < min_len pattern ->
  exists segs tail,
    leftmost (match_here true pattern) None text segs tail /\
    text = pieces_text segs tail /\
    re_sub pattern new text
    = pieces_text (map (fun seg => (fst seg, new)) segs) tail.
Proof.
  intro Hmin.
  destruct (@sub_loop_leftmost unit (match_here true pattern) (constant new)) with
    (n := List.length text) (rest := text) (st := tt) (prev := @None ascii)
    as (segs & tail & Hl & Ht & Hs).
  - intros prev rest adv n H. apply match_here_sound in H. lia.
  - lia.
  - exists segs, tail. split; [exact Hl|split; [exact Ht|]].
    unfold re_sub, re_sub_fn. rewrite Hs. apply pieces_sub_const.
Qed.

(** ** Matching does not look at the case of a letter *)

Lemma upper_char_cases (c : ascii) :
  upper_char c = c \/ (upper_char c = swapcase c /\ swapcase (swapcase c) = c).
Proof.
  destruct c as [[] [] [] [] [] [] [] []];
    first [left; reflexivity | right; split; reflexivity].
Qed.

Lemma is_word_upper (c : ascii) : is_word (upper_char c) = is_word c.
Proof. destruct c as [[] [] [] [] [] [] [] []]; reflexivity. Qed.

Lemma atom_match_upper (a : atom) (c : ascii) :
  atom_match true a (upper_char c) = atom_match true a c.
Proof.
  destruct (upper_char_cases c) as [->|[-> H]]; [reflexivity|].
  unfold atom_match. rewrite H. cbn [andb]. apply orb_comm.
Qed.

Lemma word_before_upper (prev : option ascii) :
  word_before (option_map upper_char prev) = word_before prev.
Proof. destruct prev; [apply is_word_upper|reflexivity]. Qed.

Lemma word_after_upper (rest : str) : word_after (upper rest) = word_after rest.
Proof. destruct rest; [reflexivity|apply is_word_upper]. Qed.

Lemma rep_atom_upper (a : atom) (rest : str) :
  forall lo hi prev n k k', same_upto_case k k' ->
  rep_atom true a lo hi (option_map upper_char prev) (upper rest) n k'
  = rep_atom true a lo hi prev rest n k.
Proof.
  unfold same_upto_case, upper.
  induction rest as [|c rest IH]; intros lo hi prev n k k' Hk.
  - pose proof (Hk prev [] n) as H0. cbn [map] in *. cbn [rep_atom].
    now rewrite H0.
  - pose proof (Hk prev (c :: rest) n) as H0. cbn [map] in *. cbn [rep_atom].
    pose proof (IH (pred lo) (option_map pred hi) (Some c) (S n) k k' Hk) as H1.
    cbn [option_map] in H1. now rewrite atom_match_upper, H0, H1.
Qed.

Lemma re_match_upper (r : re) :
  forall prev rest n k k', same_upto_case k k' ->
  re_match true r (option_map upper_char prev) (upper rest) n k'
  = re_match true r prev rest n k.
Proof.
  induction r as [| a | | r1 IH1 r2 IH2 | r1 IH1 r2 IH2 | r1 IH1 | a lo hi];
    intros prev rest n k k' Hk; cbn [re_match].
  - apply Hk.
  - destruct rest as [|c rest]; [reflexivity|]. unfold upper. cbn [map].
    rewrite atom_match_upper. destruct (atom_match true a c); [|reflexivity].
    apply (Hk (Some c) rest (S n)).
  - rewrite word_before_upper, word_after_upper.
    destruct (xorb _ _); [apply Hk|reflexivity].
  - apply IH1. intros p s m. now apply IH2.
  - rewrite (IH1 prev rest n k k' Hk), (IH2 prev rest n k k' Hk). reflexivity.
  - rewrite (IH1 prev rest n k k' Hk), (Hk prev rest n). reflexivity.
  - now apply rep_atom_upper.
Qed.

Lemma match_here_upper (r : re) prev rest adv :
  match_here true r (option_map upper_char prev) (upper rest) adv
  = match_here true r prev rest adv.
Proof. apply re_match_upper. intros p s m. reflexivity. Qed.

Section SubCase.

Variable find : option ascii -> str -> bool -> option nat.
Variable new : str.

Hypothesis find_upper :
  forall prev rest adv,
  find (option_map upper_char prev) (upper rest) adv = find prev rest adv.
Hypothesis new_upper : upper new = new.

Lemma sub_loop_upper (rest : str) :
  forall skip prev,
  fst (sub_loop find (constant new) tt (option_map upper_char prev) (upper rest) skip)
  = upper (fst (sub_loop find (constant new) tt prev rest skip)).
Proof.
  assert (map upper_char new = new) as Hnew by exact new_upper.
  unfold constant, upper.
  induction rest as [|c rest IH]; intros skip prev.
  - destruct skip as [|k]; [|reflexivity].
    pose proof (find_upper prev [] false) as F1.
    pose proof (find_upper prev [] true) as F2.
    unfold upper in F1, F2. cbn [map] in F1, F2.
    cbn [map sub_loop]. rewrite F1, F2.
    destruct (find prev [] false) as [[|j]|]; [| |reflexivity].
    + destruct (find prev [] true) as [[|j]|]; cbn [fst];
        rewrite ?map_app; now rewrite ?Hnew.
    + cbn [fst]. now rewrite Hnew.
  - destruct skip as [|k].
    + pose proof (find_upper prev (c :: rest) false) as F1.
      pose proof (find_upper prev (c :: rest) true) as F2.
      pose proof (fun k => IH k (Some c)) as IH'.
      unfold upper in F1, F2. cbn [map option_map] in F1, F2, IH'.
      cbn [map sub_loop]. rewrite F1, F2.
      destruct (find prev (c :: rest) false) as [[|j]|].
      * destruct (find prev (c :: rest) true) as [[|j]|].
        -- both_runs IH' 0. rewrite map_app, Hnew. reflexivity.
        -- both_runs IH' j. rewrite !map_app, Hnew. reflexivity.
        -- both_runs IH' 0. rewrite map_app, Hnew. reflexivity.
      * both_runs IH' j. rewrite map_app, Hnew. reflexivity.
      * both_runs IH' 0. reflexivity.
    + cbn [map sub_loop]. apply (IH k (Some c)).
Qed.

End SubCase.

Lemma re_sub_upper (pattern : re) (new text : str) :
  upper new = new ->
  re_sub pattern new (upper text) = upper (re_sub pattern new text).
Proof.
  intro Hn. unfold re_sub, re_sub_fn.
  apply (@sub_loop_upper (match_here true pattern) new
           (match_here_upper pattern) Hn text 0 None).
Qed.

(** ** The rule stage *)

Lemma rule_catalog_min_len : forallb (fun p => (0 <? min_len p)%nat) rule_catalog = true.
Proof. reflexivity. Qed.

Lemma apply_rules_upper (text : str) : apply_rules (upper text) = upper (apply_rules text).
Proof.
  unfold apply_rules. now rewrite !re_sub_upper by reflexivity.
Qed.

(** ** What the shield records *)

Lemma leftmost_matches (find : option ascii -> str -> bool -> option nat)
    (P : str -> Prop) :
  (forall prev rest adv n, find prev rest adv = Some n -> P (firstn n rest)) ->
  forall prev rest segs tail,
  leftmost find prev rest segs tail -> Forall (fun seg => P (snd seg)) segs.
Proof.
  intros HP prev rest segs tail H.
  induction H as [|prev rest gap m rest' segs tail Hr Hg Hm Hne Hl IH];
    constructor; [|exact IH].
  apply HP in Hm. cbn [snd]. now rewrite firstn_length_app in Hm.
Qed.

Lemma card_pattern_reads (c : ascii) :
  may_read true TEMP_CREDIT_CARD_IGNORE_PATTERN c = true -> card_char c = true.
Proof.
  destruct c as [[] [] [] [] [] [] [] []]; vm_compute; intro H;
    first [reflexivity | discriminate H].
Qed.

(** Every literal the shield records is made of digits, spaces and
    hyphens, thirteen of them at least. *)
Lemma shield_literals (text : str) :
  Forall (fun m => forallb card_char m = true /\ 13 <= List.length m)
    (snd (shield text)).
Proof.
  unfold shield, re_sub_fn.
  destruct (@sub_loop_leftmost (list str)
              (match_here true TEMP_CREDIT_CARD_IGNORE_PATTERN) cc_match_replacer)
    with (n := List.length text) (rest := text) (st := @nil str) (prev := @None ascii)
    as (segs & tail & Hl & Ht & Hs).
  - intros prev rest adv n H. apply match_here_sound in H.
    change (min_len TEMP_CREDIT_CARD_IGNORE_PATTERN) with 13 in H. lia.
  - lia.
  - rewrite Hs, shield_pieces_snd. cbn [app].
    apply Forall_map.
    apply (@leftmost_matches _
             (fun m => forallb card_char m = true /\ 13 <= List.length m)) in Hl;
      [exact Hl|].
    intros prev rest adv n H. apply match_here_sound in H as (H1 & H2 & H).
    change (min_len TEMP_CREDIT_CARD_IGNORE_PATTERN) with 13 in H1. split.
    + eapply forallb_weaken; [|exact H]. apply card_pattern_reads.
    + rewrite length_firstn. lia.
Qed.

Lemma card_chars_no_token (m : str) (k : nat) :
  forallb card_char m = true -> contains (placeholder k) m = false.
Proof.
  intro H. apply no_at_contains; [apply at_in_placeholder|].
  rewrite forallb_forall in H. apply Forall_forall. intros c Hc Heq.
  subst c. now specialize (H _ Hc).
Qed.

(** Neither a recorded literal nor the sentinel holds a token. *)
Lemma replacements_hold_no_token (text : str) (k : nat) :
  Forall (fun m => contains (placeholder k) m = false) (snd (shield text))
  /\ contains (placeholder k) UNEXPECTED = false.
Proof.
  split.
  - eapply Forall_impl; [|apply shield_literals].
    intros m [Hm _]. now apply card_chars_no_token.
  - apply no_at_contains; [apply at_in_placeholder|]. now apply Forall_no_at_dec.
Qed.

(** ** The strings of test_scrubbing.py, without a recognizer *)

Example test_street :
  scrub_text "Visit us at 123 Main Street for more info."
  = gives "*** for more info.".
Proof. vm_compute. reflexivity. Qed.

Example test_po_box :
  scrub_text "Please send mail to PO Box 12345, Anytown."
  = gives "Please send mail to ***, Anytown.".
Proof. vm_compute. reflexivity. Qed.

Example test_general_delivery :
  scrub_text "Use General Delivery 500 for packages."
  = gives "Use *** for packages.".
Proof. vm_compute. reflexivity. Qed.

Example test_card_hyphens :
  scrub_text "My Card is 1234-5678-9012-3456, thanks."
  = gives "My Card is 1234-5678-9012-3456, thanks.".
Proof. vm_compute. reflexivity. Qed.

Example test_card_digits :
  scrub_text "Charge it to Visa 9876543210987654."
  = gives "Charge it to Visa 9876543210987654.".
Proof. vm_compute. reflexivity. Qed.

Example test_amex :
  scrub_text "AMEX card: 3742-123456-12345."
  = gives "AMEX card: 3***-12345.".
Proof. vm_compute. reflexivity. Qed.

Example test_birthday :
  scrub_text "Her birthday is 05/10/1985."
  = gives "Her birthday is ***.".
Proof. vm_compute. reflexivity. Qed.

Example test_email :
  scrub_text "Contact support@example.com for help."
  = gives "Contact *** for help.".
Proof. vm_compute. reflexivity. Qed.

Example test_phones :
  scrub_text "Call us at (555) 123-4567 or 555.987.6543."
  = gives "Call us at (***7 or ***3.".
Proof. vm_compute. reflexivity. Qed.

Example test_sin :
  scrub_text "My SIN is 123 456 789."
  = gives "My SIN is ***.".
Proof. vm_compute. reflexivity. Qed.

Example test_passport :
  scrub_text "Passport number: AB123456."
  = gives "Passport number: ***.".
Proof. vm_compute. reflexivity. Qed.

Example test_plain :
  scrub_text "This is a test sentence with no sensitive data."
  = gives "This is a test sentence with no sensitive data.".
Proof. vm_compute. reflexivity. Qed.

(** * The claims *)

(** C1, as stated, fails: a recognizer span over the placeholder token
    removes it, and the card is not in the output. *)
Lemma card_lost_to_recognizer :
  scrub_pii 5 (Some labels_token) (VStr card_text)
  = Ret (VStr (lit "My Card is ***, thanks.")) /\
  contains card (lit "My Card is ***, thanks.") = false.
Proof. vm_compute. split; reflexivity. Qed.

(** C1, amended: for the input ["My Card is 1234-5678-9012-3456,
    thanks."] the output of [scrub_pii] contains the card verbatim,
    whatever the nine rules do, when the recognizer is absent, raises,
    or returns well-formed spans (in range, not empty, pairwise
    disjoint) none of which touches the placeholder token, which
    stands at offsets 11 to 36 of the text it is given. *)
Theorem card_preserved (fuel : nat) (nlp : option recognizer) :
  2 <= fuel ->
  recognizer_spares nlp card_shielded 11 36 ->
  exists out,
    scrub_pii fuel nlp (VStr card_text) = Ret (VStr out) /\
    contains card out = true.
Proof.
  intros Hf Hn.
  assert (Forall no_at (lit "My Card is ")) as QL by now apply Forall_no_at_dec.
  assert (Forall no_at (lit ", thanks.")) as QR by now apply Forall_no_at_dec.
  assert (Forall no_at card) as Qc by now apply Forall_no_at_dec.
  assert (Forall no_at MARKER) as Qm by now apply Forall_no_at_dec.
  assert (forall A B, Forall no_at A -> Forall no_at B ->
            exists out,
              (text <- Ret (A ++ placeholder 0 ++ B) ;;
               text <- restore_loop fuel [card] text 0 ;; Ret (VStr text))
              = Ret (VStr out) /\ contains card out = true) as Hgo.
  { intros A B QA QB. exists (A ++ card ++ B). cbn [bind].
    rewrite restore_single by assumption. split; [reflexivity|].
    apply contains_iff. now exists A, B. }
  unfold scrub_pii. change (isna (VStr card_text)) with false. cbv iota.
  change (str_of_value (VStr card_text)) with card_text.
  rewrite card_shield, card_rules.
  destruct nlp as [f|]; [|now apply (Hgo (lit "My Card is ") (lit ", thanks."))].
  unfold recognizer_spares in Hn. unfold entity_stage, call.
  destruct (f card_shielded) as [ents|e]; cbn [bind try_except].
  - destruct Hn as [Hok Hav]. rewrite (scrub_spans_splice _ _ Hok).
    apply spans_ok_Forall in Hok as [Hs Hd].
    destruct (@splice_from_avoid no_at card_shielded Qm 11 36
                (sort_asc (collect_entities card_shielded ents)))
      with (pos := 0) as (A & B & E & QA & QB).
    + lia.
    + vm_compute. lia.
    + exact QL.
    + exact QR.
    + lia.
    + now apply sort_asc_chain.
    + unfold spans_avoid in *. apply forallb_forall.
      apply Forall_forall, sort_asc_Forall, Forall_forall.
      now apply forallb_forall.
    + unfold splice. rewrite E.
      change (skipn 11 (firstn 36 card_shielded)) with (placeholder 0).
      now apply Hgo.
  - now apply (Hgo (lit "My Card is ") (lit ", thanks.")).
Qed.

Lemma card_preserved_witness :
  exists out,
    scrub_pii 2 (Some labels_words) (VStr card_text) = Ret (VStr out) /\
    contains card out = true.
Proof.
  apply (@card_preserved 2 (Some labels_words)).
  - lia.
  - split; reflexivity.
Defined.

(** C2, as stated, fails: a text that spells a placeholder token itself
    comes back with the token replaced by the sentinel. *)
Lemma shield_restore_not_identity :
  shield marker_text = (marker_text, []) /\
  restore_loop 2 (snd (shield marker_text)) (fst (shield marker_text)) 0
  = Ret (lit "[UNEXPECTED_CC_PLACEHOLDER]") /\
  str_eqb (lit "[UNEXPECTED_CC_PLACEHOLDER]") marker_text = false.
Proof. vm_compute. repeat split. Qed.

(** C2, amended: for every text that does not contain the marker
    ["@@TEMP_CC_PLACEHOLDER_"], shielding the text and then running the
    restore loop on the shielded text with the recorded matches gives
    the text back, on any fuel above the number of matches. *)
Theorem shield_restore_roundtrip (x : str) (fuel : nat) :
  contains PLACEHOLDER_HEAD x = false ->
  List.length (snd (shield x)) < fuel ->
  restore_loop fuel (snd (shield x)) (fst (shield x)) 0 = Ret x.
Proof.
  intros Hx Hf. unfold shield in *.
  destruct (re_sub_fn_pieces TEMP_CREDIT_CARD_IGNORE_PATTERN cc_match_replacer [] x)
    as (segs & tail & Ht & Hs).
  rewrite Hs in *. rewrite shield_pieces_snd in *. simpl in Hf.
  rewrite length_map in Hf. rewrite Ht in Hx |- *.
  exact (restore_pieces segs tail Hx Hf).
Qed.

Lemma shield_restore_roundtrip_witness :
  contains PLACEHOLDER_HEAD two_cards = false /\
  List.length (snd (shield two_cards)) < 3 /\
  restore_loop 3 (snd (shield two_cards)) (fst (shield two_cards)) 0 = Ret two_cards.
Proof.
  assert (H1 : contains PLACEHOLDER_HEAD two_cards = false) by reflexivity.
  assert (H2 : List.length (snd (shield two_cards)) < 3) by (vm_compute; lia).
  exact (conj H1 (conj H2 (shield_restore_roundtrip two_cards H1 H2))).
Defined.

(** C3, as stated, fails: once the token of index 0 is gone the loop
    stops, and the token of index 1 stays in the output in place of the
    second card. *)
Lemma restore_gives_up_after_gap :
  fst (shield two_card_text)
  = lit "A @@TEMP_CC_PLACEHOLDER_0@@ B @@TEMP_CC_PLACEHOLDER_1@@" /\
  scrub_pii 5 (Some eats_first_token) (VStr two_card_text)
  = Ret (VStr (lit "A *** B @@TEMP_CC_PLACEHOLDER_1@@")) /\
  restore_loop 5 [lit "1111222233334444"; lit "5555666677778888"]
    (lit "A *** B @@TEMP_CC_PLACEHOLDER_1@@") 0
  = Ret (lit "A *** B @@TEMP_CC_PLACEHOLDER_1@@").
Proof. vm_compute. repeat split. Qed.

(** C3, amended: the indices are tried in increasing order from 0; each
    token found is replaced once, at its leftmost occurrence, by the
    literal recorded for its index; the loop stops at the first index
    whose token the text does not hold, and the text from there on
    (tokens of greater indices included) is returned as it is.
    Here the text holds the tokens 0 .. k-1 the shield wrote for
    [segs], then [tail], and no token of index k. *)
Theorem restore_stops_at_first_missing (segs : pieces) (tail : str)
    (cc_rest : list str) (fuel : nat) :
  contains PLACEHOLDER_HEAD (pieces_text segs []) = false ->
  contains (placeholder (List.length segs)) (pieces_text segs tail) = false ->
  List.length segs < fuel ->
  restore_loop fuel (map snd segs ++ cc_rest)
    (fst (pieces_sub cc_match_replacer [] segs tail)) 0
  = Ret (pieces_text segs tail).
Proof.
  intros Hx Hk Hf.
  exact (restore_prefix segs [] [] cc_rest tail Hx Hk Hf).
Qed.

Lemma restore_stops_at_first_missing_witness :
  fst (pieces_sub cc_match_replacer [] one_piece later_token)
  = lit "a @@TEMP_CC_PLACEHOLDER_0@@ b *** c @@TEMP_CC_PLACEHOLDER_2@@" /\
  restore_loop 2 (map snd one_piece ++ [lit "2222"; lit "3333"])
    (fst (pieces_sub cc_match_replacer [] one_piece later_token)) 0
  = Ret (lit "a 1111222233334444 b *** c @@TEMP_CC_PLACEHOLDER_2@@").
Proof.
  split; [reflexivity|].
  apply (@restore_stops_at_first_missing one_piece later_token
           [lit "2222"; lit "3333"] 2).
  - reflexivity.
  - reflexivity.
  - simpl. lia.
Defined.

(** C4, on a failing input: a hundred and one cards.  The shield
    writes the token of index 100 for the last card; the
    SIN rule then reads ["100"], the text up to ["123"], and ["456"] as
    three groups of three digits and rewrites them; the token is gone
    after the rule stage and the last card is not in the output. *)
Lemma token_rewritten_by_sin_rule :
  List.length (snd (shield many_cards)) = 101 /\
  contains (placeholder 100) (fst (shield many_cards)) = true /\
  contains (placeholder 100) (apply_rules (fst (shield many_cards))) = false /\
  contains (lit "@@TEMP_CC_PLACEHOLDER_***")
    (apply_rules (fst (shield many_cards))) = true /\
  match scrub_pii 200 None (VStr many_cards) with
  | Ret (VStr out) =>
    count_char "4"%char out = 400 /\ contains (lit "@@TEMP_CC_PLACEHOLDER_***") out = true
  | _ => False
  end.
Proof. vm_compute. repeat split. Qed.

(** C5: a token found at an index with no recorded match is replaced,
    at its leftmost occurrence, by the sentinel
    ["[UNEXPECTED_CC_PLACEHOLDER]"], which is not the redaction marker;
    no recorded literal is written, and the loop goes on to the next
    index. *)
Theorem restore_unexpected (fuel : nat) (cc_matches : list str) (text : str)
    (idx i : nat) :
  List.length cc_matches <= idx ->
  index_of (placeholder idx) text = Some i ->
  restore_loop (S fuel) cc_matches text idx
  = restore_loop fuel cc_matches
      (firstn i text ++ lit "[UNEXPECTED_CC_PLACEHOLDER]"
         ++ skipn (i + List.length (placeholder idx)) text) (idx + 1)
  /\ str_eqb (lit "[UNEXPECTED_CC_PLACEHOLDER]") MARKER = false.
Proof.
  intros Hlen Hi. split; [|reflexivity].
  cbn [restore_loop]. rewrite index_of_contains, Hi.
  assert ((idx <? List.length cc_matches)%nat = false) as ->
    by now apply Nat.ltb_ge.
  now rewrite replace_one_index, Hi.
Qed.

Lemma restore_unexpected_witness :
  restore_loop 3 [lit "1111222233334444"] stray_token 1
  = Ret (lit "x [UNEXPECTED_CC_PLACEHOLDER] y @@TEMP_CC_PLACEHOLDER_1@@").
Proof.
  assert (H1 : List.length [lit "1111222233334444"] <= 1) by (simpl; lia).
  assert (H2 : index_of (placeholder 1) stray_token = Some 2) by reflexivity.
  destruct (restore_unexpected 2 [lit "1111222233334444"] stray_token H1 H2) as [H _].
  rewrite H. reflexivity.
Defined.

(** C6: the rule stage runs nine substitutions, in this order: postal
    code, passport, SIN, first phone shape, second phone shape, email,
    date of birth, PO box, street address; each works on the text the
    one before it produced; each cuts its text at the leftmost matches
    of its pattern, one after the other without overlap, leaves no
    match in the gaps, and writes the marker ["***"] for every match;
    the case of the letters does not change what is replaced. *)
Theorem rules_in_catalog_order (text : str) :
  apply_rules text
  = fold_left (fun t p => re_sub p MARKER t)
      [POSTAL_CODE_PATTERN; PASSPORT_PATTERN; SIN_PATTERN; PHONE_PATTERN_1;
       PHONE_PATTERN_2; EMAIL_PATTERN; DOB_PATTERN; PO_BOX_PATTERN;
       ADDRESS_PATTERN] text
  /\ (forall p t, In p rule_catalog ->
        exists segs tail,
          leftmost (match_here true p) None t segs tail /\
          t = pieces_text segs tail /\
          re_sub p (lit "***") t
          = pieces_text (map (fun seg => (fst seg, lit "***")) segs) tail)
  /\ apply_rules (upper text) = upper (apply_rules text).
Proof.
  split; [reflexivity|split; [|apply apply_rules_upper]].
  intros p t Hp. apply re_sub_leftmost.
  pose proof rule_catalog_min_len as H. rewrite forallb_forall in H.
  apply Nat.ltb_lt. now apply H.
Qed.

(** C7: for every buffer and every set of non-overlapping spans of it,
    replacing each span's range with the marker in descending order of
    start gives the text the reference splice builds from the cut
    points in ascending order. *)
Theorem descending_rewrite_is_splice (text : str)
    (spans : list (nat * nat * string)) :
  spans_ok text spans = true ->
  scrub_spans text (sort_desc spans) = splice text spans.
Proof. exact (scrub_spans_splice text spans). Qed.

Lemma descending_rewrite_is_splice_witness :
  spans_ok greeting [(5, 13, "PERSON"); (26, 32, "GPE")] = true /\
  scrub_spans greeting (sort_desc [(5, 13, "PERSON"); (26, 32, "GPE")])
  = lit "Dear ***, welcome to ***, bye.".
Proof.
  split; [reflexivity|].
  rewrite (@descending_rewrite_is_splice greeting
             [(5, 13, "PERSON"); (26, 32, "GPE")] eq_refl).
  reflexivity.
Defined.

(** C8: when the recognizer raises, [scrub_pii] does what it does with
    no recognizer loaded and what it does when no entity is found: the
    rules are applied, the tokens restored; no exception leaves the
    call, and with enough fuel the call returns a string. *)
Theorem recognizer_failure_contained (nlp : recognizer) (v : value) (e : exn) :
  isna v = false ->
  nlp (apply_rules (fst (shield (str_of_value v)))) = Fails e ->
  (forall fuel, scrub_pii fuel (Some nlp) v = scrub_pii fuel None v)
  /\ (forall fuel,
        scrub_pii fuel (Some nlp) v = scrub_pii fuel (Some (fun _ => Doc [])) v)
  /\ (forall fuel e', scrub_pii fuel (Some nlp) v <> Raise e')
  /\ exists n out,
       forall fuel, n <= fuel -> scrub_pii fuel (Some nlp) v = Ret (VStr out).
Proof.
  intros Hv Hf.
  assert (before_restore (Some nlp) (str_of_value v)
          = before_restore None (str_of_value v)) as Hb
    by (unfold before_restore; now rewrite Hf).
  repeat split.
  - intro fuel. now rewrite !scrub_pii_restore, Hb.
  - intro fuel. now rewrite !scrub_pii_restore, Hb.
  - intros fuel e'. rewrite scrub_pii_restore by exact Hv.
    destruct (restore_loop fuel _ _ 0) eqn:E; try discriminate.
    now apply restore_loop_no_raise in E.
  - set (t0 := before_restore (Some nlp) (str_of_value v)).
    set (cc := snd (shield (str_of_value v))).
    set (n := S (count_char "@"%char t0 + count_char "@"%char (List.concat cc))).
    destruct (@restore_loop_ends n cc t0 0) as (out & k & Hr & _ & Hk).
    { subst n. simpl. lia. }
    exists n, out. intros fuel Hfu. rewrite scrub_pii_restore by exact Hv.
    fold t0 cc. replace fuel with (n + (fuel - n)) by lia.
    now rewrite (@restore_loop_more_fuel n cc t0 0 out (fuel - n) Hr).
Qed.

Lemma recognizer_failure_contained_witness :
  scrub_pii 3 (Some always_fails) (VStr help_text)
  = Ret (VStr (lit "Contact *** about card 4444333322221111.")).
Proof.
  destruct (@recognizer_failure_contained always_fails (VStr help_text)
              "ValueError" eq_refl eq_refl) as (H & _).
  rewrite H. vm_compute. reflexivity.
Defined.

(** C9: a missing value comes back as it is, whatever the recognizer
    and the fuel: it is not turned into text and no stage runs. *)
Theorem missing_value_unchanged (fuel : nat) (nlp : option recognizer) (v : value) :
  isna v = true -> scrub_pii fuel nlp v = Ret v.
Proof. intro H. unfold scrub_pii. now rewrite H. Qed.

Lemma missing_value_unchanged_witness :
  scrub_pii 0 (Some always_fails) VNaN = Ret VNaN.
Proof. exact (@missing_value_unchanged 0 (Some always_fails) VNaN eq_refl). Defined.

(** C10: for every string input [scrub_pii] ends and returns a string,
    once the fuel covers the iterations of the restore loop: every
    iteration that finds a token removes one occurrence of it, writes a
    recorded literal or the sentinel (neither holds a token) and moves
    to the next index, and the loop leaves at an index whose token the
    text does not hold. *)
Theorem scrub_pii_terminates (nlp : option recognizer) (text : str) :
  (exists n out k,
     (forall fuel, n <= fuel -> scrub_pii fuel nlp (VStr text) = Ret (VStr out))
     /\ contains (placeholder k) out = false)
  /\ (forall k,
        Forall (fun m => contains (placeholder k) m = false) (snd (shield text))
        /\ contains (placeholder k) UNEXPECTED = false).
Proof.
  split; [|intro k; apply replacements_hold_no_token].
  set (t0 := before_restore nlp text).
  set (cc := snd (shield text)).
  set (n := S (count_char "@"%char t0 + count_char "@"%char (List.concat cc))).
  destruct (@restore_loop_ends n cc t0 0) as (out & k & Hr & _ & Hk).
  { subst n. simpl. lia. }
  exists n, out, k. split; [|exact Hk].
  intros fuel Hf. rewrite scrub_pii_restore by reflexivity.
  change (str_of_value (VStr text)) with text. fold t0 cc.
  replace fuel with (n + (fuel - n)) by lia.
  now rewrite (@restore_loop_more_fuel n cc t0 0 out (fuel - n) Hr).
Qed.

(** * Further properties *)

(** What the shield records: every literal is a run of at least
    thirteen characters, each a digit, a space or a hyphen. *)
Theorem shield_records_card_characters (text : str) :
  Forall (fun m => forallb card_char m = true /\ 13 <= List.length m)
    (snd (shield text)).
Proof. apply shield_literals. Qed.

(** What the entity filter keeps: the entities labelled PERSON, ORG, GPE
    or LOC, but for those whose text, in capitals, is PII or DOB under
    one of the labels ORG, PERSON, PRODUCT, WORK_OF_ART, LAW, EVENT. *)
Theorem collect_entities_keeps (text : str) (ents : list ent)
    (t : nat * nat * string) :
  In t (collect_entities text ents) <->
  exists e,
    In e ents /\ t = (start_char e, end_char e, label_ e) /\
    label_in (label_ e) ["PERSON"; "ORG"; "GPE"; "LOC"] = true /\
    str_in (upper (ent_text text e)) ["PII"; "DOB"]
    && label_in (label_ e) ["ORG"; "PERSON"; "PRODUCT"; "WORK_OF_ART"; "LAW"; "EVENT"]
    = false.
Proof.
  induction ents as [|e ents IH]; cbn [collect_entities].
  - split; [contradiction|]. now intros (e & [] & _).
  - destruct (str_in (upper (ent_text text e)) ["PII"; "DOB"]
              && label_in (label_ e)
                   ["ORG"; "PERSON"; "PRODUCT"; "WORK_OF_ART"; "LAW"; "EVENT"]) eqn:E1.
    + rewrite IH. split.
      * intros (x & Hx & H). exists x. split; [now right|exact H].
      * intros (x & [<-|Hx] & H1 & H2 & H3); [congruence|].
        exists x. now repeat split.
    + destruct (label_in (label_ e) ["PERSON"; "ORG"; "GPE"; "LOC"]) eqn:E2.
      * cbn [In]. rewrite IH. split.
        -- intros [<-|(x & Hx & H)].
           ++ exists e. repeat split; [now left|exact E2|exact E1].
           ++ exists x. split; [now right|exact H].
        -- intros (x & [<-|Hx] & H1 & H2 & H3); [now left|].
           right. exists x. now repeat split.
      * rewrite IH. split.
        -- intros (x & Hx & H). exists x. split; [now right|exact H].
        -- intros (x & [<-|Hx] & H1 & H2 & H3); [congruence|].
           exists x. now repeat split.
Qed.

(** ** The copy in the test file *)

Lemma test_restore_loop_same (fuel : nat) :
  forall cc text idx,
  TestScrubbing.restore_loop fuel cc text idx = restore_loop fuel cc text idx.
Proof.
  induction fuel as [|fuel IH]; intros cc text idx; [reflexivity|].
  cbn [TestScrubbing.restore_loop restore_loop].
  change (lit "@@TEMP_CC_PLACEHOLDER_" ++ str_of_nat idx ++ lit "@@")
    with (placeholder idx).
  change (lit "[UNEXPECTED_CC_PLACEHOLDER]") with UNEXPECTED.
  destruct (contains (placeholder idx) text); [apply IH|reflexivity].
Qed.

Lemma test_ents_to_scrub_same (text : str) (ents : list ent) :
  collect_entities text ents
  = map (fun e => (start_char e, end_char e, label_ e))
      (TestScrubbing.ents_to_scrub text ents).
Proof.
  induction ents as [|e ents IH]; [reflexivity|].
  cbn [collect_entities TestScrubbing.ents_to_scrub].
  destruct (_ && _); [exact IH|].
  destruct (label_in _ _); [cbn [map]; now rewrite IH|exact IH].
Qed.

Lemma test_scrub_ents_same (l : list ent) (text : str) :
  fold_left TestScrubbing.scrub_ent l text
  = scrub_spans text (map (fun e => (start_char e, end_char e, label_ e)) l).
Proof.
  revert text. induction l as [|e l IH]; intro text; [reflexivity|].
  cbn [fold_left map scrub_spans]. now rewrite IH.
Qed.

(** Spans whose starts grow: sorting them by descending start reverses
    them. *)
Lemma sort_desc_ascending (l : list (nat * nat * string)) :
  ascending_starts l = true -> sort_desc l = rev l.
Proof.
  induction l as [|a l IH]; [reflexivity|].
  cbn [ascending_starts sort_desc fold_right rev]. intro H.
  apply andb_true_iff in H as [Ha Hl]. fold (sort_desc l). rewrite (IH Hl).
  apply insert_desc_end. apply Forall_rev, Forall_forall.
  rewrite forallb_forall in Ha. intros b Hb. apply Nat.ltb_lt. now apply Ha.
Qed.

(** The copy of [scrub_pii] in the test file returns what the module's
    [scrub_pii] returns, on every value, when the entities kept come in
    the order of their starts (as a recognizer reports them), and also
    when there is no recognizer or it raises. *)
Theorem test_copy_agrees (fuel : nat) (nlp : option recognizer) (v : value) :
  in_document_order nlp v = true ->
  TestScrubbing.scrub_pii fuel nlp v = scrub_pii fuel nlp v.
Proof.
  intro H. unfold TestScrubbing.scrub_pii, scrub_pii.
  destruct (isna v); [reflexivity|].
  change (re_sub_fn TestScrubbing.TEMP_CREDIT_CARD_IGNORE_PATTERN
            TestScrubbing.cc_match_replacer [] (str_of_value v))
    with (shield (str_of_value v)).
  unfold in_document_order in H.
  destruct (shield (str_of_value v)) as [shielded cc]. cbn [fst] in H.
  match goal with
  | |- context [re_sub TestScrubbing.ADDRESS_PATTERN (lit "***") ?t] =>
    change (re_sub TestScrubbing.ADDRESS_PATTERN (lit "***") t)
      with (apply_rules shielded)
  end.
  set (text := apply_rules shielded) in *.
  destruct nlp as [f|]; cbn [bind].
  - unfold TestScrubbing.entity_stage, entity_stage, call.
    destruct (f text) as [ents|e]; cbn [bind try_except].
    + rewrite test_scrub_ents_same, map_rev, <- test_ents_to_scrub_same.
      rewrite (sort_desc_ascending _ H). apply f_equal2; [|reflexivity].
      apply test_restore_loop_same.
    + apply f_equal2; [|reflexivity]. apply test_restore_loop_same.
  - apply f_equal2; [|reflexivity]. apply test_restore_loop_same.
Qed.

Lemma test_copy_agrees_witness :
  TestScrubbing.scrub_pii 3 (Some words_in_order) (VStr card_text)
  = scrub_pii 3 (Some words_in_order) (VStr card_text).
Proof.
  apply (@test_copy_agrees 3 (Some words_in_order) (VStr card_text)).
  reflexivity.
Defined.

(** Out of that order the two differ: the copy rewrites the earlier
    span first and then cuts at offsets that have moved. *)
Example test_copy_differs :
  TestScrubbing.scrub_pii 3 (Some later_first) (VStr visit_text)
  = Ret (VStr (lit "*** met B***"))
  /\ scrub_pii 3 (Some later_first) (VStr visit_text)
     = Ret (VStr (lit "*** met ***.")).
Proof. vm_compute. split; reflexivity. Qed.

(** ** The rule stage and the entity stage write markers only *)

Lemma contains_nil_any (w text : str) :
  contains w [] = true -> contains w text = true.
Proof. intro H. exact (contains_app_l w [] text H). Qed.

Lemma contains_across (c : ascii) (w a b : str) :
  ~ In c w -> contains w (a ++ c :: b) = true ->
  contains w a = true \/ contains w b = true.
Proof.
  intro Hc. induction a as [|x a IH]; cbn [app];
    rewrite contains_unfold, orb_true_iff.
  - intros [H|H]; [left|now right].
    rewrite contains_unfold. apply orb_true_iff. left.
    exact (@starts_with_stops c w [] b Hc H).
  - intros [H|H].
    + left. rewrite contains_unfold. apply orb_true_iff. left.
      exact (@starts_with_stops c w (x :: a) b Hc H).
    + destruct (IH H) as [Ha|Hb]; [left|now right].
      rewrite contains_unfold. apply orb_true_iff. now right.
Qed.

Lemma contains_across_marker (w a b : str) :
  ~ In "*"%char w -> contains w (a ++ MARKER ++ b) = true ->
  contains w a = true \/ contains w b = true.
Proof.
  intros Hc H.
  change (a ++ MARKER ++ b)
    with (a ++ "*"%char :: ([] ++ "*"%char :: ([] ++ "*"%char :: b))) in H.
  apply (@contains_across _ _ _ _ Hc) in H as [H|H]; [now left|].
  apply (@contains_across _ _ _ _ Hc) in H as [H|H];
    [left; now apply contains_nil_any|].
  apply (@contains_across _ _ _ _ Hc) in H as [H|H];
    [left; now apply contains_nil_any|now right].
Qed.

Lemma contains_marked_pieces (w : str) (segs : pieces) (tail : str) :
  ~ In "*"%char w ->
  contains w (pieces_text (map (fun seg => (fst seg, MARKER)) segs) tail) = true ->
  contains w (pieces_text segs tail) = true.
Proof.
  intro Hc. induction segs as [|[gap m] segs IH];
    cbn [map pieces_text fst]; [trivial|].
  intro H. apply contains_across_marker in H as [H|H]; trivial.
  - now apply contains_app_l.
  - apply contains_app_r, contains_app_r. now apply IH.
Qed.

Lemma re_sub_forges_nothing (p : re) (w text : str) :
  ~ In "*"%char w ->
  contains w (re_sub p MARKER text) = true -> contains w text = true.
Proof.
  intros Hc H. unfold re_sub in H.
  destruct (re_sub_fn_pieces p (constant MARKER) tt text) as (segs & tail & Ht & Hs).
  rewrite Hs, pieces_sub_const in H. rewrite Ht.
  now apply contains_marked_pieces.
Qed.

Lemma scrub_span_forges_nothing (w text : str) (t : nat * nat * string) :
  ~ In "*"%char w ->
  contains w (scrub_span text t) = true -> contains w text = true.
Proof.
  intros Hc H. unfold scrub_span in H.
  apply contains_across_marker in H as [H|H]; trivial.
  - rewrite <- (firstn_skipn (start_of t) text). now apply contains_app_l.
  - rewrite <- (firstn_skipn (end_of t) text). now apply contains_app_r.
Qed.

Lemma scrub_spans_forges_nothing (w : str) (spans : list (nat * nat * string)) :
  ~ In "*"%char w ->
  forall text,
  contains w (scrub_spans text spans) = true -> contains w text = true.
Proof.
  intro Hc. induction spans as [|t spans IH]; intros text H; [exact H|].
  cbn [scrub_spans fold_left] in H. apply IH in H.
  now apply scrub_span_forges_nothing in H.
Qed.

(** The rule stage and the entity stage add no text of their own but
    the marker: a stretch of characters without an asterisk that
    stands in the text after either stage stood in the text before
    it.  So neither stage can write a placeholder token, or any word,
    that was not there. *)
Theorem stages_forge_nothing (w : str) :
  ~ In "*"%char w ->
  (forall text,
     contains w (apply_rules text) = true -> contains w text = true)
  /\ (forall nlp text out,
        entity_stage nlp text = Ret out ->
        contains w out = true -> contains w text = true).
Proof.
  intro Hc. split.
  - intros text H. unfold apply_rules in H.
    repeat apply (@re_sub_forges_nothing _ _ _ Hc) in H. exact H.
  - intros nlp text out H Hw. unfold entity_stage, call in H.
    destruct (nlp text) as [ents|e]; [|discriminate].
    cbn [bind] in H. injection H as <-.
    now apply scrub_spans_forges_nothing in Hw.
Qed.

Lemma stages_forge_nothing_witness :
  (forall text,
     contains (placeholder 0) (apply_rules text) = true ->
     contains (placeholder 0) text = true)
  /\ (forall nlp text out,
        entity_stage nlp text = Ret out ->
        contains (placeholder 0) out = true ->
        contains (placeholder 0) text = true).
Proof.
  apply (@stages_forge_nothing (placeholder 0)).
  vm_compute. intuition discriminate.
Defined.

(** ** Every rewrite of the rule stage shows *)

Lemma marked_pieces_length (segs : pieces) (tail : str) :
  Forall (fun seg => 5 <= List.length (snd seg)) segs ->
  List.length (pieces_text (map (fun seg => (fst seg, MARKER)) segs) tail)
    + 2 * List.length segs
  <= List.length (pieces_text segs tail).
Proof.
  induction 1 as [|[gap m] segs Hm Hs IH];
    cbn [map pieces_text fst snd List.length] in *; [lia|].
  rewrite !length_app. change (List.length MARKER) with 3. lia.
Qed.

Lemma re_sub_marks (p : re) : 5 <= min_len p -> marks (re_sub p MARKER).
Proof.
  intros Hp x.
  destruct (@re_sub_leftmost p MARKER x) as (segs & tail & Hl & Ht & Hs); [lia|].
  apply leftmost_matches with (P := fun m => 5 <= List.length m) in Hl.
  2:{ intros prev rest adv n H. apply match_here_sound in H as (H1 & H2 & _).
      rewrite length_firstn. lia. }
  rewrite Hs. subst x. destruct segs as [|[gap m] segs]; [now left|right].
  split.
  - cbn [map pieces_text fst]. apply contains_iff. now eexists _, _.
  - pose proof (marked_pieces_length tail Hl) as H.
    cbn [List.length] in H. lia.
Qed.

Lemma marks_compose (f g : str -> str) :
  marks f -> marks g -> marks (fun x => g (f x)).
Proof.
  intros Hf Hg x. destruct (Hf x) as [E|[E1 E2]]; [rewrite E; apply Hg|].
  destruct (Hg (f x)) as [E'|[E1' E2']].
  - rewrite E'. right. now split.
  - right. split; [exact E1'|lia].
Qed.

Lemma marks_fold (ps : list re) :
  Forall (fun p => 5 <= min_len p) ps ->
  marks (fun t => fold_left (fun t p => re_sub p MARKER t) ps t).
Proof.
  induction 1 as [|p ps Hp Hps IH].
  - intro x. now left.
  - exact (marks_compose (@re_sub_marks p Hp) IH).
Qed.

Lemma rule_catalog_reads_five : Forall (fun p => 5 <= min_len p) rule_catalog.
Proof. repeat constructor; vm_compute; lia. Qed.

(** The rule stage never rewrites in silence: either it returns its
    text as it is, or what it returns holds the marker ["***"] and is
    shorter than the text by two characters at least (every rule reads
    five characters or more for the three it writes). *)
Theorem rules_shorten_or_keep (text : str) :
  apply_rules text = text \/
  (contains MARKER (apply_rules text) = true /\
   List.length (apply_rules text) + 2 <= List.length text).
Proof. exact (marks_fold rule_catalog_reads_five text). Qed.

(** ** What the shield writes *)

Lemma shield_pieces_numbered (segs : pieces) (tail : str) :
  forall cc0,
  fst (pieces_sub cc_match_replacer cc0 segs tail)
  = numbered (List.length cc0) segs tail.
Proof.
  induction segs as [|[gap m] segs IH]; intro cc0; [reflexivity|].
  rewrite shield_pieces_fst, IH, length_app. cbn [numbered List.length].
  now rewrite Nat.add_1_r.
Qed.

(** The shield cuts the text at the leftmost matches of the card
    pattern, one after the other; it leaves the gaps as they are,
    writes the token of index i for the i-th match, counting from 0,
    and records the i-th match at index i of [cc_matches]. *)
Theorem shield_numbers_matches (text : str) :
  exists segs tail,
    leftmost (match_here true TEMP_CREDIT_CARD_IGNORE_PATTERN) None text segs tail /\
    text = pieces_text segs tail /\
    shield text = (numbered 0 segs tail, map snd segs).
Proof.
  unfold shield, re_sub_fn.
  destruct (@sub_loop_leftmost (list str)
              (match_here true TEMP_CREDIT_CARD_IGNORE_PATTERN) cc_match_replacer)
    with (n := List.length text) (rest := text) (st := @nil str) (prev := @None ascii)
    as (segs & tail & Hl & Ht & Hs).
  - intros prev rest adv n H. apply match_here_sound in H.
    change (min_len TEMP_CREDIT_CARD_IGNORE_PATTERN) with 13 in H. lia.
  - lia.
  - exists segs, tail. split; [exact Hl|split; [exact Ht|]].
    rewrite Hs, (surjective_pairing (pieces_sub _ _ _ _)).
    now rewrite shield_pieces_numbered, shield_pieces_snd.
Qed.

(** ** The characters a match cannot do without *)

Lemma all_ascii_all (c : ascii) : In c all_ascii.
Proof.
  unfold all_ascii. rewrite <- (ascii_nat_embedding c).
  apply in_map, in_seq. pose proof (nat_ascii_bounded c). lia.
Qed.

Lemma atom_within_sound (ic : bool) (q : ascii -> bool) (a : atom) (c : ascii) :
  atom_within ic q a = true -> atom_match ic a c = true -> q c = true.
Proof.
  unfold atom_within. rewrite forallb_forall. intros H Hm.
  specialize (H c (all_ascii_all c)). now rewrite Hm in H.
Qed.

Lemma count_of_app (q : ascii -> bool) (a b : str) :
  count_of q (a ++ b) = count_of q a + count_of q b.
Proof. unfold count_of. now rewrite filter_app, length_app. Qed.

Lemma count_of_cons (q : ascii -> bool) (c : ascii) (s : str) :
  count_of q (c :: s) = (if q c then 1 else 0) + count_of q s.
Proof. unfold count_of. simpl. now destruct (q c). Qed.

Lemma count_of_firstn (q : ascii -> bool) (n : nat) (s : str) :
  count_of q (firstn n s) <= count_of q s.
Proof.
  rewrite <- (firstn_skipn n s) at 2. rewrite count_of_app. lia.
Qed.

Lemma count_of_none (q : ascii -> bool) (s : str) :
  count_of q s = 0 -> Forall (fun c => q c = false) s.
Proof.
  induction s as [|c s IH]; [constructor|]. rewrite count_of_cons.
  destruct (q c) eqn:E; [discriminate|]. intro H. constructor; auto.
Qed.

Section Counts.

Variable ic : bool.
Variable q : ascii -> bool.

Lemma counted_nothing (r : re) prev rest n (k : kont) res :
  min_count ic q r = 0 -> k prev rest n = Some res ->
  counted ic q r prev rest n k res.
Proof.
  intros Hm Hk. exists 0. rewrite Hm, Nat.add_0_r. simpl.
  repeat split; [lia|lia|exact Hk].
Qed.

Lemma rep_atom_counts (a : atom) (rest : str) :
  forall lo hi prev n k res,
  rep_atom ic a lo hi prev rest n k = Some res ->
  counted ic q (Rep a lo hi) prev rest n k res.
Proof.
  induction rest as [|c rest IH]; intros lo hi prev n k res H.
  - assert (lo = 0 /\ k prev [] n = Some res) as [-> Hk].
    { simpl in H. destruct hi as [[|h]|], lo; try discriminate; now split. }
    apply counted_nothing; [|exact Hk]. cbn [min_count].
    now destruct (atom_within ic q a).
  - assert (forall stop, stop = match lo with 0 => k prev (c :: rest) n | S _ => None end ->
              stop = Some res -> counted ic q (Rep a lo hi) prev (c :: rest) n k res) as Hstop.
    { intros stop -> Hs. destruct lo; [|discriminate].
      apply counted_nothing; [|exact Hs]. cbn [min_count].
      now destruct (atom_within ic q a). }
    assert (hi = Some 0 \/ hi <> Some 0) as [->|Hhi]
      by (destruct hi as [[|h]|]; [now left|right..]; discriminate).
    { simpl in H. eapply Hstop; [reflexivity|exact H]. }
    assert (rep_atom ic a lo hi prev (c :: rest) n k
            = if atom_match ic a c then
                match rep_atom ic a (pred lo) (option_map pred hi) (Some c) rest (S n) k with
                | Some r => Some r
                | None => match lo with 0 => k prev (c :: rest) n | S _ => None end
                end
              else match lo with 0 => k prev (c :: rest) n | S _ => None end) as E.
    { destruct hi as [[|h]|]; [congruence|reflexivity|reflexivity]. }
    rewrite E in H. clear E.
    destruct (atom_match ic a c) eqn:Ea; [|eapply Hstop; [reflexivity|exact H]].
    destruct (rep_atom ic a (pred lo) (option_map pred hi) (Some c) rest (S n) k)
      as [r|] eqn:Er; [|eapply Hstop; [reflexivity|exact H]].
    injection H as ->.
    destruct (IH _ _ _ _ _ _ Er) as (j & H1 & H2 & H3).
    exists (S j). cbn [min_count firstn skipn List.length] in *.
    rewrite count_of_cons, prev_after_cons.
    replace (n + S j) with (S n + j) by lia.
    repeat split; [lia| |exact H3].
    destruct (atom_within ic q a) eqn:W; [|lia].
    rewrite (atom_within_sound _ _ _ _ W Ea). lia.
Qed.

Lemma re_match_counts (r : re) :
  forall prev rest n k res,
  re_match ic r prev rest n k = Some res -> counted ic q r prev rest n k res.
Proof.
  induction r as [| a | | r1 IH1 r2 IH2 | r1 IH1 r2 IH2 | r1 IH1 | a lo hi];
    intros prev rest n k res H; cbn [re_match] in H.
  - now apply counted_nothing.
  - destruct rest as [|c rest]; [discriminate|].
    destruct (atom_match ic a c) eqn:Ea; [|discriminate].
    exists 1. cbn [min_count firstn skipn List.length].
    rewrite count_of_cons, prev_after_cons, Nat.add_1_r.
    repeat split; [lia| |exact H].
    destruct (atom_within ic q a) eqn:W; [|lia].
    rewrite (atom_within_sound _ _ _ _ W Ea). cbn; lia.
  - destruct (xorb _ _); [|discriminate]. now apply counted_nothing.
  - destruct (IH1 _ _ _ _ _ H) as (j1 & A1 & A2 & A3).
    destruct (IH2 _ _ _ _ _ A3) as (j2 & B1 & B2 & B3).
    rewrite length_skipn in B1.
    exists (j1 + j2). cbn [min_count].
    rewrite firstn_plus, prev_after_app, count_of_app, Nat.add_assoc.
    rewrite (Nat.add_comm j1 j2), <- skipn_skipn.
    repeat split; [lia|lia|exact B3].
  - destruct (re_match ic r1 prev rest n k) as [x|] eqn:E1.
    + injection H as ->.
      destruct (IH1 _ _ _ _ _ E1) as (j & A1 & A2 & A3).
      exists j. cbn [min_count]. repeat split; [lia|lia|exact A3].
    + destruct (IH2 _ _ _ _ _ H) as (j & A1 & A2 & A3).
      exists j. cbn [min_count]. repeat split; [lia|lia|exact A3].
  - destruct (re_match ic r1 prev rest n k) as [x|] eqn:E1.
    + injection H as ->.
      destruct (IH1 _ _ _ _ _ E1) as (j & A1 & A2 & A3).
      exists j. cbn [min_count]. repeat split; [lia|lia|exact A3].
    + now apply counted_nothing.
  - now apply rep_atom_counts.
Qed.

(** A match holds as many [q] characters as the pattern asks. *)
Lemma match_here_counts (r : re) prev rest adv m :
  match_here ic r prev rest adv = Some m ->
  min_count ic q r <= count_of q (firstn m rest).
Proof.
  intro H. apply re_match_counts in H as (j & H1 & H2 & H3).
  cbn beta in H3. destruct (adv && (0 + j =? 0)%nat); [discriminate|].
  now injection H3 as <-.
Qed.

End Counts.

(** A text with fewer [q] characters than the pattern asks has no
    match: the substitution returns it, and calls nothing. *)
Lemma sub_without_enough (St : Type) (p : re) (fn : St -> str -> str * St)
    (st : St) (q : ascii -> bool) (text : str) :
  0 < min_len p -> count_of q text < min_count true q p ->
  re_sub_fn p fn st text = (text, st).
Proof.
  intros Hp Hc. unfold re_sub_fn.
  destruct (@sub_loop_leftmost St (match_here true p) fn)
    with (n := List.length text) (rest := text) (st := st) (prev := @None ascii)
    as (segs & tail & Hl & Ht & Hs).
  - intros prev rest adv n H. apply match_here_sound in H. lia.
  - lia.
  - rewrite Hs.
    apply leftmost_matches
      with (P := fun m => min_count true q p <= count_of q m) in Hl.
    2:{ intros prev rest adv n H. exact (@match_here_counts true q p prev rest adv n H). }
    destruct segs as [|[gap m] segs]; [now subst|].
    exfalso. inversion Hl as [|? ? Hm _]; subst. cbn [snd pieces_text] in *.
    rewrite !count_of_app in Hc. lia.
Qed.

Lemma re_sub_without_enough (p : re) (q : ascii -> bool) (new text : str) :
  0 < min_len p -> count_of q text < min_count true q p ->
  re_sub p new text = text.
Proof.
  intros Hp Hc. unfold re_sub.
  now rewrite (@sub_without_enough unit p (constant new) tt q text Hp Hc).
Qed.

Lemma shield_few_digits (text : str) :
  count_of is_digit text < 13 -> shield text = (text, []).
Proof.
  intro H. unfold shield. apply sub_without_enough with (q := is_digit).
  - vm_compute. lia.
  - exact H.
Qed.

(** A text with fewer than thirteen digits holds no card number for
    the shield: the text is left as it is and nothing is recorded. *)
Theorem shield_needs_thirteen_digits (text : str) :
  count_of is_digit text < 13 -> shield text = (text, []).
Proof. exact (@shield_few_digits text). Qed.

Lemma shield_needs_thirteen_digits_witness :
  shield (lit "call 613-555-0123 today") = (lit "call 613-555-0123 today", []).
Proof.
  apply (@shield_needs_thirteen_digits (lit "call 613-555-0123 today")).
  vm_compute. lia.
Defined.

Ltac no_match p q t H :=
  rewrite (@re_sub_without_enough p q MARKER t);
  [ | vm_compute; lia | rewrite H; vm_compute; lia ].

Lemma rules_on_letters (text : str) :
  count_of is_digit text = 0 ->
  count_char "@"%char text = 0 ->
  apply_rules text = re_sub ADDRESS_PATTERN MARKER text.
Proof.
  intros Hd Ha. change (count_of (ascii_eqb "@"%char) text = 0) in Ha.
  unfold apply_rules.
  no_match POSTAL_CODE_PATTERN is_digit text Hd.
  no_match PASSPORT_PATTERN is_digit text Hd.
  no_match SIN_PATTERN is_digit text Hd.
  no_match PHONE_PATTERN_1 is_digit text Hd.
  no_match PHONE_PATTERN_2 is_digit text Hd.
  no_match EMAIL_PATTERN (ascii_eqb "@"%char) text Ha.
  no_match DOB_PATTERN is_digit text Hd.
  no_match PO_BOX_PATTERN is_digit text Hd.
  reflexivity.
Qed.

(** On a text with no digit and no [@] eight of the nine rules find
    nothing: only the street-address rule can rewrite it. *)
Theorem rules_need_digits_or_at (text : str) :
  count_of is_digit text = 0 ->
  count_char "@"%char text = 0 ->
  apply_rules text = re_sub ADDRESS_PATTERN MARKER text.
Proof. exact (@rules_on_letters text). Qed.

Lemma rules_need_digits_or_at_witness :
  apply_rules (lit "we met on Main Street")
  = re_sub ADDRESS_PATTERN MARKER (lit "we met on Main Street").
Proof.
  apply (@rules_need_digits_or_at (lit "we met on Main Street")); reflexivity.
Defined.

(** A text with no digit, no [@] and fewer than two whitespace
    characters comes back from [scrub_pii] as it is, when the
    recognizer is absent, raises, or reports no entity the filter
    keeps: nothing in it can be taken for a card, a number, a date, an
    address or a mail address. *)
Theorem plain_text_unchanged (fuel : nat) (nlp : option recognizer) (text : str) :
  0 < fuel ->
  count_of is_digit text = 0 ->
  count_char "@"%char text = 0 ->
  count_of is_space text < 2 ->
  no_entities nlp text = true ->
  scrub_pii fuel nlp (VStr text) = Ret (VStr text).
Proof.
  intros Hf Hd Ha Hs Hn. unfold scrub_pii.
  change (isna (VStr text)) with false. cbv iota.
  change (str_of_value (VStr text)) with text.
  rewrite shield_few_digits by (rewrite Hd; lia).
  rewrite (@rules_on_letters text Hd Ha).
  rewrite (@re_sub_without_enough ADDRESS_PATTERN is_space MARKER text);
    [ | vm_compute; lia | eapply Nat.lt_le_trans; [exact Hs|vm_compute; lia] ].
  assert (restore_loop fuel [] text 0 = Ret text) as Hr.
  { destruct fuel as [|fuel]; [lia|]. cbn [restore_loop].
    rewrite no_at_contains; [reflexivity|apply at_in_placeholder|].
    apply count_of_none in Ha. eapply Forall_impl; [|exact Ha].
    intros c Hc. now apply ascii_eqb_neq in Hc; intros ->. }
  unfold no_entities in Hn. destruct nlp as [f|]; cbn [bind].
  - unfold entity_stage, call. destruct (f text) as [ents|e]; cbn [bind try_except].
    + destruct (collect_entities text ents); [|discriminate].
      cbn [sort_desc fold_right scrub_spans fold_left]. now rewrite Hr.
    + now rewrite Hr.
  - now rewrite Hr.
Qed.

Lemma plain_text_unchanged_witness :
  scrub_pii 1 (Some always_fails) (VStr (lit "Hello there!"))
  = Ret (VStr (lit "Hello there!")).
Proof.
  apply (@plain_text_unchanged 1 (Some always_fails) (lit "Hello there!"));
    try reflexivity; vm_compute; lia.
Defined.

(** ** The scrubbed column *)

Lemma scrub_pii_returns (nlp : option recognizer) (v : value) :
  isna v = false ->
  exists n s, forall fuel, n <= fuel -> scrub_pii fuel nlp v = Ret (VStr s).
Proof.
  intro Hv.
  set (t0 := before_restore nlp (str_of_value v)).
  set (cc := snd (shield (str_of_value v))).
  set (n := S (count_char "@"%char t0 + count_char "@"%char (List.concat cc))).
  destruct (@restore_loop_ends n cc t0 0) as (out & k & Hr & _ & Hk).
  { subst n. simpl. lia. }
  exists n, out. intros fuel Hf. rewrite scrub_pii_restore by exact Hv.
  fold t0 cc. replace fuel with (n + (fuel - n)) by lia.
  now rewrite (@restore_loop_more_fuel n cc t0 0 out (fuel - n) Hr).
Qed.

Lemma scrub_column_runs (nlp : option recognizer) (col : list value) :
  exists n out,
    (forall fuel, n <= fuel -> scrub_column fuel nlp col = Ret out) /\
    Forall2 scrubbed_cell col out.
Proof.
  induction col as [|v col (n & out & Hrun & Hcells)].
  - exists 0, []. split; [reflexivity|constructor].
  - destruct (isna v) eqn:Hv.
    + exists n, (v :: out). split.
      * intros fuel Hf. unfold scrub_column in *. cbn [apply_cells].
        unfold scrub_pii at 1. rewrite Hv. cbn [bind].
        now rewrite (Hrun fuel Hf).
      * constructor; [|exact Hcells]. unfold scrubbed_cell. now rewrite Hv.
    + destruct (scrub_pii_returns nlp v Hv) as (m & s & Hs).
      exists (Nat.max n m), (VStr s :: out). split.
      * intros fuel Hf. unfold scrub_column in *. cbn [apply_cells].
        rewrite Hs by lia. cbn [bind]. now rewrite Hrun by lia.
      * constructor; [|exact Hcells]. unfold scrubbed_cell. rewrite Hv.
        now exists s.
Qed.


Example scrub_mixed_column :
  scrub_column 2 None mixed_column
  = Ret [VStr card_text; VNaN; VStr (lit "42"); VStr (lit "mail ***"); VNone].
Proof. vm_compute. reflexivity. Qed.

(** ** The colours of the sessions *)

Lemma str_eqb_eq (a b : str) : str_eqb a b = true <-> a = b.
Proof.
  revert b. induction a as [|x a IH]; intros [|y b]; simpl;
    try (split; [discriminate|discriminate]); [now split|].
  rewrite andb_true_iff, ascii_eqb_eq, IH. split.
  - now intros [-> ->].
  - intros [= -> ->]. now split.
Qed.

Lemma same_key_eq (a b : value) :
  same_key a b = true <-> a = b /\ isna a = false.
Proof.
  destruct a, b; simpl; try (split; [discriminate|intros [H1 H2]; discriminate]).
  - rewrite Z.eqb_eq. split; [now intros ->|now intros [[= ->] _]].
  - rewrite str_eqb_eq. split; [now intros ->|now intros [[= ->] _]].
Qed.

Lemma same_key_refl (v : value) : isna v = false -> same_key v v = true.
Proof. intro H. now apply same_key_eq. Qed.

Lemma occurrences_pos (v : value) (col : list value) :
  0 < occurrences v col <-> In v col /\ isna v = false.
Proof.
  unfold occurrences. induction col as [|x col IH]; simpl.
  - split; [lia|now intros [[] _]].
  - destruct (same_key v x) eqn:E.
    + apply same_key_eq in E as [-> Hv]. simpl. split; [auto|lia].
    + rewrite IH. split; [now intros [H1 H2]; auto|].
      intros [[->|H] Hv]; [|now split].
      now rewrite same_key_refl in E.
Qed.

Lemma distinct_In (x : value) (col : list value) :
  In x (distinct col) <-> In x col.
Proof.
  induction col as [|v col IH]; [reflexivity|]. cbn [distinct In].
  rewrite filter_In, IH. split.
  - intros [H|[H _]]; auto.
  - intros [H|H]; [now left|].
    destruct (same_key v x) eqn:E; [|now right].
    apply same_key_eq in E as [-> _]. now left.
Qed.

Lemma distinct_NoDup (col : list value) :
  Forall (fun v => isna v = false) col -> NoDup (distinct col).
Proof.
  induction 1 as [|v col Hv Hcol IH]; cbn [distinct]; constructor.
  - rewrite filter_In. intros [_ H]. now rewrite same_key_refl in H.
  - now apply NoDup_filter.
Qed.

Lemma insert_count_perm (x : value * nat) (l : list (value * nat)) :
  Permutation (insert_count x l) (x :: l).
Proof.
  induction l as [|y l IH]; cbn [insert_count]; [reflexivity|].
  destruct (snd y <=? snd x)%nat; [reflexivity|].
  rewrite IH. apply perm_swap.
Qed.

Lemma sort_count_perm (l : list (value * nat)) :
  Permutation (fold_right insert_count [] l) l.
Proof.
  induction l as [|x l IH]; cbn [fold_right]; [reflexivity|].
  now rewrite insert_count_perm, IH.
Qed.

(** The function above is one that counts values. *)
Lemma value_counts_stable_counts : counts_values value_counts_stable.
Proof.
  intro col. unfold value_counts_stable.
  set (present := filter (fun v => negb (isna v)) col).
  set (firsts := map (fun v => (v, occurrences v col)) (distinct present)).
  pose proof (sort_count_perm firsts) as Hp. split.
  - apply (Permutation_NoDup (Permutation_sym (Permutation_map fst Hp))).
    unfold firsts. rewrite map_map. cbn [fst]. rewrite map_id.
    apply distinct_NoDup, Forall_forall. intros v Hv.
    apply filter_In in Hv as [_ Hv]. now destruct (isna v).
  - intros v n. split.
    + intro H. apply (Permutation_in _ Hp) in H.
      apply in_map_iff in H as (x & [= <- <-] & Hx).
      apply distinct_In, filter_In in Hx as [Hx Hv].
      assert (isna x = false) as Hna by now destruct (isna x).
      split; [exact Hna|split; [|reflexivity]].
      apply occurrences_pos. now split.
    + intros (Hv & Hn & ->). apply (Permutation_in _ (Permutation_sym Hp)).
      apply in_map_iff. exists v. split; [reflexivity|].
      apply distinct_In, filter_In. apply occurrences_pos in Hn as [Hin _].
      split; [exact Hin|now rewrite Hv].
Qed.

Lemma NoDup_map_filter (A B : Type) (f : A -> B) (p : A -> bool) (l : list A) :
  NoDup (map f l) -> NoDup (map f (filter p l)).
Proof.
  induction l as [|x l IH]; cbn [map filter]; [trivial|].
  intro H. inversion H as [|? ? Hx Hl]; subst. destruct (p x); [|auto].
  cbn [map]. constructor; [|auto].
  intro Hin. apply Hx. apply in_map_iff in Hin as (y & Hy & Hin).
  apply filter_In in Hin as [Hin _]. apply in_map_iff. now exists y.
Qed.

Lemma dict_set_fresh (d : dict) (k : value) (c : str) :
  (forall e, In e d -> same_key (fst e) k = false) ->
  dict_set d k c = d ++ [(k, c)].
Proof.
  induction d as [|[k' c'] d IH]; intro H; [reflexivity|].
  cbn [dict_set app]. pose proof (H (k', c') (or_introl eq_refl)) as E.
  cbn [fst] in E. rewrite E.
  rewrite IH; [reflexivity|]. intros e He. apply H. now right.
Qed.

(** Sessions that differ from one another and from the keys already
    set: the loop appends them in order, the i-th with the colour of
    index i. *)
Lemma assign_colors_appends (l : list value) :
  forall i d,
  NoDup l ->
  (forall e k, In e d -> In k l -> same_key (fst e) k = false) ->
  assign_colors i l d = d ++ combine l (map color_at (List.seq i (List.length l))).
Proof.
  induction l as [|k l IH]; intros i d Hl Hd.
  - cbn. now rewrite app_nil_r.
  - inversion Hl as [|? ? Hk Hl']; subst.
    cbn [assign_colors List.length List.seq map combine].
    rewrite dict_set_fresh by (intros e He; apply (Hd e k He); now left).
    rewrite IH; [now rewrite <- app_assoc|exact Hl'|].
    intros e x He Hx. apply in_app_or in He as [He|[<-|[]]].
    + apply (Hd e x He). now right.
    + cbn [fst]. destruct (same_key k x) eqn:E; [|reflexivity].
      apply same_key_eq in E as [-> _]. contradiction.
Qed.

Lemma fst_combine (A B : Type) (l : list A) :
  forall l' : list B, List.length l = List.length l' -> map fst (combine l l') = l.
Proof.
  induction l as [|x l IH]; intros [|y l'] H; try discriminate; [reflexivity|].
  cbn [combine map fst]. f_equal. apply IH. now injection H.
Qed.

Lemma snd_combine (A B : Type) (l : list A) :
  forall l' : list B, List.length l = List.length l' -> map snd (combine l l') = l'.
Proof.
  induction l as [|x l IH]; intros [|y l'] H; try discriminate; [reflexivity|].
  cbn [combine map snd]. f_equal. apply IH. now injection H.
Qed.

Lemma dict_get_In (d : dict) (v : value) (c : str) :
  dict_get d v = Some c -> In (v, c) d.
Proof.
  induction d as [|[k c'] d IH]; [discriminate|]. cbn [dict_get].
  destruct (same_key k v) eqn:E; [|now right; apply IH].
  apply same_key_eq in E as [-> _]. intros [= ->]. now left.
Qed.

Lemma In_dict_get (d : dict) (v : value) (c : str) :
  NoDup (map fst d) -> isna v = false -> In (v, c) d -> dict_get d v = Some c.
Proof.
  intros Hd Hv. induction d as [|[k c'] d IH]; [contradiction|].
  cbn [map fst] in Hd. inversion Hd as [|? ? Hk Hd']; subst.
  cbn [dict_get]. intros [[= -> ->]|H].
  - now rewrite same_key_refl.
  - destruct (same_key k v) eqn:E; [|now apply IH].
    apply same_key_eq in E as [-> _]. destruct Hk.
    apply in_map_iff. now exists (v, c).
Qed.

Lemma one_key_per_colour (d : dict) (v v' : value) (c : str) :
  NoDup (map snd d) -> In (v, c) d -> In (v', c) d -> v = v'.
Proof.
  induction d as [|[k c'] d IH]; [contradiction|].
  cbn [map snd]. intro Hd. inversion Hd as [|? ? Hk Hd']; subst.
  assert (forall x, In (x, c') d -> False) as Hno.
  { intros x Hx. apply Hk. apply in_map_iff. now exists (x, c'). }
  intros [[= -> ->]|H1] [[= ->]|H2]; try reflexivity.
  - destruct (Hno _ H2).
  - subst c'. destruct (Hno _ H1).
  - now apply IH.
Qed.

Lemma colors_NoDup : NoDup colors.
Proof.
  repeat constructor; cbn [In]; intro H;
    repeat (destruct H as [H|H]; [discriminate H|]); exact H.
Qed.

Lemma first_colors (n : nat) :
  n <= 10 -> map color_at (List.seq 0 n) = firstn n colors.
Proof.
  intro H. do 11 (destruct n as [|n]; [reflexivity|]). lia.
Qed.

Lemma NoDup_firstn (A : Type) (n : nat) (l : list A) :
  NoDup l -> NoDup (firstn n l).
Proof.
  intro H. rewrite <- (firstn_skipn n l) in H.
  now apply NoDup_app_remove_r in H.
Qed.

Lemma color_at_In (i : nat) : In (color_at i) colors.
Proof.
  unfold color_at. apply nth_In. apply Nat.mod_upper_bound. discriminate.
Qed.

Lemma In_seq_rows (v : value) (col : list value) :
  forall s r,
  In (r, v) (combine (List.seq s (List.length col)) col)
  <-> s <= r /\ nth_error col (r - s) = Some v.
Proof.
  induction col as [|x col IH]; intros s r; cbn [List.length List.seq combine In].
  - split; [contradiction|]. intros [_ H]. now destruct (r - s).
  - rewrite IH. split.
    + intros [[= -> ->]|[H1 H2]].
      * rewrite Nat.sub_diag. now split.
      * split; [lia|]. replace (r - s) with (S (r - S s)) by lia. exact H2.
    + intros [H1 H2]. destruct (r - s) as [|j] eqn:E.
      * left. injection H2 as ->. f_equal. lia.
      * right. split; [lia|]. replace (r - S s) with j by lia. exact H2.
Qed.

Section SessionColors.

Variable value_counts : list value -> list (value * nat).
Hypothesis value_counts_counts : counts_values value_counts.

Lemma duplicate_sessions_In (col : list value) (v : value) :
  In v (duplicate_sessions (value_counts col))
  <-> isna v = false /\ 2 <= occurrences v col.
Proof.
  destruct (value_counts_counts col) as [_ Hc].
  unfold duplicate_sessions. rewrite in_map_iff. split.
  - intros ([x n] & <- & H). apply filter_In in H as [H Hn].
    apply Hc in H as (Hv & _ & ->). cbn [fst snd] in *.
    apply Nat.ltb_lt in Hn. now split.
  - intros [Hv Hn]. exists (v, occurrences v col). split; [reflexivity|].
    apply filter_In. split.
    + apply Hc. repeat split; [exact Hv|lia].
    + apply Nat.ltb_lt. cbn [snd]. lia.
Qed.

Lemma duplicate_sessions_NoDup (col : list value) :
  NoDup (duplicate_sessions (value_counts col)).
Proof.
  destruct (value_counts_counts col) as [Hn _].
  now apply NoDup_map_filter.
Qed.

(** The dict holds the sessions that come back, in the order
    [value_counts] gave them, the i-th with the colour of index i. *)
Lemma session_colors_listed (col : list value) :
  generate_session_colors value_counts col
  = combine (duplicate_sessions (value_counts col))
      (map color_at
         (List.seq 0 (List.length (duplicate_sessions (value_counts col))))).
Proof.
  unfold generate_session_colors.
  rewrite assign_colors_appends; [reflexivity|apply duplicate_sessions_NoDup|].
  intros e k [].
Qed.

Lemma session_colors_keys (col : list value) :
  map fst (generate_session_colors value_counts col)
  = duplicate_sessions (value_counts col).
Proof.
  rewrite session_colors_listed. apply fst_combine.
  now rewrite length_map, length_seq.
Qed.

Lemma session_colors_values (col : list value) :
  map snd (generate_session_colors value_counts col)
  = map color_at
      (List.seq 0 (List.length (duplicate_sessions (value_counts col)))).
Proof.
  rewrite session_colors_listed. apply snd_combine.
  now rewrite length_map, length_seq.
Qed.

Lemma session_colors_get (col : list value) (v : value) :
  (exists c, dict_get (generate_session_colors value_counts col) v = Some c)
  <-> isna v = false /\ 2 <= occurrences v col.
Proof.
  rewrite <- duplicate_sessions_In, <- session_colors_keys. split.
  - intros [c H]. apply dict_get_In in H. apply in_map_iff. now exists (v, c).
  - intro H. pose proof H as H'.
    rewrite session_colors_keys in H'. apply duplicate_sessions_In in H' as [Hv _].
    apply in_map_iff in H as ([k c] & E & H). cbn [fst] in E. subst k.
    exists c. apply In_dict_get; [|exact Hv|exact H].
    rewrite session_colors_keys. apply duplicate_sessions_NoDup.
Qed.

(** A session id has a colour if and only if it is not missing and at
    least two cells of the column hold it. *)
Theorem session_coloured_iff_repeated (col : list value) (v : value) :
  (exists c, dict_get (generate_session_colors value_counts col) v = Some c)
  <-> isna v = false /\ 2 <= occurrences v col.
Proof. apply session_colors_get. Qed.

(** Every colour given is one of the ten of the palette; and when ten
    sessions at most have one, no two sessions share a colour. *)
Theorem session_colour_of_palette (col : list value) (v : value) (c : str) :
  dict_get (generate_session_colors value_counts col) v = Some c ->
  In c colors /\
  (List.length (generate_session_colors value_counts col) <= 10 ->
   forall v', dict_get (generate_session_colors value_counts col) v' = Some c ->
   v' = v).
Proof.
  intro H. apply dict_get_In in H. split.
  - assert (In c (map snd (generate_session_colors value_counts col))) as Hc
      by (apply in_map_iff; now exists (v, c)).
    rewrite session_colors_values in Hc.
    apply in_map_iff in Hc as (i & <- & _). apply color_at_In.
  - intros Hn v' H'. apply dict_get_In in H'.
    apply (@one_key_per_colour (generate_session_colors value_counts col) v' v c);
      [|exact H'|exact H].
    rewrite session_colors_values.
    rewrite <- (length_map fst), session_colors_keys in Hn.
    rewrite first_colors by exact Hn.
    apply NoDup_firstn, colors_NoDup.
Qed.

(** The colour coding fills the cells of the SessionId column, and
    those only, in the rows whose session id is not missing and stands
    in two cells at least; a data cell of index i is in row i + 2, so
    the header row is never filled; the fill is solid, of the colour of
    the session without its [#], so the rows of one session carry one
    fill. *)
Theorem fills_follow_sessions (columns : list string) (col : list value)
    (r c : nat) (f : pattern_fill) :
  In (r, c, f)
    (color_sessions columns col (generate_session_colors value_counts col))
  <->
  find_session_col columns 1 = Some c /\ 2 <= r /\
  exists v color,
    nth_error col (r - 2) = Some v /\
    isna v = false /\ 2 <= occurrences v col /\
    dict_get (generate_session_colors value_counts col) v = Some color /\
    f = mk_fill (remove_char "#" color) (remove_char "#" color) "solid".
Proof.
  set (d := generate_session_colors value_counts col).
  assert (forall sc s l,
            In (r, c, f) (fill_rows sc s l d) <->
            c = sc /\ s <= r /\
            exists v color,
              nth_error l (r - s) = Some v /\ dict_get d v = Some color /\
              f = mk_fill (remove_char "#" color) (remove_char "#" color) "solid")
    as Hrows.
  { intros sc s l. revert s. induction l as [|x l IH]; intro s; cbn [fill_rows].
    - split; [contradiction|]. intros (_ & _ & v & color & H & _).
      now destruct (r - s).
    - assert (In (r, c, f) (fill_rows sc (S s) l d) <->
              c = sc /\ s <= r /\ r <> s /\
              exists v color,
                nth_error (x :: l) (r - s) = Some v /\ dict_get d v = Some color /\
                f = mk_fill (remove_char "#" color) (remove_char "#" color) "solid")
        as Hl.
      { rewrite IH. split.
        - intros (H1 & H2 & v & color & H3 & H4).
          repeat split; [exact H1|lia|lia|]. exists v, color.
          replace (r - s) with (S (r - S s)) by lia. now split.
        - intros (H1 & H2 & Hne & v & color & H3 & H4).
          repeat split; [exact H1|lia|]. exists v, color.
          replace (r - s) with (S (r - S s)) in H3 by lia. now split. }
      destruct (dict_get d x) as [color|] eqn:E.
      + cbn [In]. rewrite Hl. split.
        * intros [[= <- <- <-]|(H1 & H2 & _ & H3)].
          -- repeat split; [lia|]. exists x, color. rewrite Nat.sub_diag.
             now repeat split.
          -- now repeat split.
        * intros (H1 & H2 & v & color' & H3 & H4 & H5).
          destruct (Nat.eq_dec r s) as [->|Hne].
          -- left. rewrite Nat.sub_diag in H3. injection H3 as <-.
             rewrite E in H4. injection H4 as <-. now subst.
          -- right. repeat split; [exact H1|exact H2|exact Hne|].
             now exists v, color'.
      + rewrite Hl. split.
        * intros (H1 & H2 & _ & H3). now repeat split.
        * intros (H1 & H2 & v & color & H3 & H4 & H5).
          repeat split; [exact H1|exact H2| |now exists v, color].
          intros ->. rewrite Nat.sub_diag in H3. injection H3 as <-. congruence. }
  assert (forall columns idx n, find_session_col columns idx = Some n -> idx <= n)
    as Hidx.
  { clear. intro columns. induction columns as [|x columns IH]; intros idx n;
      cbn [find_session_col]; [discriminate|].
    destruct (String.eqb x "SessionId"); [intros [= ->]; lia|].
    intro H. apply IH in H. lia. }
  unfold color_sessions.
  destruct (find_session_col columns 1) as [[|sc]|] eqn:Ef.
  - apply Hidx in Ef. lia.
  - rewrite Hrows. split.
    + intros (-> & Hr & v & color & Hv & Hg & Hf).
      repeat split; [exact Hr|]. exists v, color.
      assert (exists x, dict_get d v = Some x) as Hx by now exists color.
      apply session_colors_get in Hx as [Hna Hocc]. now repeat split.
    + intros ([= <-] & Hr & v & color & Hv & _ & _ & Hg & Hf).
      repeat split; [exact Hr|]. now exists v, color.
  - split; [contradiction|]. now intros [[=] _].
Qed.

End SessionColors.

Lemma session_colour_of_palette_witness :
  In (lit "#98FB98") colors /\
  (List.length (generate_session_colors value_counts_stable session_column) <= 10 ->
   forall v',
     dict_get (generate_session_colors value_counts_stable session_column) v'
     = Some (lit "#98FB98") ->
     v' = VStr (lit "b2")).
Proof.
  apply (@session_colour_of_palette value_counts_stable
           value_counts_stable_counts session_column (VStr (lit "b2"))
           (lit "#98FB98")).
  reflexivity.
Defined.

Lemma session_coloured_iff_repeated_witness :
  (exists c,
     dict_get (generate_session_colors value_counts_stable session_column)
       (VStr (lit "a1")) = Some c)
  <-> isna (VStr (lit "a1")) = false
      /\ 2 <= occurrences (VStr (lit "a1")) session_column.
Proof.
  apply (@session_coloured_iff_repeated value_counts_stable
           value_counts_stable_counts session_column (VStr (lit "a1"))).
Defined.

Lemma fills_follow_sessions_witness :
  In (7, 2, mk_fill (lit "98FB98") (lit "98FB98") "solid")
    (color_sessions sheet_columns session_column
       (generate_session_colors value_counts_stable session_column))
  <->
  find_session_col sheet_columns 1 = Some 2 /\ 2 <= 7 /\
  exists v color,
    nth_error session_column (7 - 2) = Some v /\
    isna v = false /\ 2 <= occurrences v session_column /\
    dict_get (generate_session_colors value_counts_stable session_column) v
    = Some color /\
    mk_fill (lit "98FB98") (lit "98FB98") "solid"
    = mk_fill (remove_char "#" color) (remove_char "#" color) "solid".
Proof.
  apply (@fills_follow_sessions value_counts_stable value_counts_stable_counts
           sheet_columns session_column 7 2
           (mk_fill (lit "98FB98") (lit "98FB98") "solid")).
Defined.

Example session_fills_run :
  color_sessions sheet_columns session_column
    (generate_session_colors value_counts_stable session_column)
  = [(2, 2, mk_fill (lit "FFB6C1") (lit "FFB6C1") "solid");
     (3, 2, mk_fill (lit "98FB98") (lit "98FB98") "solid");
     (4, 2, mk_fill (lit "FFB6C1") (lit "FFB6C1") "solid");
     (7, 2, mk_fill (lit "98FB98") (lit "98FB98") "solid")].
Proof. vm_compute. reflexivity. Qed.

Lemma combine_nth_In (l : list value) :
  forall s i d,
  i < List.length l ->
  In (nth i l d, color_at (s + i))
    (combine l (map color_at (List.seq s (List.length l)))).
Proof.
  induction l as [|x l IH]; intros s i d Hi; cbn [List.length] in Hi; [lia|].
  cbn [List.length List.seq map combine]. destruct i as [|i].
  - left. now rewrite Nat.add_0_r.
  - right. cbn [nth]. replace (s + S i) with (S s + i) by lia.
    apply IH. lia.
Qed.

(** With more than ten sessions to colour the palette wraps around:
    two sessions get the same colour. *)
Theorem colours_repeat_after_ten
    (value_counts : list value -> list (value * nat)) (col : list value) :
  counts_values value_counts ->
  11 <= List.length (generate_session_colors value_counts col) ->
  exists v v' c,
    v <> v' /\
    dict_get (generate_session_colors value_counts col) v = Some c /\
    dict_get (generate_session_colors value_counts col) v' = Some c.
Proof.
  intros Hvc Hn.
  pose proof (session_colors_keys Hvc col) as Hk.
  pose proof (duplicate_sessions_NoDup Hvc col) as Hd.
  rewrite <- (length_map fst), Hk in Hn.
  set (dups := duplicate_sessions (value_counts col)) in *.
  assert (forall i, i < List.length dups ->
            dict_get (generate_session_colors value_counts col) (nth i dups VNone)
            = Some (color_at i)) as Hget.
  { intros i Hi. apply In_dict_get.
    - now rewrite Hk.
    - assert (In (nth i dups VNone) dups) as Hin by now apply nth_In.
      now apply (duplicate_sessions_In Hvc) in Hin.
    - rewrite (session_colors_listed Hvc). fold dups.
      exact (@combine_nth_In dups 0 i VNone Hi). }
  exists (nth 0 dups VNone), (nth 10 dups VNone), (color_at 0).
  split; [|split].
  - intro E. apply (proj1 (NoDup_nth dups VNone) Hd) in E; [discriminate|lia|lia].
  - apply Hget. lia.
  - change (color_at 0) with (color_at 10). apply Hget. lia.
Qed.

Lemma colours_repeat_after_ten_witness :
  exists v v' c,
    v <> v' /\
    dict_get (generate_session_colors value_counts_stable eleven_sessions) v
    = Some c /\
    dict_get (generate_session_colors value_counts_stable eleven_sessions) v'
    = Some c.
Proof.
  apply (@colours_repeat_after_ten value_counts_stable eleven_sessions).
  - exact value_counts_stable_counts.
  - vm_compute. lia.
Defined.

(** ** The order the entities are rewritten in *)

Lemma insert_desc_perm (x : nat * nat * string) (l : list (nat * nat * string)) :
  Permutation (insert_desc x l) (x :: l).
Proof.
  induction l as [|y l IH]; cbn [insert_desc]; [reflexivity|].
  destruct (start_of y <=? start_of x)%nat; [reflexivity|].
  rewrite IH. apply perm_swap.
Qed.

Lemma sort_desc_perm (l : list (nat * nat * string)) :
  Permutation (sort_desc l) l.
Proof.
  induction l as [|x l IH]; cbn [sort_desc fold_right]; [reflexivity|].
  fold (sort_desc l). now rewrite insert_desc_perm, IH.
Qed.

Lemma insert_desc_sorted (x : nat * nat * string) (l : list (nat * nat * string)) :
  StronglySorted (fun a b => start_of b <= start_of a) l ->
  StronglySorted (fun a b => start_of b <= start_of a) (insert_desc x l).
Proof.
  induction 1 as [|y l Hl IH Hy]; cbn [insert_desc].
  - repeat constructor.
  - destruct (start_of y <=? start_of x)%nat eqn:E.
    + apply Nat.leb_le in E. constructor; [now constructor|].
      constructor; [exact E|]. eapply Forall_impl; [|exact Hy].
      intros a Ha. cbn beta in Ha. lia.
    + apply Nat.leb_gt in E. constructor; [exact IH|].
      apply (Permutation_Forall (Permutation_sym (insert_desc_perm x l))).
      constructor; [lia|exact Hy].
Qed.

Lemma sort_desc_sorted (l : list (nat * nat * string)) :
  StronglySorted (fun a b => start_of b <= start_of a) (sort_desc l).
Proof.
  induction l as [|x l IH]; cbn [sort_desc fold_right]; [constructor|].
  now apply insert_desc_sorted.
Qed.

Lemma insert_desc_stable (k : nat) (x : nat * nat * string)
    (l : list (nat * nat * string)) :
  starting_at k (insert_desc x l) = starting_at k (x :: l).
Proof.
  unfold starting_at. induction l as [|y l IH]; cbn [insert_desc]; [reflexivity|].
  destruct (start_of y <=? start_of x)%nat eqn:E; [reflexivity|].
  apply Nat.leb_gt in E. cbn [filter] in *. rewrite IH.
  destruct (start_of x =? k)%nat eqn:Ex, (start_of y =? k)%nat eqn:Ey;
    try reflexivity.
  apply Nat.eqb_eq in Ex, Ey. lia.
Qed.

Lemma sort_desc_stable (k : nat) (l : list (nat * nat * string)) :
  starting_at k (sort_desc l) = starting_at k l.
Proof.
  induction l as [|x l IH]; cbn [sort_desc fold_right]; [reflexivity|].
  fold (sort_desc l). rewrite insert_desc_stable. unfold starting_at in *.
  cbn [filter]. now rewrite IH.
Qed.

(** When the recognizer answers, the entity stage rewrites the spans
    the filter kept, each of them once and no other, from the greatest
    start down; spans of one start are rewritten in the order the
    recognizer gave them. *)
Theorem entities_rewritten_right_to_left (nlp : recognizer) (text : str)
    (ents : list ent) :
  nlp text = Doc ents ->
  exists l,
    entity_stage nlp text = Ret (fold_left scrub_span l text) /\
    Permutation l (collect_entities text ents) /\
    StronglySorted (fun a b => start_of b <= start_of a) l /\
    forall k, starting_at k l = starting_at k (collect_entities text ents).
Proof.
  intro H. exists (sort_desc (collect_entities text ents)).
  unfold entity_stage, call. rewrite H. cbn [bind].
  split; [reflexivity|split; [apply sort_desc_perm|split]].
  - apply sort_desc_sorted.
  - intro k. apply sort_desc_stable.
Qed.

Lemma entities_rewritten_right_to_left_witness :
  exists l,
    entity_stage out_of_order greeting = Ret (fold_left scrub_span l greeting) /\
    Permutation l
      (collect_entities greeting
         [mk_ent 5 9 "PERSON"; mk_ent 26 32 "GPE"; mk_ent 5 13 "ORG"]) /\
    StronglySorted (fun a b => start_of b <= start_of a) l /\
    forall k,
      starting_at k l
      = starting_at k
          (collect_entities greeting
             [mk_ent 5 9 "PERSON"; mk_ent 26 32 "GPE"; mk_ent 5 13 "ORG"]).
Proof.
  apply (@entities_rewritten_right_to_left out_of_order greeting
           [mk_ent 5 9 "PERSON"; mk_ent 26 32 "GPE"; mk_ent 5 13 "ORG"]).
  reflexivity.
Defined.

(** ** Cards on their own *)

Lemma restore_after_shield (x : str) (fuel : nat) :
  contains PLACEHOLDER_HEAD x = false ->
  List.length (snd (shield x)) < fuel ->
  restore_loop fuel (snd (shield x)) (fst (shield x)) 0 = Ret x.
Proof.
  intros Hx Hf. unfold shield in *.
  destruct (re_sub_fn_pieces TEMP_CREDIT_CARD_IGNORE_PATTERN cc_match_replacer [] x)
    as (segs & tail & Ht & Hs).
  rewrite Hs in *. rewrite shield_pieces_snd in *. simpl in Hf.
  rewrite length_map in Hf. rewrite Ht in Hx |- *.
  exact (restore_pieces segs tail Hx Hf).
Qed.

(** A text that does not spell the marker of the tokens, and in which,
    once the cards are shielded, no rule finds a match and the
    recognizer (if any) keeps no entity, comes back from [scrub_pii]
    as it was, every card in its place, on any fuel above the number
    of cards. *)
Theorem cards_alone_pass_unchanged (fuel : nat) (nlp : option recognizer)
    (x : str) :
  contains PLACEHOLDER_HEAD x = false ->
  apply_rules (fst (shield x)) = fst (shield x) ->
  no_entities nlp (fst (shield x)) = true ->
  List.length (snd (shield x)) < fuel ->
  scrub_pii fuel nlp (VStr x) = Ret (VStr x).
Proof.
  intros Hx Hr Hn Hf. pose proof (restore_after_shield x Hx Hf) as Hback.
  unfold scrub_pii. change (isna (VStr x)) with false. cbv iota.
  change (str_of_value (VStr x)) with x.
  destruct (shield x) as [shielded cc]. cbn [fst snd] in *. rewrite Hr.
  unfold no_entities in Hn. destruct nlp as [f|]; cbn [bind].
  - unfold entity_stage, call.
    destruct (f shielded) as [ents|e]; cbn [bind try_except].
    + destruct (collect_entities shielded ents); [|discriminate].
      cbn [sort_desc fold_right scrub_spans fold_left]. now rewrite Hback.
    + now rewrite Hback.
  - now rewrite Hback.
Qed.

Lemma cards_alone_pass_unchanged_witness :
  scrub_pii 3 (Some always_fails) (VStr two_cards) = Ret (VStr two_cards).
Proof.
  apply (@cards_alone_pass_unchanged 3 (Some always_fails) two_cards);
    try reflexivity.
  vm_compute. lia.
Defined.

(** ** The width of a column *)

Lemma longest_from (column : list value) :
  forall init,
  let m :=
    fold_left
      (fun max_length cell =>
         if (max_length <? List.length (str_of_value cell))%nat
         then List.length (str_of_value cell)
         else max_length)
      column init in
  init <= m /\
  (forall cell, In cell column -> List.length (str_of_value cell) <= m) /\
  (m = init \/ exists cell, In cell column /\ m = List.length (str_of_value cell)).
Proof.
  induction column as [|x column IH]; intro init; cbn [fold_left].
  - repeat split; [lia|contradiction|now left].
  - set (len := List.length (str_of_value x)).
    destruct (init <? len)%nat eqn:E;
      [apply Nat.ltb_lt in E|apply Nat.ltb_ge in E].
    + destruct (IH len) as (H1 & H2 & H3). cbn zeta in *.
      repeat split; [lia| |].
      * intros cell [<-|H]; [exact H1|now apply H2].
      * right. destruct H3 as [H3|(cell & Hc & H3)].
        -- exists x. split; [now left|exact H3].
        -- exists cell. split; [now right|exact H3].
    + destruct (IH init) as (H1 & H2 & H3). cbn zeta in *.
      repeat split; [lia| |].
      * intros cell [<-|H]; [fold len; lia|now apply H2].
      * destruct H3 as [H3|(cell & Hc & H3)]; [now left|].
        right. exists cell. split; [now right|exact H3].
Qed.

(** The width set for a column is between 2 and 50; it leaves two
    characters beyond the text of every cell unless it is capped at
    50; and below the cap it is the length of the longest cell plus
    two, or 2 when every cell is empty. *)
Theorem adjusted_width_fits (column : list value) :
  2 <= adjusted_width column <= 50 /\
  (forall cell, In cell column ->
     List.length (str_of_value cell) + 2 <= adjusted_width column
     \/ adjusted_width column = 50) /\
  (adjusted_width column < 50 ->
   adjusted_width column = 2 \/
   exists cell,
     In cell column /\
     adjusted_width column = List.length (str_of_value cell) + 2).
Proof.
  unfold adjusted_width, longest_cell.
  destruct (longest_from column 0) as (_ & H2 & H3). cbn zeta in *.
  split; [lia|split].
  - intros cell Hc. specialize (H2 cell Hc). lia.
  - intro Hw. destruct H3 as [H3|(cell & Hc & H3)]; [left; lia|].
    right. exists cell. split; [exact Hc|lia].
Qed.

(** ** [process_excel_file] *)

Lemma frame_get_set_other (df : frame) (name other : string) (col : list value) :
  other <> name ->
  frame_get (frame_set df name col) other = frame_get df other.
Proof.
  intro Hne. induction df as [|[n c] df IH]; cbn [frame_set frame_get].
  - destruct (String.eqb name other) eqn:E; [|reflexivity].
    apply String.eqb_eq in E. congruence.
  - destruct (String.eqb n name) eqn:E; cbn [frame_get]; [|now rewrite IH].
    apply String.eqb_eq in E. subst n.
    destruct (String.eqb name other) eqn:E'; [|reflexivity].
    apply String.eqb_eq in E'. congruence.
Qed.

Lemma frame_get_set_same (df : frame) (name : string) (col : list value) :
  frame_get (frame_set df name col) name = Some col.
Proof.
  induction df as [|[n c] df IH]; cbn [frame_set frame_get].
  - now rewrite String.eqb_refl.
  - destruct (String.eqb n name) eqn:E; cbn [frame_get]; now rewrite E.
Qed.

Lemma apply_cells_library (f : value -> outcome value) (col : list value) :
  (forall v, f v <> OutOfFuel) -> apply_cells f col <> OutOfFuel.
Proof.
  intro Hf. induction col as [|v col IH]; cbn [apply_cells]; [discriminate|].
  specialize (Hf v). destruct (f v); cbn [bind]; try congruence.
  destruct (apply_cells f col); cbn [bind]; congruence.
Qed.

Section ProcessFacts.

Variable get_text : str -> exn + str.
Variable read_excel : exn + frame.
Variable satisfaction_summary : frame -> exn + option frame.
Variable write_workbook :
  frame -> option frame -> list (nat * nat * pattern_fill) -> exn + unit.
Variable value_counts : list value -> list (value * nat).
Variable nlp : option recognizer.

Lemma clean_html_ends (v : value) : clean_html get_text v <> OutOfFuel.
Proof.
  unfold clean_html. destruct (isna v); [discriminate|].
  destruct (get_text (str_of_value v)); cbn; discriminate.
Qed.

(** With fuel enough, the two columns are added or the cleaning
    raises; the columns the table had are as they were, and the
    scrubbed column is the question column gone through [scrub_pii]. *)
Lemma add_columns_ends (df : frame) :
  exists n, forall fuel, n <= fuel ->
    (exists e, add_columns get_text nlp fuel df = Raise e) \/
    (exists df',
       add_columns get_text nlp fuel df = Ret df' /\
       (forall name col,
          frame_get df name = Some col ->
          name <> "RawAnswer.Answer_Cleaned" -> name <> "UserQuestion_Scrubbed" ->
          frame_get df' name = Some col) /\
       (forall name,
          frame_get df name = None ->
          name <> "RawAnswer.Answer_Cleaned" -> name <> "UserQuestion_Scrubbed" ->
          frame_get df' name = None) /\
       (forall col,
          frame_get df "UserQuestion" = Some col ->
          exists out,
            scrub_column fuel nlp col = Ret out /\
            frame_get df' "UserQuestion_Scrubbed" = Some out)).
Proof.
  unfold add_columns.
  assert (exists df1,
            (forall name,
               name <> "RawAnswer.Answer_Cleaned" ->
               frame_get df1 name = frame_get df name) /\
            ((exists e,
                match frame_get df "RawAnswer.Answer" with
                | Some col =>
                  cleaned <- apply_cells (clean_html get_text) col ;;
                  Ret (frame_set df "RawAnswer.Answer_Cleaned" cleaned)
                | None => Ret df
                end = Raise e) \/
             match frame_get df "RawAnswer.Answer" with
             | Some col =>
               cleaned <- apply_cells (clean_html get_text) col ;;
               Ret (frame_set df "RawAnswer.Answer_Cleaned" cleaned)
             | None => Ret df
             end = Ret df1)) as (df1 & Hsame & Hfirst).
  { destruct (frame_get df "RawAnswer.Answer") as [col|].
    - pose proof (@apply_cells_library (clean_html get_text) col clean_html_ends) as H.
      destruct (apply_cells (clean_html get_text) col) as [cleaned|e|];
        cbn [bind]; [| |congruence].
      + exists (frame_set df "RawAnswer.Answer_Cleaned" cleaned).
        split; [|now right]. intros name Hn. now apply frame_get_set_other.
      + exists df. split; [reflexivity|left; now exists e].
    - exists df. split; [reflexivity|now right]. }
  destruct Hfirst as [[e He]|H1].
  { exists 0. intros fuel _. left. exists e. now rewrite He. }
  rewrite H1. cbn [bind].
  rewrite (Hsame "UserQuestion") by discriminate.
  destruct (frame_get df "UserQuestion") as [col|] eqn:Eq.
  - destruct (scrub_column_runs nlp col) as (n & out & Hrun & _).
    exists n. intros fuel Hf. right.
    exists (frame_set df1 "UserQuestion_Scrubbed" out).
    rewrite (Hrun fuel Hf). cbn [bind]. split; [reflexivity|split; [|split]].
    + intros name c Hc Hn1 Hn2. rewrite frame_get_set_other by exact Hn2.
      now rewrite Hsame.
    + intros name Hc Hn1 Hn2. rewrite frame_get_set_other by exact Hn2.
      now rewrite Hsame.
    + intros c [= <-]. exists out. split; [exact (Hrun fuel Hf)|].
      apply frame_get_set_same.
  - exists 0. intros fuel _. right. exists df1.
    split; [reflexivity|split; [|split]].
    + intros name c Hc Hn1 Hn2. now rewrite Hsame.
    + intros name Hc Hn1 Hn2. now rewrite Hsame.
    + discriminate.
Qed.


(** A workbook without a SessionId column is never written: with fuel
    enough [process_excel_file] raises, at [df['SessionId']] in
    [generate_session_colors] if not before, whatever the table
    holds; the test [if session_col] further down is never reached
    with no column found.  The main block then exits with status 1. *)
Theorem no_session_column_no_workbook (df : frame) :
  read_excel = inr df ->
  NoDup (map fst df) ->
  frame_get df "SessionId" = None ->
  exists n, forall fuel, n <= fuel ->
    (exists e,
       process_excel_file get_text read_excel satisfaction_summary
         write_workbook value_counts nlp fuel = Raise e) /\
    main get_text read_excel satisfaction_summary write_workbook value_counts
      nlp fuel = Ret 1.
Proof.
  intros Hread _ Hno. destruct (add_columns_ends df) as (n & H).
  exists n. intros fuel Hf.
  assert (exists e,
            process_excel_file get_text read_excel satisfaction_summary
              write_workbook value_counts nlp fuel = Raise e) as [e He].
  { unfold process_excel_file. rewrite Hread. cbn [library bind].
    destruct (H fuel Hf) as [[e He]|(df' & H1 & _ & H3 & _)].
    - exists e. now rewrite He.
    - rewrite H1. cbn [bind].
      destruct (satisfaction_summary df') as [e|summary]; cbn [library bind].
      + now exists e.
      + unfold session_colors_of.
        rewrite (H3 "SessionId" Hno) by discriminate.
        now exists "KeyError". }
  split; [now exists e|]. unfold main. now rewrite He.
Qed.

End ProcessFacts.

Lemma no_session_column_no_workbook_witness :
  exists n, forall fuel, n <= fuel ->
    (exists e,
       process_excel_file plain_get_text (inr questions_only) no_summary
         writer_returns value_counts_stable None fuel = Raise e) /\
    main plain_get_text (inr questions_only) no_summary writer_returns
      value_counts_stable None fuel = Ret 1.
Proof.
  apply (@no_session_column_no_workbook plain_get_text (inr questions_only)
           no_summary writer_returns value_counts_stable None questions_only);
    try reflexivity.
  repeat constructor; cbn [In]; intuition discriminate.
Defined.


Example questions_only_run :
  process_excel_file plain_get_text (inr questions_only) no_summary
    writer_returns value_counts_stable None 2 = Raise "KeyError"
  /\ add_columns plain_get_text None 2 questions_only
     = Ret (questions_only
              ++ [("UserQuestion_Scrubbed", [VStr (lit "mail ***"); VNaN])]).
Proof. vm_compute. split; reflexivity. Qed.
